(** * Jones-m-triviality: a shallow embedding of the classification pipeline

    The development follows the Python sources:
    - [BLexpansion.py]   Taylor / power-sum expansion of the Jones polynomial;
    - [JVP.py]           substitution into the ring Z[p] + Z[p] x, x (x - p) = 1;
    - [Jm_triviality.py] the Jm index, the shard splitter, the per-shard
                         classifier and the aggregator.

    Python dictionaries that are iterated (coefficient maps, histograms) are
    insertion-ordered association lists; the polynomial dictionaries of
    [JVP.py], which are only read through [get] and compared as values, are
    finite maps.  Python exceptions are the [Raise] results of an error monad.
    Strings are sequences of code points below 256, and floats are the
    binary64 numbers of the float specification of the core library. *)

From Stdlib Require Import ZArith QArith Qcanon List String Ascii Lia Ring.
From Stdlib Require Import Floats.SpecFloat.
From stdpp Require Import gmap strings list fin_maps pretty.

Local Open Scope Z_scope.

(** ** Exceptions and results *)

Inductive exn : Set :=
  | ValueError | IndexError | KeyError | ZeroDivisionError | OSError
  | OverflowError.

Inductive result (A : Type) : Type :=
  | Ok (a : A)
  | Raise (e : exn).
Arguments Ok {A} a.
Arguments Raise {A} e.

Definition rbind {A B} (r : result A) (k : A → result B) : result B :=
  match r with
  | Ok a => k a
  | Raise e => Raise e
  end.

Notation "x ←! r ;; k" := (rbind r (λ x, k))
  (at level 100, r at next level, right associativity, only parsing).

Definition is_ok {A} (r : result A) : Prop := ∃ a, r = Ok a.

(** A list comprehension whose element expression may raise: the
    elements are computed in order and the first exception ends it. *)
Fixpoint rmap {A B} (f : A → result B) (l : list A) : result (list B) :=
  match l with
  | [] => Ok []
  | x :: l' => y ←! f x ;; ys ←! rmap f l' ;; Ok (y :: ys)
  end.

(** Integers and exact fractions.  [fractions.Fraction] keeps its values in
    lowest terms, which is what [Qc] does. *)

Definition Z2Qc (z : Z) : Qc := Q2Qc (inject_Z z).

#[global] Instance Qc_eq_decision : EqDecision Qc := Qc_eq_dec.
#[global] Instance Qc_inhabited : Inhabited Qc := populate (Z2Qc 0).

(** A coefficient map of V(q) = sum_k c_k q^k: exponent and coefficient, in
    insertion order.  The driver builds it with [int] keys and values
    ([Jm_triviality.py], line 229). *)
Definition coef_map : Type := list (Z * Z).

(** Floats.  A Python [float] is an IEEE 754 binary64 number, here a
    [spec_float] of the precision 53 and the maximal exponent 1024: a signed
    zero, or a sign, a mantissa and an exponent, [m * 2^e]. *)
Definition float_of_int (z : Z) : spec_float :=
  match z with
  | Z0 => S754_zero false
  | Zpos p => S754_finite false p 0
  | Zneg p => S754_finite true p 0
  end.

(** The IEEE quotient, rounded to the nearest float, ties to even. *)
Definition binary64_div (x y : spec_float) : spec_float := SFdiv 53 1024 x y.

Definition is_finite (f : spec_float) : bool :=
  match f with
  | S754_zero _ | S754_finite _ _ _ => true
  | _ => false
  end.

(** [a / b] on two [int]: the quotient of the two integers rounded once,
    whatever their size; a zero divisor and a quotient beyond the
    largest float raise. *)
Definition int_truediv (a b : Z) : result spec_float :=
  if decide (b = 0) then Raise ZeroDivisionError
  else
    let f := binary64_div (float_of_int a) (float_of_int b) in
    if is_finite f then Ok f else Raise OverflowError.

(** [max(l or [0])] *)
Definition py_max_or0 (l : list Z) : Z :=
  match l with
  | [] => 0
  | x :: l' => fold_left Z.max l' x
  end.

(** [math.factorial] *)
Fixpoint factorial (m : nat) : Z :=
  match m with
  | O => 1
  | S m' => Z.of_nat m * factorial m'
  end.

(** ** Strings and [int] *)

(** A Python [str] is modelled by the string of the bytes of its UTF-8
    encoding, which is how the corpus, the shards and the command line
    hold it.  A byte that begins no well-formed sequence stands for the
    code point U+DC00 + byte, the escape under which [sys.argv] keeps an
    undecodable byte.  The operations of the program that look for ASCII
    characters ([split], [in], [==]) are the same on the bytes and on the
    code points; [int], [isdecimal] and [isdigit] read the code points. *)

Definition is_continuation (a : ascii) : bool :=
  (128 <=? N_of_ascii a)%N && (N_of_ascii a <? 192)%N.

(** The characters of a string: the code point and its bytes. *)
Fixpoint utf8_chars (s : string) : list (N * string) :=
  match s with
  | EmptyString => []
  | String a s1 =>
      let n := N_of_ascii a in
      let escape := ((56320 + n)%N, String a EmptyString) :: utf8_chars s1 in
      if (n <? 128)%N then (n, String a EmptyString) :: utf8_chars s1
      else if (n <? 194)%N then escape
      else if (n <? 224)%N then
        match s1 with
        | String b s2 =>
            if is_continuation b
            then (((n - 192) * 64 + (N_of_ascii b - 128))%N,
                  String a (String b EmptyString)) :: utf8_chars s2
            else escape
        | _ => escape
        end
      else if (n <? 240)%N then
        match s1 with
        | String b (String c s3) =>
            let cp := ((n - 224) * 4096 + (N_of_ascii b - 128) * 64
                       + (N_of_ascii c - 128))%N in
            if is_continuation b && is_continuation c && (2048 <=? cp)%N
               && negb ((55296 <=? cp)%N && (cp <? 57344)%N)
            then (cp, String a (String b (String c EmptyString)))
                 :: utf8_chars s3
            else escape
        | _ => escape
        end
      else if (n <? 245)%N then
        match s1 with
        | String b (String c (String d s4)) =>
            let cp := ((n - 240) * 262144 + (N_of_ascii b - 128) * 4096
                       + (N_of_ascii c - 128) * 64
                       + (N_of_ascii d - 128))%N in
            if is_continuation b && is_continuation c && is_continuation d
               && (65536 <=? cp)%N && (cp <? 1114112)%N
            then (cp, String a (String b (String c (String d EmptyString))))
                 :: utf8_chars s4
            else escape
        | _ => escape
        end
      else escape
  end.

Definition utf8_decode (s : string) : list N := (utf8_chars s).*1.

(** The tables of the Unicode database 14.0, the one of Python 3.11.
    The decimal digits come in runs of ten, each from a zero on; these
    are the zeros. *)
Definition decimal_zeros : list N :=
  [48; 1632; 1776; 1984; 2406; 2534; 2662; 2790; 2918; 3046; 3174; 3302;
   3430; 3558; 3664; 3792; 3872; 4160; 4240; 6112; 6160; 6470; 6608; 6784;
   6800; 6992; 7088; 7232; 7248; 42528; 43216; 43264; 43472; 43504; 43600;
   44016; 65296; 66720; 68912; 69734; 69872; 69942; 70096; 70384; 70736;
   70864; 71248; 71360; 71472; 71904; 72016; 72784; 73040; 73120; 92768;
   92864; 93008; 120782; 120792; 120802; 120812; 120822; 123200; 123632;
   125264; 130032]%N.

(** The ranges of the characters on which [str.isdigit] holds: the
    decimal digits and the other digits, as the superscripts. *)
Definition digit_ranges : list (N * N) :=
  [(48, 57); (178, 179); (185, 185); (1632, 1641); (1776, 1785);
   (1984, 1993); (2406, 2415); (2534, 2543); (2662, 2671); (2790, 2799);
   (2918, 2927); (3046, 3055); (3174, 3183); (3302, 3311); (3430, 3439);
   (3558, 3567); (3664, 3673); (3792, 3801); (3872, 3881); (4160, 4169);
   (4240, 4249); (4969, 4977); (6112, 6121); (6160, 6169); (6470, 6479);
   (6608, 6618); (6784, 6793); (6800, 6809); (6992, 7001); (7088, 7097);
   (7232, 7241); (7248, 7257); (8304, 8304); (8308, 8313); (8320, 8329);
   (9312, 9320); (9332, 9340); (9352, 9360); (9450, 9450); (9461, 9469);
   (9471, 9471); (10102, 10110); (10112, 10120); (10122, 10130);
   (42528, 42537); (43216, 43225); (43264, 43273); (43472, 43481);
   (43504, 43513); (43600, 43609); (44016, 44025); (65296, 65305);
   (66720, 66729); (68160, 68163); (68912, 68921); (69216, 69224);
   (69714, 69722); (69734, 69743); (69872, 69881); (69942, 69951);
   (70096, 70105); (70384, 70393); (70736, 70745); (70864, 70873);
   (71248, 71257); (71360, 71369); (71472, 71481); (71904, 71913);
   (72016, 72025); (72784, 72793); (73040, 73049); (73120, 73129);
   (92768, 92777); (92864, 92873); (93008, 93017); (120782, 120831);
   (123200, 123209); (123632, 123641); (125264, 125273); (127232, 127242);
   (130032, 130041)]%N.

(** The ranges of the whitespace, [str.isspace]. *)
Definition space_ranges : list (N * N) :=
  [(9, 13); (28, 32); (133, 133); (160, 160); (5760, 5760); (8192, 8202);
   (8232, 8233); (8239, 8239); (8287, 8287); (12288, 12288)]%N.

Definition in_ranges (cp : N) (ranges : list (N * N)) : bool :=
  existsb (λ r : N * N, (r.1 <=? cp)%N && (cp <=? r.2)%N) ranges.

(** The value of a decimal digit. *)
Definition decimal_of (cp : N) : option N :=
  (λ z, cp - z)%N
    <$> find (λ z, (z <=? cp)%N && (cp <? z + 10)%N) decimal_zeros.

Definition py_isspace (cp : N) : bool := in_ranges cp space_ranges.
Definition py_isdigit (cp : N) : bool := in_ranges cp digit_ranges.
Definition py_isdecimal (cp : N) : bool :=
  match decimal_of cp with Some _ => true | None => false end.

Definition is_digit (a : ascii) : bool :=
  let n := nat_of_ascii a in (48 <=? n)%nat && (n <=? 57)%nat.

(** The value of a string of ASCII digits read after [acc]. *)
Fixpoint decimal_value (acc : Z) (s : string) : option Z :=
  match s with
  | EmptyString => Some acc
  | String a s' =>
      if is_digit a
      then decimal_value (10 * acc + (Z.of_nat (nat_of_ascii a) - 48)) s'
      else None
  end.

(** [int(s)] first turns the string into ASCII: a character below 127 is
    kept, a whitespace becomes a space, a decimal digit the ASCII digit
    of its value, and anything else a character no literal has. *)
Definition int_char (cp : N) : ascii :=
  if (cp <? 127)%N then ascii_of_N cp
  else if py_isspace cp then " "%char
  else match decimal_of cp with
       | Some d => ascii_of_N (48 + d)
       | None => "?"%char
       end.

Definition int_ascii (s : string) : string :=
  string_of_list_ascii (int_char <$> utf8_decode s).

(** The ASCII text is then read: whitespace around the literal, which is
    the ASCII whitespace here, so that the separators 28 to 31 are not
    stripped; an optional sign; decimal digits, where single underscores
    may stand between two digits.  Anything else is a [ValueError].  The
    cap that an interpreter may put on the number of digits is a setting
    of the interpreter and is not modelled. *)
Definition is_whitespace (a : ascii) : bool :=
  let n := nat_of_ascii a in
  ((9 <=? n)%nat && (n <=? 13)%nat) || (n =? 32)%nat.

Fixpoint skip_whitespace (s : string) : string :=
  match s with
  | EmptyString => EmptyString
  | String a s' => if is_whitespace a then skip_whitespace s' else s
  end.

Fixpoint all_whitespace (s : string) : bool :=
  match s with
  | EmptyString => true
  | String a s' => is_whitespace a && all_whitespace s'
  end.

(** The digits of a literal, [acc] being the value read so far: digits,
    an underscore only before a digit, and at the end whitespace only. *)
Fixpoint int_digits (acc : Z) (s : string) : option Z :=
  match s with
  | EmptyString => Some acc
  | String a s' =>
      if is_digit a
      then int_digits (10 * acc + (Z.of_nat (nat_of_ascii a) - 48)) s'
      else if decide (a = "_"%char) then
        match s' with
        | String b s'' =>
            if is_digit b
            then int_digits (10 * acc + (Z.of_nat (nat_of_ascii b) - 48)) s''
            else None
        | EmptyString => None
        end
      else if all_whitespace s then Some acc else None
  end.

(** The literal after the sign: it starts with a digit. *)
Definition int_body (s : string) : option Z :=
  match s with
  | String a _ => if is_digit a then int_digits 0 s else None
  | EmptyString => None
  end.

Definition int_literal (s : string) : result Z :=
  let r :=
    match skip_whitespace s with
    | String "-" t => Z.opp <$> int_body t
    | String "+" t => int_body t
    | t => int_body t
    end in
  match r with
  | Some z => Ok z
  | None => Raise ValueError
  end.

(** [int(s)] *)
Definition py_int (s : string) : result Z := int_literal (int_ascii s).

(** ** BLexpansion.py *)

Module BL.

(** [CoefKey = Union[int, str, Fraction]]: the exponent key of a term. *)
Inductive CoefKey : Type :=
  | KInt (k : Z)
  | KStr (s : string)
  | KFraction (r : Qc).

(** [Fraction(numerator, denominator)] on two integers; a zero
    denominator raises. *)
Definition Fraction (numerator denominator : Z) : result Qc :=
  if decide (denominator = 0) then Raise ZeroDivisionError
  else Ok (Q2Qc (inject_Z numerator / inject_Z denominator)).

Definition _as_fraction_exponent (key : CoefKey) (exponent_den : Z)
  : result Qc :=
  match key with
  | KFraction r => Ok r
  | KInt k => Fraction k exponent_den
  | KStr s => k ←! py_int s ;; Fraction k exponent_den
  end.

(** The keys of a map are Python objects of these types.  A map whose
    keys all have one type is a list over that type: the driver builds
    maps with [int] keys, which are the [coef_map]. *)
Class IsCoefKey (K : Type) := coef_key : K → CoefKey.
#[global] Hint Mode IsCoefKey ! : typeclass_instances.
#[global] Instance int_key : IsCoefKey Z := KInt.
#[global] Instance str_key : IsCoefKey string := KStr.
#[global] Instance fraction_key : IsCoefKey Qc := KFraction.
#[global] Instance any_key : IsCoefKey CoefKey := λ key, key.

(** The first loop: [(r, c)] pairs, zero coefficients left out. *)
Fixpoint normalize_terms `{IsCoefKey K} (coefs : list (K * Z))
    (exponent_den : Z) : result (list (Qc * Z)) :=
  match coefs with
  | [] => Ok []
  | (k, c) :: rest =>
      if decide (c = 0) then normalize_terms rest exponent_den
      else
        r ←! _as_fraction_exponent (coef_key k) exponent_den ;;
        ts ←! normalize_terms rest exponent_den ;;
        Ok ((r, c) :: ts)
  end.

(** The inner loop over [m]: [M[m] += c * rp; rp *= r]. *)
Fixpoint add_powers (c : Z) (r rp : Qc) (M : list Qc) : list Qc :=
  match M with
  | [] => []
  | x :: M' => (x + Z2Qc c * rp)%Qc :: add_powers c r (rp * r)%Qc M'
  end.

Definition power_sums (terms : list (Qc * Z)) (n : nat) : list Qc :=
  fold_left (λ M t, add_powers t.2 t.1 (Z2Qc 1) M) terms
            (replicate (S n) (Z2Qc 0)).

Definition taylor_from_jones `{IsCoefKey K} (coefs : list (K * Z)) (n : Z)
    (exponent_den : Z) : result (list Qc) :=
  if decide (n < 0) then Raise ValueError
  else
    terms ←! normalize_terms coefs exponent_den ;;
    let M := power_sums terms (Z.to_nat n) in
    Ok (map (λ m, (M !!! m / Z2Qc (factorial m))%Qc)
            (seq 0 (S (Z.to_nat n)))).

End BL.

(** ** JVP.py *)

Module JVP.

(** A polynomial in p: degree to coefficient.  Zero entries may be stored
    (the table entry for x is [({0:0}, {0:1})]). *)
Abbreviation poly := (gmap nat Z).

(** [A.get(d, 0)] *)
Definition coef (A : poly) (d : nat) : Z := default 0 (A !! d).

Definition _poly_add (A B : poly) : poly :=
  filter (λ dc, dc.2 ≠ 0) (union_with (λ a b, Some (a + b)) A B).

Definition _poly_scalar_mul (A : poly) (k : Z) : poly :=
  if decide (k = 0) then ∅ else (λ c, k * c) <$> A.

Definition _poly_mul_p (A : poly) : poly := kmap S A.

Definition _mul_by_x (AB : poly * poly) : poly * poly :=
  let '(A, B) := AB in (B, _poly_add A (_poly_mul_p B)).

Definition _mul_by_y (AB : poly * poly) : poly * poly :=
  let '(A, B) := AB in
  (_poly_add B (_poly_scalar_mul (_poly_mul_p A) (-1)), A).

(** [for _ in range(2, n+1): A, B = step(A, B); T.append((A, B))] *)
Fixpoint table_loop (step : poly * poly → poly * poly) (iters : nat)
    (AB : poly * poly) : list (poly * poly) :=
  match iters with
  | O => []
  | S i => let AB' := step AB in AB' :: table_loop step i AB'
  end.

Definition _power_table_x (n : Z) : list (poly * poly) :=
  if decide (n = 0) then [({[ 0%nat := 1 ]}, ∅)]
  else
    let AB : poly * poly := ({[ 0%nat := 0 ]}, {[ 0%nat := 1 ]}) in
    ({[ 0%nat := 1 ]}, ∅) :: AB :: table_loop _mul_by_x (Z.to_nat (n - 1)) AB.

Definition _power_table_y (n : Z) : list (poly * poly) :=
  if decide (n = 0) then [({[ 0%nat := 1 ]}, ∅)]
  else
    let AB : poly * poly := ({[ 1%nat := -1 ]}, {[ 0%nat := 1 ]}) in
    ({[ 0%nat := 1 ]}, ∅) :: AB :: table_loop _mul_by_y (Z.to_nat (n - 1)) AB.

(** [T[idx]] for a non-negative index. *)
Definition table_get (T : list (poly * poly)) (idx : Z)
  : result (poly * poly) :=
  match T !! Z.to_nat idx with
  | Some AB => Ok AB
  | None => Raise IndexError
  end.

(** One turn of the accumulation loop of [jones_to_Vxp]. *)
Definition accumulate (half : bool) (X Y : list (poly * poly))
    (acc : poly * poly) (kc : Z * Z) : result (poly * poly) :=
  let '(k, c) := kc in
  if decide (c = 0) then Ok acc
  else
    AB ←! (if decide (0 ≤ k)
           then table_get X (if half then k else 2 * k)
           else table_get Y (if half then - k else 2 * (- k))) ;;
    let AB' := if decide (c ≠ 1)
               then (_poly_scalar_mul AB.1 c, _poly_scalar_mul AB.2 c)
               else AB in
    Ok (_poly_add acc.1 AB'.1, _poly_add acc.2 AB'.2).

Fixpoint accumulate_all (half : bool) (X Y : list (poly * poly))
    (acc : poly * poly) (coefs : coef_map) : result (poly * poly) :=
  match coefs with
  | [] => Ok acc
  | kc :: rest =>
      acc' ←! accumulate half X Y acc kc ;;
      accumulate_all half X Y acc' rest
  end.

Definition jones_to_Vxp (coefs : coef_map) (input_q_is_half_power : bool)
  : result (poly * poly) :=
  match coefs with
  | [] => Ok (∅, ∅)
  | _ =>
      let max_pos := py_max_or0 (filter (λ k, 0 ≤ k) coefs.*1) in
      let max_neg :=
        py_max_or0 (Z.opp <$> filter (λ k, k < 0) coefs.*1) in
      let X := _power_table_x
                 (if input_q_is_half_power then max_pos else 2 * max_pos) in
      let Y := _power_table_y
                 (if input_q_is_half_power then max_neg else 2 * max_neg) in
      accumulate_all input_q_is_half_power X Y (∅, ∅) coefs
  end.

End JVP.

(** ** Jm_triviality.py: the index and the two engines *)

(** [max(d)] over the keys of a dictionary. *)
Definition max_key (m : gmap nat Z) : result nat :=
  match elements (dom m) with
  | [] => Raise ValueError
  | d :: ds => Ok (fold_left Nat.max ds d)
  end.

(** [[k for k, i in enumerate(l) if i != 0][0]] *)
Definition first_nonzero `{EqDecision A} (zero : A) (l : list A) : result nat :=
  match list_find (λ i, i ≠ zero) l with
  | Some (k, _) => Ok k
  | None => Raise IndexError
  end.

Definition Jm_jvp (AB : JVP.poly * JVP.poly) : result nat :=
  let '(A, B) := AB in
  mx ←! max_key (B ∪ A) ;;
  let merged := map (λ i, JVP.coef A i + JVP.coef B i) (seq 0 (S mx)) in
  q ←! first_nonzero 0 (drop 1 merged) ;;
  Ok (q + 1)%nat.

Definition Jm_bl (c : list Qc) : result nat :=
  k ←! first_nonzero (Z2Qc 0) (drop 1 c) ;;
  Ok (k + 1)%nat.

Definition Jtransform (rep : string) (coeff : coef_map) : result nat :=
  if decide (rep = "JVP"%string) then
    AB ←! JVP.jones_to_Vxp coeff false ;; Jm_jvp AB
  else if decide (rep = "BL"%string) then
    c ←! BL.taylor_from_jones coeff 11 1 ;; Jm_bl c
  else Raise KeyError.

Definition trefoil : coef_map := [(4, -1); (3, 1); (1, 1)].
Definition mirror (coefs : coef_map) : coef_map :=
  map (λ kc, (- kc.1, kc.2)) coefs.


(** ** Dictionaries that are iterated: insertion-ordered association lists *)

Section dict.
Context {K V : Type} `{EqDecision K}.

Fixpoint dict_get (k : K) (d : list (K * V)) : option V :=
  match d with
  | [] => None
  | (k', v) :: d' => if decide (k = k') then Some v else dict_get k d'
  end.

(** [d[k] = v]: an existing key keeps its place, a new key goes last. *)
Fixpoint dict_set (k : K) (v : V) (d : list (K * V)) : list (K * V) :=
  match d with
  | [] => [(k, v)]
  | (k', v') :: d' =>
      if decide (k = k') then (k, v) :: d' else (k', v') :: dict_set k v d'
  end.
End dict.

(** ** Strings: the label surgery of [process_split_file] *)

Fixpoint contains_char (c : ascii) (s : string) : bool :=
  match s with
  | EmptyString => false
  | String a s' => if decide (a = c) then true else contains_char c s'
  end.

(** [sub in s] *)
Fixpoint contains (sub s : string) : bool :=
  String.prefix sub s ||
  match s with
  | EmptyString => false
  | String _ s' => contains sub s'
  end.

(** [s.split(c)[0]] *)
Fixpoint split_first (c : ascii) (s : string) : string :=
  match s with
  | EmptyString => EmptyString
  | String a s' => if decide (a = c) then EmptyString
                   else String a (split_first c s')
  end.

(** [s.split(c)[-1]] *)
Fixpoint split_last (c : ascii) (s : string) : string :=
  match s with
  | EmptyString => EmptyString
  | String a s' =>
      if contains_char c s' then split_last c s'
      else if decide (a = c) then s' else s
  end.

(** [''.join([c for c in s if c.isdigit()])[:l]]: the first [l] digit
    characters of [s]. *)
Definition numerics (s : string) (l : nat) : string :=
  String.concat ""
    (take l (snd <$> filter (λ c : N * string, py_isdigit c.1 = true)
                            (utf8_chars s))).

(** ** The shard classifier: [process_split_file] *)

Module Classifier.

(** A run [[crossings, first_id, last_id, label]]. *)
Record run : Type := Run {
  run_bucket : string;
  run_first : Z;
  run_last : Z;
  run_label : string
}.

(** A table row [[label, m, histogram]]. *)
Record row : Type := Row {
  row_holder : string;
  row_max : nat;
  row_hist : list (nat * Z)
}.

(** The [knot_data] object of a record, read through
    [knot_data.get] with the key [coeffs] and the default [{}]. *)
Record knot_data : Type := KnotData {
  coeffs : option (list (string * Z))
}.

Record config : Type := Config {
  rep : string;
  sample_interval : Z;
  min_m : nat
}.

Record state : Type := State {
  local_Jm_table : list (string * row);
  local_knot_ids : list (nat * list run);
  count : nat
}.

Definition bucket_labels : list string :=
  ["1"; "2"; "3"; "4"; "5"; "6"; "7"; "8"; "9"; "10"; "11"; "12"; "13";
   "14"; "15"; "16"; "17"; "18"; "19"]%string.

Definition initial : state :=
  {| local_Jm_table := map (λ c, (c, Row EmptyString 2 [])) bucket_labels;
     local_knot_ids := map (λ m, (m, [])) (seq 0 10);
     count := 0 |}.

(** [{int(k): int(v) for k, v in raw.items()}] *)
Fixpoint parse_coefs (raw : list (string * Z)) (acc : coef_map)
  : result coef_map :=
  match raw with
  | [] => Ok acc
  | (k, v) :: raw' =>
      k' ←! py_int k ;; parse_coefs raw' (dict_set k' v acc)
  end.

Definition crossings_of (knot_label : string) : string :=
  if contains_char "_" knot_label && negb (contains "jones" knot_label)
  then split_first "_" knot_label
  else numerics knot_label 2.

Definition knot_id_of (knot_label : string) : result Z :=
  py_int (split_last "n" (split_last "a" (split_last ":"
            (split_last "_" knot_label)))).

(** The run bookkeeping under [if m > min_m]. *)
Definition update_runs (S : Z) (crossings : string) (knot_id : Z)
    (knot_label : string) (runs : list run) : list run :=
  match last runs with
  | None => runs ++ [Run crossings knot_id knot_id knot_label]
  | Some r =>
      if bool_decide (knot_id > run_last r + S)
         || bool_decide (crossings ≠ run_bucket r)
      then runs ++ [Run crossings knot_id knot_id knot_label]
      else if decide (knot_id = run_last r + 1)
      then removelast runs ++
             [Run (run_bucket r) (run_first r) (run_last r + 1) (run_label r)]
      else runs
  end.

(** The body of the inner [try].  A statement that raises leaves the
    mutations made before it in place; the [except] turns every exception
    into [continue]. *)
Definition classify (cfg : config) (knot_label crossings : string)
    (knot_id : Z) (coefs : coef_map) (st : state) : state :=
  match Jtransform (rep cfg) coefs with
  | Raise _ => st
  | Ok m =>
    match dict_get crossings (local_Jm_table st) with
    | None => st
    | Some r =>
      let r1 := Row (row_holder r) (row_max r)
                    (dict_set m (default 0 (dict_get m (row_hist r)) + 1)
                              (row_hist r)) in
      let st1 := State (dict_set crossings r1 (local_Jm_table st))
                       (local_knot_ids st) (count st) in
      let promote (s : state) : state :=
        if decide (row_max r1 < m)%nat
        then State (dict_set crossings (Row knot_label m (row_hist r1))
                             (local_Jm_table s))
                   (local_knot_ids s) (count s)
        else s in
      if decide (min_m cfg < m)%nat then
        match dict_get m (local_knot_ids st1) with
        | None => st1
        | Some runs =>
            promote (State (local_Jm_table st1)
                       (dict_set m (update_runs (sample_interval cfg)
                                      crossings knot_id knot_label runs)
                                 (local_knot_ids st1))
                       (count st1))
        end
      else promote st1
    end
  end.

(** One turn of the [for] loop.  [inl] is the next loop state, [inr] the
    state at an exception that the outer [try] catches, which ends the
    loop. *)
Definition process_record (cfg : config) (st : state)
    (rec : string * knot_data) : state + state :=
  let '(knot_label, data) := rec in
  let st := State (local_Jm_table st) (local_knot_ids st) (S (count st)) in
  if decide (knot_label = "0_1"%string) then inl st
  else
    match parse_coefs (default [] (coeffs data)) [] with
    | Raise _ => inr st
    | Ok [] => inl st
    | Ok coefs =>
        match knot_id_of knot_label with
        | Raise _ => inr st
        | Ok knot_id =>
            inl (classify cfg knot_label (crossings_of knot_label)
                          knot_id coefs st)
        end
    end.

Fixpoint process_records (cfg : config) (st : state)
    (recs : list (string * knot_data)) : state :=
  match recs with
  | [] => st
  | rec :: recs' =>
      match process_record cfg st rec with
      | inl st' => process_records cfg st' recs'
      | inr st' => st'
      end
  end.

Definition process_split_file (cfg : config)
    (recs : list (string * knot_data))
  : list (string * row) * list (nat * list run) :=
  let st := process_records cfg initial recs in
  (local_Jm_table st, local_knot_ids st).

End Classifier.

(** ** The aggregator: [merge_results] and the probability table of [main] *)

Module Aggregator.
Import Classifier.

Definition merged_initial : list (string * row) :=
  map (λ c, (c, Row EmptyString 2 (map (λ m, (m, 0)) (seq 2 9))))
      bucket_labels.

(** [d[k] += v] on a plain dictionary. *)
Definition dict_add (m : nat) (v : Z) (h : list (nat * Z))
  : result (list (nat * Z)) :=
  match dict_get m h with
  | None => Raise KeyError
  | Some v0 => Ok (dict_set m (v0 + v) h)
  end.

Fixpoint add_hist (src h : list (nat * Z)) : result (list (nat * Z)) :=
  match src with
  | [] => Ok h
  | (m, v) :: src' => h' ←! dict_add m v h ;; add_hist src' h'
  end.

Definition merge_row (merged : list (string * row))
    (cd : string * row) : result (list (string * row)) :=
  let '(crossings, data) := cd in
  match dict_get crossings merged with
  | None => Raise KeyError
  | Some r =>
      h ←! add_hist (row_hist data) (row_hist r) ;;
      Ok (dict_set crossings
            (if decide (row_max r < row_max data)%nat
             then Row (row_holder data) (row_max data) h
             else Row (row_holder r) (row_max r) h)
            merged)
  end.

Fixpoint merge_table (merged : list (string * row))
    (Jm_table : list (string * row)) : result (list (string * row)) :=
  match Jm_table with
  | [] => Ok merged
  | cd :: rest => merged' ←! merge_row merged cd ;; merge_table merged' rest
  end.

(** [merged_knot_ids[m] = merged_knot_ids[m] + knots] on a
    [defaultdict(list)]. *)
Fixpoint merge_ids (merged : list (nat * list run))
    (knot_ids : list (nat * list run)) : list (nat * list run) :=
  match knot_ids with
  | [] => merged
  | (m, knots) :: rest =>
      merge_ids (dict_set m (default [] (dict_get m merged) ++ knots) merged)
                rest
  end.

Fixpoint merge_loop (acc : list (string * row) * list (nat * list run))
    (results : list (list (string * row) * list (nat * list run)))
  : result (list (string * row) * list (nat * list run)) :=
  match results with
  | [] => Ok acc
  | (Jm_table, knot_ids) :: rest =>
      t ←! merge_table acc.1 Jm_table ;;
      merge_loop (t, merge_ids acc.2 knot_ids) rest
  end.

Definition merge_results
    (results : list (list (string * row) * list (nat * list run)))
  : result (list (string * row) * list (nat * list run)) :=
  merge_loop (merged_initial, []) results.

(** [[p/n_knots for i, p in d[2].items() if i <= d[1]]] *)
Definition probs_of (d : row) (n_knots : Z) : result (list spec_float) :=
  rmap (λ ip, int_truediv ip.2 n_knots)
       (filter (λ ip, (ip.1 ≤ row_max d)%nat) (row_hist d)).

Definition n_knots_of (d : row) : Z :=
  fold_right Z.add 0 (row_hist d).*2.

(** The loop of [main] that fills [data], the content of the probability
    file; an exception in it is not caught. *)
Fixpoint probability_table (Jm_table : list (string * row))
    (data : list (string * list spec_float))
  : result (list (string * list spec_float)) :=
  match Jm_table with
  | [] => Ok data
  | (c, d) :: rest =>
      if decide (row_holder d = EmptyString) then probability_table rest data
      else if decide (n_knots_of d > 0)
      then probs ←! probs_of d (n_knots_of d) ;;
           probability_table rest (dict_set c probs data)
      else probability_table rest data
  end.

End Aggregator.

(** ** The shard splitter: [ultra_fast_split] *)

Module Splitter.

(** File contents are byte strings. *)
Abbreviation bytes := (list ascii).

Definition dq : ascii := "034"%char.
Definition nl : ascii := "010"%char.
Definition B (s : string) : bytes := list_ascii_of_string s.
(** A JSON string token. *)
Definition quoted (s : string) : bytes := dq :: B s ++ [dq].

Definition is_alpha (b : ascii) : bool :=
  let n := nat_of_ascii b in
  ((65 <=? n) && (n <=? 90) || (97 <=? n) && (n <=? 122))%nat.

Definition is_space (b : ascii) : bool :=
  let n := nat_of_ascii b in
  ((9 <=? n) && (n <=? 13) || (n =? 32))%nat.

Fixpoint starts_with (sub l : bytes) : bool :=
  match sub, l with
  | [], _ => true
  | _ :: _, [] => false
  | a :: sub', b :: l' => bool_decide (a = b) && starts_with sub' l'
  end.

Fixpoint find_from (sub l : bytes) (i : nat) : Z :=
  if starts_with sub l then Z.of_nat i
  else match l with
       | [] => -1
       | _ :: l' => find_from sub l' (S i)
       end.

(** [l.find(sub, start)]; a negative [start] counts from the end. *)
Definition py_find (sub l : bytes) (start : Z) : Z :=
  let start := if decide (start < 0)
               then Z.max 0 (start + Z.of_nat (length l)) else start in
  if decide (Z.of_nat (length l) < start) then -1
  else find_from sub (drop (Z.to_nat start) l) (Z.to_nat start).

Fixpoint rfind_from (sub l : bytes) (i : nat) (best : Z) : Z :=
  let best := if starts_with sub l then Z.of_nat i else best in
  match l with
  | [] => best
  | _ :: l' => rfind_from sub l' (S i) best
  end.

(** [l.rfind(sub)] *)
Definition py_rfind (sub l : bytes) : Z := rfind_from sub l 0 (-1).

Fixpoint lstrip (l : bytes) : bytes :=
  match l with
  | [] => []
  | b :: l' => if is_space b then lstrip l' else l
  end.

Definition rstrip (l : bytes) : bytes := rev (lstrip (rev l)).

Definition ends_with (sub l : bytes) : bool := starts_with (rev sub) (rev l).

(** What a call of [find_record_boundary_forward] does: it returns a
    position, returns [None], raises, or never returns. *)
Inductive scan : Type :=
  | Found (pos : nat)
  | NotFound
  | Hang
  | Fault (e : exn).

(** The inner [while] that looks for a quote byte: [seek(-2, 1)] then
    [read(1)], from the position [j] just before the byte last read. *)
Fixpoint back_to_quote (file : bytes) (j : nat) : scan :=
  match j with
  | O => Fault OSError
  | S j' =>
      match file !! j' with
      | Some b => if decide (b = dq) then Found j
                  else back_to_quote file j'
      | None => back_to_quote file j'
      end
  end.

(** The outer [while f.tell() - start_pos < max_search].  At the end of
    the file [read(1)] returns [b''] and the position stays, so the loop
    condition never changes. *)
Fixpoint scan_forward (file : bytes) (pos budget : nat) : scan :=
  match budget with
  | O => NotFound
  | S budget' =>
      match file !! pos with
      | None => Hang
      | Some b =>
          if is_alpha b || bool_decide (b = "_"%char)
          then back_to_quote file pos
          else scan_forward file (S pos) budget'
      end
  end.

Definition find_record_boundary_forward (file : bytes) (pos : Z)
    (max_search : nat) : scan :=
  if decide (pos < 0) then Fault OSError
  else scan_forward file (Z.to_nat pos) max_search.

(** The outcome of the whole function. *)
Inductive outcome (A : Type) : Type :=
  | Returns (a : A)
  | Raises (e : exn)
  | Diverges.
Arguments Returns {A} a.
Arguments Raises {A} e.
Arguments Diverges {A}.

(** The header and footer scans: [(data_start, data_end)]. *)
Definition data_bounds (file : bytes) : result (Z * Z) :=
  let file_size := Z.of_nat (length file) in
  let header := take (Z.to_nat 10000) file in
  let data_start := py_find (quoted "data") header 0 in
  let data_start := py_find (B ": {") header data_start + 3 in
  if decide (file_size < 10000) then Raise OSError
  else
    let footer := drop (length file - Z.to_nat 10000) file in
    Ok (data_start,
        file_size - Z.of_nat (length footer) + py_rfind (B "}") footer).

(** The boundary of split [i], with the retry and the fallback. *)
Definition split_point (file : bytes) (target_pos : Z) : outcome Z :=
  match find_record_boundary_forward file target_pos (Z.to_nat 100000) with
  | Found b => Returns (Z.of_nat b)
  | Hang => Diverges
  | Fault e => Raises e
  | NotFound =>
      match find_record_boundary_forward file target_pos (Z.to_nat 500000) with
      | Found b => Returns (Z.of_nat b)
      | Hang => Diverges
      | Fault e => Raises e
      | NotFound => Returns target_pos
      end
  end.

Fixpoint split_points_loop (file : bytes) (data_start chunk_size : Z)
    (ixs : list Z) : outcome (list Z) :=
  match ixs with
  | [] => Returns []
  | i :: ixs' =>
      match split_point file (data_start + i * chunk_size) with
      | Returns b =>
          match split_points_loop file data_start chunk_size ixs' with
          | Returns bs => Returns (b :: bs)
          | r => r
          end
      | Raises e => Raises e
      | Diverges => Diverges
      end
  end.

(** [f.seek(start); f.read(n)] *)
Definition read_at (file : bytes) (start n : Z) : result bytes :=
  if decide (start < 0) then Raise OSError
  else if decide (n < -1) then Raise ValueError
  else if decide (n = -1) then Ok (drop (Z.to_nat start) file)
  else Ok (take (Z.to_nat n) (drop (Z.to_nat start) file)).

(** The clean-up of a chunk. *)
Definition clean (chunk_data : bytes) : bytes :=
  let c := lstrip chunk_data in
  let c := if starts_with (B ",") c then lstrip (drop 1 c) else c in
  let c := rstrip c in
  if ends_with (B ",") c then rstrip (take (length c - 1) c) else c.

(** The content of split file [i]. *)
Definition split_file (file : bytes) (split_points : list Z) (i : nat)
  : result bytes :=
  let start := split_points !!! i - (if decide (0 < i)%nat then 1 else 0) in
  let end_ := split_points !!! S i - 1 in
  chunk_data ←! read_at file start (end_ - start) ;;
  Ok (B "{" ++ quoted "data" ++ B ":{" ++ clean chunk_data
        ++ (if decide (i < length split_points - 2)%nat then B "}" else [])
        ++ B "}").

Fixpoint split_files (file : bytes) (split_points : list Z) (ixs : list nat)
  : result (list bytes) :=
  match ixs with
  | [] => Ok []
  | i :: ixs' =>
      s ←! split_file file split_points i ;;
      ss ←! split_files file split_points ixs' ;;
      Ok (s :: ss)
  end.

(** The contents of the split files, in order. *)
Definition ultra_fast_split (file : bytes) (n_splits : Z)
  : outcome (list bytes) :=
  match data_bounds file with
  | Raise e => Raises e
  | Ok (data_start, data_end) =>
      if decide (n_splits = 0) then Raises ZeroDivisionError
      else
        let chunk_size := (data_end - data_start) `div` n_splits in
        match split_points_loop file data_start chunk_size
                (Z.of_nat <$> seq 1 (Z.to_nat n_splits - 1)) with
        | Raises e => Raises e
        | Diverges => Diverges
        | Returns bs =>
            let split_points := data_start :: bs ++ [data_end] in
            match split_files file split_points
                    (seq 0 (length split_points - 1)) with
            | Ok ss => Returns ss
            | Raise e => Raises e
            end
        end
  end.

(** *** A corpus as the scraper writes it *)

(** The line of a record: the label, then the [coeffs] object as
    [json.dumps] prints it, then a comma. *)
Definition record_line (label : string) (entries : list (Z * Z)) : bytes :=
  B "  " ++ quoted label ++ B ": {" ++ quoted "coeffs" ++ B ": {"
    ++ concat (imap (λ i ec, (if decide (i = 0)%nat then [] else B ", ")
                             ++ quoted (pretty ec.1) ++ B ": "
                             ++ B (pretty ec.2)) entries)
    ++ B "}},".

(** The whole file: the header, one line per record, the last comma
    dropped, the two closing lines. *)
Definition corpus (records : list (string * list (Z * Z))) : bytes :=
  let lines := concat ((λ r, record_line r.1 r.2 ++ [nl]) <$> records) in
  B "{" ++ [nl] ++ B "  " ++ quoted "meta" ++ B ": {}," ++ [nl]
    ++ B "  " ++ quoted "data" ++ B ": {" ++ [nl]
    ++ take (length lines - 2) lines ++ [nl]
    ++ B "  }" ++ [nl] ++ B "}" ++ [nl].

(** [n] records labelled [12a_1], [12a_2], ..., all with the same
    coefficients. *)
Definition sample_records (n : nat) (entries : list (Z * Z))
  : list (string * list (Z * Z)) :=
  (λ i : nat, (String.append "12a_" (pretty i), entries)) <$> seq 1 n.

(** How many more opening than closing braces a byte string has. *)
Fixpoint brace_depth (l : bytes) : Z :=
  match l with
  | [] => 0
  | b :: l' =>
      (if decide (b = "{"%char) then 1
       else if decide (b = "}"%char) then -1 else 0) + brace_depth l'
  end.

End Splitter.

(** ** Specification-level notions used by the proofs *)

(** Finite sums [f 0 + ... + f (n-1)] and sums over a coefficient map. *)
Fixpoint bsum (f : nat → Z) (n : nat) : Z :=
  match n with
  | O => 0
  | S n' => bsum f n' + f n'
  end.

Fixpoint csum (f : Z * Z → Z) (coefs : coef_map) : Z :=
  match coefs with
  | [] => 0
  | kc :: rest => f kc + csum f rest
  end.

(** The power sum [sum_k c_k k^m] of a coefficient map. *)
Definition moment (coefs : coef_map) (m : nat) : Z :=
  csum (λ kc, kc.2 * kc.1 ^ Z.of_nat m) coefs.

(** The power sum of the [(r, c)] terms of [taylor_from_jones]. *)
Fixpoint qsum (terms : list (Qc * Z)) (m : nat) : Qc :=
  match terms with
  | [] => Z2Qc 0
  | t :: rest => (Z2Qc t.2 * t.1 ^ m + qsum rest m)%Qc
  end.

(** The power sum [sum_k c_k (k / den)^m] in exact fractions. *)
Fixpoint qmoment (coefs : coef_map) (den : Z) (m : nat) : Qc :=
  match coefs with
  | [] => Z2Qc 0
  | kc :: rest =>
      (Z2Qc kc.2 * Q2Qc (inject_Z kc.1 / inject_Z den) ^ m
       + qmoment rest den m)%Qc
  end.

Module Ring.
Import JVP.

(** The table entries by their index: [xpow j] is x^j and [ypow j] is
    (x - p)^j as pairs [(A, B)]. *)
Fixpoint xpow (j : nat) : poly * poly :=
  match j with
  | O => ({[ 0%nat := 1 ]}, ∅)
  | S j' =>
      match j' with
      | O => ({[ 0%nat := 0 ]}, {[ 0%nat := 1 ]})
      | S _ => _mul_by_x (xpow j')
      end
  end.

Fixpoint ypow (j : nat) : poly * poly :=
  match j with
  | O => ({[ 0%nat := 1 ]}, ∅)
  | S j' =>
      match j' with
      | O => ({[ 1%nat := -1 ]}, {[ 0%nat := 1 ]})
      | S _ => _mul_by_y (ypow j')
      end
  end.

(** The pair that [accumulate] looks up for the exponent [k]. *)
Definition term_pair (half : bool) (k : Z) : poly * poly :=
  if decide (0 ≤ k)
  then xpow (Z.to_nat (if half then k else 2 * k))
  else ypow (Z.to_nat (if half then - k else 2 * (- k))).

(** The accumulation loop of [jones_to_Vxp] with the table lookups
    replaced by the entries they return. *)
Definition accumulate_spec_step (half : bool) (acc : poly * poly)
    (kc : Z * Z) : poly * poly :=
  if decide (kc.2 = 0) then acc
  else
    let AB := term_pair half kc.1 in
    let AB' := if decide (kc.2 ≠ 1)
               then (_poly_scalar_mul AB.1 kc.2, _poly_scalar_mul AB.2 kc.2)
               else AB in
    (_poly_add acc.1 AB'.1, _poly_add acc.2 AB'.2).

Definition accumulate_spec (half : bool) (acc : poly * poly)
    (coefs : coef_map) : poly * poly :=
  fold_left (accumulate_spec_step half) coefs acc.

(** [A] has nonzero coefficients only at the degrees of evenness [e]. *)
Definition supp_par (e : bool) (A : poly) : Prop :=
  ∀ d, Nat.even d ≠ e → coef A d = 0.

(** [AB] is a pair whose first part has the degrees of evenness [e] and
    whose second part has the others. *)
Definition pair_par (e : bool) (AB : poly * poly) : Prop :=
  supp_par e AB.1 ∧ supp_par (negb e) AB.2.

(** A polynomial without stored zeros is determined by its
    coefficients. *)
Definition no_zeros (A : poly) : Prop := ∀ d, A !! d ≠ Some 0.

(** The coefficient [A.get(d, 0) + B.get(d, 0)] that [Jm_jvp] scans. *)
Definition merged (AB : poly * poly) (d : nat) : Z :=
  coef AB.1 d + coef AB.2 d.

Definition sgn (d : nat) : Z := if Nat.even d then 1 else -1.

(** [Q] is [P] with p replaced by -p and x by x - p, coefficient by
    coefficient. *)
Definition mir (P Q : poly * poly) : Prop :=
  ∀ d, coef Q.1 d = sgn d * (coef P.1 d + coef P.2 (pred d) * (if d is O then 0 else 1))
       ∧ coef Q.2 d = sgn d * coef P.2 d.

End Ring.

(** Power sums in the variable t, where x = exp t: sequences of integers
    [s 0, s 1, ...] of which the first twelve entries are used. *)
Module Moments.
Import JVP.

Definition N : nat := 12.

Fixpoint binom (n k : nat) : Z :=
  match n, k with
  | _, O => 1
  | O, S _ => 0
  | S n', S k' => binom n' k' + binom n' k
  end.

(** Multiplication by x and by x^-1 on power sums. *)
Definition Sx (s : nat → Z) (m : nat) : Z :=
  bsum (λ i, binom m i * s i) (S m).

Definition Sy (s : nat → Z) (m : nat) : Z :=
  bsum (λ i, binom m i * (-1) ^ Z.of_nat (m - i) * s i) (S m).

Definition tab (s : nat → Z) : list Z := map s (seq 0 N).
Definition untab (l : list Z) (m : nat) : Z := nth m l 0.

(** The power sums of p^d, p = x - x^-1, as a table. *)
Fixpoint piT (d : nat) : list Z :=
  match d with
  | O => tab (λ m, if m is O then 1 else 0)
  | S d' => let r := piT d' in
            tab (λ m, Sx (untab r) m - Sy (untab r) m)
  end.

Definition pi_table : list (list Z) :=
  Eval vm_compute in map piT (seq 0 (S N)).
Definition pi (d m : nat) : Z := untab (nth d pi_table []) m.

(** The power sums of p^d x. *)
Definition xi_table : list (list Z) :=
  Eval vm_compute in map (λ r, tab (Sx (untab r))) pi_table.
Definition xi (d m : nat) : Z := untab (nth d xi_table []) m.

(** The power sums of A(p) + B(p) x. *)
Definition ev (AB : poly * poly) (m : nat) : Z :=
  bsum (λ d, coef AB.1 d * pi d m + coef AB.2 d * xi d m) N.

(** The closed facts about the tables, as one boolean check. *)
Definition below (P : nat → bool) : bool := forallb P (seq 0 N).

Definition tables_ok : bool :=
  below (λ d, below (λ m,
    (* p^d and p^d x vanish below order d and agree, nonzero, at order d *)
    (if (m <? d)%nat then (pi d m =? 0) && (xi d m =? 0) else true)
    && (pi d d =? xi d d) && negb (pi d d =? 0)
    (* x (p^d x) = p^(d+1) x + p^d *)
    && (Sx (xi d) m =? xi (S d) m + pi d m)
    (* x^-1 p^d = p^d x - p^(d+1) and x^-1 (p^d x) = p^d *)
    && (Sy (pi d) m =? xi d m - pi (S d) m)
    && (Sy (xi d) m =? pi d m)
    && (Sx (pi d) m =? xi d m)
    (* p^12 is beyond the orders in use *)
    && (pi N m =? 0) && (xi N m =? 0)
    && (if m is O then true else pi 0 m =? 0)
    (* x and x^-1 themselves *)
    && (xi 0 m =? 1) && (xi 0 m - pi 1 m =? (-1) ^ Z.of_nat m)))
  && (pi 0 0 =? 1).

End Moments.
(** ** The command line of [main] *)

Module Driver.

(** Strings of ASCII digits. *)
Fixpoint all_digits (s : string) : bool :=
  match s with
  | EmptyString => true
  | String a s' => is_digit a && all_digits s'
  end.

(** [s.isdecimal()]: the string is not empty and all its characters are
    decimal digits. *)
Definition isdecimal (s : string) : bool :=
  match utf8_decode s with
  | [] => false
  | cps => forallb py_isdecimal cps
  end.

(** One turn of the loop over [options]: the value after the first
    occurrence of the option in [sys.argv], converted, when the check of
    the option accepts it; the default when the option is not there
    ([ValueError] of [index]), is the last argument ([IndexError]), is
    refused, or does not convert. *)
Definition option_value {A} (argv : list string) (option : string)
    (dflt : A) (convert : string → result A) (accepts : string → bool) : A :=
  if decide (2 < length argv)%nat then
    match list_find (λ a, a = option) argv with
    | None => dflt
    | Some (i, _) =>
        match argv !! S i with
        | None => dflt
        | Some v =>
            if accepts v
            then match convert v with Ok x => x | Raise _ => dflt end
            else dflt
        end
    end
  else dflt.

(** [rep = options['--R'][0]] *)
Definition rep_of (argv : list string) : string :=
  option_value argv "--R" "JVP"%string Ok
    (λ s, bool_decide (s ∈ ["Birman-Lin"; "JVP"]%string)).

(** [sample_interval = options['--S'][0]] *)
Definition sample_interval_of (argv : list string) : Z :=
  option_value argv "--S" 1 py_int isdecimal.

(** [knot_id_file = options['--K'][0]] *)
Definition knot_id_file_of (argv : list string) : string :=
  option_value argv "--K" "knot_ids.json"%string Ok (λ _, true).

(** The configuration of the workers; [min_m] is the module constant. *)
Definition config_of (argv : list string) : Classifier.config :=
  Classifier.Config (rep_of argv) (sample_interval_of argv) 1.

End Driver.

(** ** Sample inputs *)

(** The trefoil as the [coeffs] object of a corpus record, and the driver's
    default configurations. *)
Definition raw_trefoil : list (string * Z) :=
  [("4", -1); ("3", 1); ("1", 1)]%string.

Definition jvp_config (sample_interval : Z) : Classifier.config :=
  Classifier.Config "JVP" sample_interval 1.

Definition trefoil_record (knot_label : string)
  : string * Classifier.knot_data :=
  (knot_label, Classifier.KnotData (Some raw_trefoil)).

(** A map whose first two power sums vanish and whose third does not. *)
Definition raw_jm3 : list (string * Z) :=
  [("1", -2); ("-1", 2); ("2", 1); ("-2", -1)]%string.

(** The rows of the merged table keep the keys 2, ..., 10 of their
    histograms, in this order. *)
Definition hist_keys_ok (cr : string * Classifier.row) : Prop :=
  (Classifier.row_hist cr.2).*1 = seq 2 9.

(** Tables whose counts are not negative, as those of the workers are. *)
Definition hist_nonneg (hist : list (nat * Z)) : Prop :=
  Forall (λ mv : nat * Z, 0 ≤ mv.2) hist.

Definition counts_nonneg (t : list (string * Classifier.row)) : Prop :=
  Forall (λ cr : string * Classifier.row,
            hist_nonneg (Classifier.row_hist cr.2)) t.

(** The alternating binomial coefficients of (1 - q)^10: the power sums
    of the orders below 10 vanish. *)
Definition raw_jm10 : list (string * Z) :=
  [("0", 1); ("1", -10); ("2", 45); ("3", -120); ("4", 210); ("5", -252);
   ("6", 210); ("7", -120); ("8", 45); ("9", -10); ("10", 1)]%string.

(** Every run has its bounds in order. *)
Definition runs_ordered (ids : list (nat * list Classifier.run)) : Prop :=
  Forall (λ mr, Forall (λ r, Classifier.run_first r ≤ Classifier.run_last r)
                       mr.2) ids.

(** A worker result that [merge_results] can add: its buckets are rows of
    the merged table and the keys of its histograms are among 2, ..., 10. *)
Definition mergeable
    (res : list (string * Classifier.row)
           * list (nat * list Classifier.run)) : Prop :=
  Forall (λ cr : string * Classifier.row,
            cr.1 ∈ Classifier.bucket_labels
            ∧ Forall (λ mv : nat * Z, (2 ≤ mv.1 ≤ 10)%nat)
                     (Classifier.row_hist cr.2)) res.1.

(** The count of the index [m] in a histogram and in the bucket [c] of a
    table, by summation over the entries. *)
Definition hist_sum (m : nat) (hist : list (nat * Z)) : Z :=
  foldr (λ mv acc, (if decide (mv.1 = m) then mv.2 else 0) + acc) 0 hist.

Definition table_sum (c : string) (m : nat)
    (t : list (string * Classifier.row)) : Z :=
  foldr (λ cr acc, (if decide (cr.1 = c)
                    then hist_sum m (Classifier.row_hist cr.2) else 0) + acc)
        0 t.

(** The count under [c] and [m] in a table read as a dictionary. *)
Definition table_count (c : string) (m : nat)
    (t : list (string * Classifier.row)) : Z :=
  default 0 (r ← dict_get c t; dict_get m (Classifier.row_hist r)).

(** The runs under the key [m] of a run table, by concatenation. *)
Definition runs_of (m : nat) (ids : list (nat * list Classifier.run))
  : list Classifier.run :=
  concat (map (λ mr, if decide (mr.1 = m) then mr.2 else []) ids).

(** What the clean-up of a chunk takes off at one end: whitespace, with
    at most one comma in it. *)
Definition padding (l : Splitter.bytes) : Prop :=
  Forall (λ b, Splitter.is_space b = true ∨ b = ","%char) l
  ∧ (length (filter (λ b, b = ","%char) l) ≤ 1)%nat.

(** [body] is [chunk] without its padding at both ends, all of it: the
    body neither starts nor ends with whitespace, and it starts or ends
    with a comma only when a comma was taken off at that end. *)
Definition cleaned (chunk body : Splitter.bytes) : Prop :=
  ∃ pre post,
    chunk = pre ++ body ++ post ∧ padding pre ∧ padding post
    ∧ (∀ b, head body = Some b →
            Splitter.is_space b = false ∧ (b = ","%char → ","%char ∈ pre))
    ∧ (∀ b, last body = Some b →
            Splitter.is_space b = false ∧ (b = ","%char → ","%char ∈ post)).

(** The exponent that the key of a term stands for, when it has one: a
    [Fraction] key is the exponent whatever the denominator; an [int]
    key, or a [str] key that [int] reads, is divided by the denominator,
    which must not be zero. *)
Inductive exponent_of (den : Z) : BL.CoefKey → Qc → Prop :=
  | exponent_of_fraction (r : Qc) : exponent_of den (BL.KFraction r) r
  | exponent_of_int (k : Z) :
      den ≠ 0 →
      exponent_of den (BL.KInt k) (Q2Qc (inject_Z k / inject_Z den))
  | exponent_of_str (s : string) (k : Z) :
      den ≠ 0 → py_int s = Ok k →
      exponent_of den (BL.KStr s) (Q2Qc (inject_Z k / inject_Z den)).

(** The exception of a key that has no exponent. *)
Inductive key_error (den : Z) : BL.CoefKey → exn → Prop :=
  | key_error_int (k : Z) :
      den = 0 → key_error den (BL.KInt k) ZeroDivisionError
  | key_error_str_den (s : string) (k : Z) :
      den = 0 → py_int s = Ok k →
      key_error den (BL.KStr s) ZeroDivisionError
  | key_error_str (s : string) (e : exn) :
      py_int s = Raise e → key_error den (BL.KStr s) e.

(** The bytes at which the forward scan of the boundary finder stops. *)
Definition stops (b : ascii) : bool :=
  Splitter.is_alpha b || bool_decide (b = "_"%char).

(** ** Values of the polynomials *)

(** [_to_lists(A, B)] of JVP.py: the dense coefficient lists, both of the
    length of the larger degree plus one. *)
Definition _to_lists (A B : JVP.poly) : list Z * list Z :=
  let deg (P : JVP.poly) :=
    match max_key P with Ok d => d | Raise _ => 0%nat end in
  let n := Nat.max (deg A) (deg B) in
  let fill (P : JVP.poly) :=
    map_fold (λ d c a, <[d := c]> a) (replicate (S n) 0) P in
  (fill A, fill B).

(** The value of a polynomial in p. *)
Definition peval (A : JVP.poly) (p : Qc) : Qc :=
  map_fold (λ d c acc, (Z2Qc c * p ^ d + acc)%Qc) 0%Qc A.

(** The value of V = sum_k c_k q^k where x stands for q^(1/2) and y for
    q^(-1/2); with [half] the exponents count powers of q^(1/2). *)
Definition laurent_term (half : bool) (x y : Qc) (k : Z) : Qc :=
  if decide (0 ≤ k)
  then (x ^ Z.to_nat (if half then k else 2 * k))%Qc
  else (y ^ Z.to_nat (if half then - k else 2 * - k))%Qc.

Definition laurent (coefs : coef_map) (half : bool) (x y : Qc) : Qc :=
  foldr (λ kc acc, (Z2Qc kc.2 * laurent_term half x y kc.1 + acc)%Qc)
        0%Qc coefs.

(** The value of a pair [A + B x] at p = x - y. *)
Definition pair_value (x y : Qc) (AB : JVP.poly * JVP.poly) : Qc :=
  (peval AB.1 (x - y) + peval AB.2 (x - y) * x)%Qc.

Fixpoint qbsum (f : nat → Qc) (n : nat) : Qc :=
  match n with
  | O => 0%Qc
  | S n' => (qbsum f n' + f n')%Qc
  end.

(** ** [find_record_boundary_backward] *)

(** The loop over [i] from the end of the chunk down to 0; the argument
    is [i + 1].  A closing brace counts when a byte follows it in the
    chunk and that byte is a comma, a quote or a closing brace; the value
    is the offset in the chunk just after the brace, or after its
    comma. *)
Fixpoint back_scan (chunk : Splitter.bytes) (n : nat) : option nat :=
  match n with
  | O => None
  | S i =>
      match chunk !! i, chunk !! S i with
      | Some c, Some next_char =>
          if decide (c = "}"%char) then
            if decide (next_char = ","%char) then Some (i + 2)%nat
            else if decide (next_char = Splitter.dq ∨ next_char = "}"%char)
                 then Some (i + 1)%nat
                 else back_scan chunk i
          else back_scan chunk i
      | _, _ => back_scan chunk i
      end
  end.

(** From the position [start_pos] back over at most [max_search] bytes. *)
Definition find_record_boundary_backward (file : Splitter.bytes)
    (start_pos max_search : nat) : option nat :=
  let search_start := (start_pos - max_search)%nat in
  let chunk := take (start_pos - search_start) (drop search_start file) in
  match back_scan chunk (length chunk) with
  | Some off =>
      if decide (0 < search_start + off)%nat
      then Some (search_start + off)%nat else None
  | None => None
  end.

(** * Properties *)

(** ** Results *)

Lemma rbind_Ok {A B} (r : result A) (k : A → result B) (b : B) :
  rbind r k = Ok b ↔ ∃ a, r = Ok a ∧ k a = Ok b.
Proof.
  destruct r as [a|e]; simpl; split.
  - eauto.
  - by intros (a' & [= <-] & ?).
  - done.
  - by intros (a' & ? & ?).
Qed.

(** ** Exact fractions *)

Lemma Z2Qc_add a b : Z2Qc (a + b) = (Z2Qc a + Z2Qc b)%Qc.
Proof.
  apply Qc_is_canon. unfold Z2Qc. simpl.
  rewrite !Qred_correct, inject_Z_plus. reflexivity.
Qed.

Lemma Z2Qc_mul a b : Z2Qc (a * b) = (Z2Qc a * Z2Qc b)%Qc.
Proof.
  apply Qc_is_canon. unfold Z2Qc. simpl.
  rewrite !Qred_correct, inject_Z_mult. reflexivity.
Qed.

Lemma Z2Qc_inj a b : Z2Qc a = Z2Qc b → a = b.
Proof.
  unfold Z2Qc. intros H%Q2Qc_eq_iff. by apply inject_Z_injective.
Qed.

Lemma Z2Qc_eq0 a : Z2Qc a = Z2Qc 0 ↔ a = 0.
Proof. split; [apply Z2Qc_inj | by intros ->]. Qed.

Lemma Z2Qc_pow a (m : nat) : Z2Qc (a ^ Z.of_nat m) = (Z2Qc a ^ m)%Qc.
Proof.
  induction m as [|m IH].
  - apply Qc_is_canon. reflexivity.
  - rewrite Nat2Z.inj_succ, Z.pow_succ_r by lia.
    by rewrite Z2Qc_mul, IH.
Qed.

Lemma Z2Qc_0 : Z2Qc 0 = 0%Qc.
Proof. by apply Qc_is_canon. Qed.

Lemma Z2Qc_1 : Z2Qc 1 = 1%Qc.
Proof. by apply Qc_is_canon. Qed.

Lemma factorial_pos m : 0 < factorial m.
Proof. induction m; simpl factorial; lia. Qed.

Lemma Z2Qc_factorial_nz m : Z2Qc (factorial m) ≠ 0%Qc.
Proof.
  rewrite <- Z2Qc_0. intros H%Z2Qc_inj. pose proof (factorial_pos m). lia.
Qed.

Lemma Qcdiv_eq0 (x y : Qc) : y ≠ 0%Qc → (x / y)%Qc = 0%Qc ↔ x = 0%Qc.
Proof.
  intros Hy. split.
  - intros H. rewrite <- (Qcmult_div_r x y Hy), H. ring.
  - intros ->. unfold Qcdiv. ring.
Qed.

Lemma Qcpower_opp (r : Qc) (m : nat) :
  ((- r) ^ m)%Qc = ((- (1)) ^ m * r ^ m)%Qc.
Proof. induction m as [|m IH]; simpl; [ring | rewrite IH; ring]. Qed.

Lemma Qcpower_m1_nz (m : nat) : ((- (1)) ^ m)%Qc ≠ 0%Qc.
Proof.
  induction m as [|m IH]; simpl.
  - apply Q_apart_0_1.
  - intros [H|H]%Qcmult_integral; [| done].
    apply (f_equal Qcopp) in H. rewrite Qcopp_involutive in H.
    by apply Q_apart_0_1.
Qed.

(** ** BLexpansion.py: the closed form of the Taylor coefficients *)

Lemma add_powers_length c r rp M : length (BL.add_powers c r rp M) = length M.
Proof. revert rp. induction M; intros; simpl; [done | by rewrite IHM]. Qed.

Lemma add_powers_lookup c r M : ∀ rp m x,
  M !! m = Some x →
  BL.add_powers c r rp M !! m = Some (x + Z2Qc c * (rp * r ^ m))%Qc.
Proof.
  induction M as [|y M IH]; intros rp m x Hm; [done |].
  destruct m as [|m]; simpl in *.
  - injection Hm as ->. f_equal. ring.
  - rewrite (IH _ _ _ Hm). f_equal. ring.
Qed.

Lemma power_sums_fold terms : ∀ M m x,
  M !! m = Some x →
  fold_left (λ M t, BL.add_powers t.2 t.1 (Z2Qc 1) M) terms M !! m
  = Some (x + qsum terms m)%Qc.
Proof.
  induction terms as [|[r c] ts IH]; intros M m x Hm; simpl.
  - rewrite Hm, Z2Qc_0. f_equal. ring.
  - rewrite (IH _ m _ (add_powers_lookup _ _ _ _ _ _ Hm)).
    rewrite Z2Qc_1. f_equal. ring.
Qed.

Lemma power_sums_lookup terms n m :
  (m ≤ n)%nat → BL.power_sums terms n !! m = Some (qsum terms m).
Proof.
  intros Hm. unfold BL.power_sums.
  rewrite (power_sums_fold terms _ m (Z2Qc 0)).
  - rewrite Z2Qc_0. f_equal. ring.
  - apply lookup_replicate_2. lia.
Qed.

Lemma normalize_terms_Ok coefs den :
  den ≠ 0 →
  ∃ ts, BL.normalize_terms coefs den = Ok ts
        ∧ ∀ m, qsum ts m = qmoment coefs den m.
Proof.
  intros Hden. induction coefs as [|[k c] rest (ts & Hts & Hq)]; simpl.
  - by exists [].
  - destruct (decide (c = 0)) as [->|Hc].
    + exists ts. split; [done |]. intros m. rewrite Hq, Z2Qc_0. ring.
    + unfold BL.Fraction.
      destruct (decide (den = 0)); [done |]. simpl. rewrite Hts. simpl.
      eexists. split; [done |]. intros m. simpl. by rewrite Hq.
Qed.

(** With a nonzero denominator and [n >= 0] the function returns the list
    of the [qmoment coefs den m / m!]. *)
Lemma taylor_from_jones_closed coefs n den :
  0 ≤ n → den ≠ 0 →
  BL.taylor_from_jones coefs n den
  = Ok (map (λ m, (qmoment coefs den m / Z2Qc (factorial m))%Qc)
            (seq 0 (S (Z.to_nat n)))).
Proof.
  intros Hn Hden. unfold BL.taylor_from_jones.
  destruct (decide (n < 0)); [lia |].
  destruct (normalize_terms_Ok coefs den Hden) as (ts & -> & Hq). cbn [rbind].
  f_equal. apply map_ext_in. intros m Hm%in_seq.
  assert (Hl : BL.power_sums ts (Z.to_nat n) !! m = Some (qsum ts m))
    by (apply power_sums_lookup; lia).
  apply list_lookup_total_correct in Hl. by rewrite Hl, Hq.
Qed.

(** With a zero denominator the first term with a nonzero coefficient
    raises; the map and its mirror agree on whether there is one. *)
Lemma normalize_terms_den0 (coefs : coef_map) :
  BL.normalize_terms coefs 0
  = if decide (Forall (λ kc, kc.2 = 0) coefs) then Ok []
    else Raise ZeroDivisionError.
Proof.
  induction coefs as [|[k c] rest IH]; cbn [BL.normalize_terms].
  - destruct (decide (Forall _ [])) as [|H]; [done | by destruct H].
  - destruct (decide (c = 0)) as [->|Hc].
    + rewrite IH. destruct (decide (Forall _ rest)) as [H|H].
      * rewrite decide_True; [done | by constructor].
      * rewrite decide_False; [done |]. by intros [_ H']%Forall_cons_1.
    + cbn [BL._as_fraction_exponent BL.coef_key BL.int_key]. unfold BL.Fraction.
      rewrite (decide_True (P := 0 = 0)) by done.
      cbn [rbind]. rewrite decide_False; [done |].
      by intros [H' _]%Forall_cons_1.
Qed.

(** ** The index: first nonzero entry *)

Lemma first_nonzero_Ok `{EqDecision A} (z : A) (l : list A) (k : nat) :
  first_nonzero z l = Ok k
  ↔ (∃ x, l !! k = Some x ∧ x ≠ z) ∧ ∀ j, (j < k)%nat → l !! j = Some z.
Proof.
  unfold first_nonzero. split.
  - destruct (list_find _ l) as [[i x]|] eqn:E; [| done].
    intros [= ->]. apply list_find_Some in E as (Hx & Hnz & Hlt).
    split; [eauto |]. intros j Hj.
    destruct (lookup_lt_is_Some_2 l j) as [y Hy].
    { apply lookup_lt_Some in Hx. lia. }
    destruct (decide (y = z)) as [->|Hne]; [done |].
    by destruct (Hlt j y Hy Hj).
  - intros [(x & Hx & Hnz) Hlt].
    assert (list_find (λ i, i ≠ z) l = Some (k, x)) as ->; [| done].
    apply list_find_Some. split_and!; [done.. |].
    intros j y Hy Hj. rewrite (Hlt j Hj) in Hy. injection Hy as <-. tauto.
Qed.

Lemma first_nonzero_Raise `{EqDecision A} (z : A) (l : list A) e :
  first_nonzero z l = Raise e → e = IndexError ∧ Forall (λ x, x = z) l.
Proof.
  unfold first_nonzero.
  destruct (list_find _ l) as [[i x]|] eqn:E; [done |].
  intros [= <-]. split; [done |].
  apply list_find_None in E. eapply Forall_impl; [exact E |].
  intros x Hx. simpl in Hx. by destruct (decide (x = z)).
Qed.

(** Two lists that are zero at the same places have the same first
    nonzero index. *)
Lemma first_nonzero_Forall2 {A B} `{EqDecision A, EqDecision B}
    (za : A) (zb : B) (l : list A) (l' : list B) :
  Forall2 (λ a b, a = za ↔ b = zb) l l' →
  first_nonzero za l = first_nonzero zb l'.
Proof.
  unfold first_nonzero. induction 1 as [|a b l l' Hab _ IH]; [done |].
  cbn [list_find].
  destruct (decide (a ≠ za)) as [Ha|Ha], (decide (b ≠ zb)) as [Hb|Hb].
  - done.
  - destruct (decide (b = zb)) as [E|E]; [by apply Hab in E | by destruct Hb].
  - destruct (decide (a = za)) as [E|E]; [by apply Hab in E | by destruct Ha].
  - destruct (list_find _ l) as [[i x]|], (list_find _ l') as [[i' x']|];
      simpl in *; congruence.
Qed.

Lemma Forall2_map_same {A B C} (R : B → C → Prop) (f : A → B) (g : A → C) l :
  (∀ x, R (f x) (g x)) → Forall2 R (map f l) (map g l).
Proof. intros H. induction l; constructor; auto. Qed.

(** ** Claims about single coefficient maps *)

(** C10: for the empty coefficient map [jones_to_Vxp] returns the pair of
    empty polynomial maps, whatever the flag, and raises nothing. *)
Theorem C10_empty_map_gives_empty_pair (input_q_is_half_power : bool) :
  JVP.jones_to_Vxp [] input_q_is_half_power = Ok (∅, ∅).
Proof. reflexivity. Qed.

(** C2, as the code has it: on the trefoil map [{4: -1, 3: 1, 1: 1}] the BL
    path at order 11 with [exponent_den = 1] and the JVP path with
    [input_q_is_half_power = False] both return 2: the Taylor list starts
    [1, 0, -3] and the merged coefficients start [1, 0, -3], so the first
    nonzero entry after the constant one is entry 2. *)
Theorem C2_trefoil_Jm_is_two :
  rbind (BL.taylor_from_jones trefoil 11 1) Jm_bl = Ok 2%nat
  ∧ rbind (JVP.jones_to_Vxp trefoil false) Jm_jvp = Ok 2%nat
  ∧ rbind (BL.taylor_from_jones trefoil 11 1)
          (λ a, Ok (this <$> take 3 a)) = Ok [1; 0; -3]%Q
  ∧ rbind (JVP.jones_to_Vxp trefoil false)
          (λ AB, Ok (map (Ring.merged AB) (seq 0 3))) = Ok [1; 0; -3].
Proof. vm_compute. auto. Qed.

(** C2 as stated fails: the two paths do not both report 3 on the trefoil. *)
Lemma C2_trefoil_Jm_is_not_three :
  ¬ (rbind (BL.taylor_from_jones trefoil 11 1) Jm_bl = Ok 3%nat
     ∧ rbind (JVP.jones_to_Vxp trefoil false) Jm_jvp = Ok 3%nat).
Proof. vm_compute. intros [[=] _]. Qed.

(** The list that both [Jm] functions scan: entries 1, 2, ..., n of a
    list of n + 1 entries. *)
Lemma scan_lookup {A} (f : nat → A) (n j : nat) :
  drop 1 (map f (seq 0 (S n))) !! j
  = if decide (j < n)%nat then Some (f (S j)) else None.
Proof.
  rewrite lookup_drop, list_lookup_fmap.
  destruct (decide (j < n)%nat) as [Hj|Hj].
  - by rewrite lookup_seq_lt by lia.
  - by rewrite lookup_seq_ge by lia.
Qed.

Lemma scan_Ok `{EqDecision A} (z : A) (f : nat → A) (n D : nat) :
  rbind (first_nonzero z (drop 1 (map f (seq 0 (S n)))))
        (λ q, Ok (q + 1)%nat) = Ok D
  ↔ (1 ≤ D ≤ n)%nat ∧ f D ≠ z ∧ ∀ j, (1 ≤ j < D)%nat → f j = z.
Proof.
  rewrite rbind_Ok. split.
  - intros (q & [(x & Hx & Hnz) Hlt]%first_nonzero_Ok & [= <-]).
    rewrite scan_lookup in Hx. destruct (decide (q < n)%nat); [| done].
    injection Hx as <-. replace (q + 1)%nat with (S q) by lia.
    split_and!; [lia.. | done |].
    intros j Hj. specialize (Hlt (pred j) ltac:(lia)).
    rewrite scan_lookup in Hlt. destruct (decide _); [| done].
    replace (S (pred j)) with j in Hlt by lia. by injection Hlt.
  - intros (HD & Hnz & Hlt). exists (pred D). split; [| f_equal; lia].
    apply first_nonzero_Ok. split.
    + exists (f D). rewrite scan_lookup, decide_True by lia.
      by replace (S (pred D)) with D by lia.
    + intros j Hj. rewrite scan_lookup, decide_True by lia.
      f_equal. apply Hlt. lia.
Qed.

Lemma scan_Raise `{EqDecision A} (z : A) (f : nat → A) (n : nat) e :
  rbind (first_nonzero z (drop 1 (map f (seq 0 (S n)))))
        (λ q, Ok (q + 1)%nat) = Raise e
  → e = IndexError ∧ ∀ j, (1 ≤ j ≤ n)%nat → f j = z.
Proof.
  destruct (first_nonzero _ _) as [q|e'] eqn:E; [done |].
  intros [= ->]. apply first_nonzero_Raise in E as [-> Hall].
  split; [done |]. intros j Hj.
  rewrite Forall_lookup in Hall. apply (Hall (pred j)).
  rewrite scan_lookup, decide_True by lia.
  by replace (S (pred j)) with j by lia.
Qed.

Lemma Jm_bl_closed (f : nat → Qc) (n D : nat) :
  Jm_bl (map f (seq 0 (S n))) = Ok D
  ↔ (1 ≤ D ≤ n)%nat ∧ f D ≠ Z2Qc 0 ∧ ∀ j, (1 ≤ j < D)%nat → f j = Z2Qc 0.
Proof. apply scan_Ok. Qed.

(** ** BL: a zero term, the mirror, the unknot *)

Lemma normalize_terms_zero_term `{BL.IsCoefKey K}
    (l1 : list (K * Z)) k l2 den :
  BL.normalize_terms (l1 ++ (k, 0) :: l2) den
  = BL.normalize_terms (l1 ++ l2) den.
Proof.
  induction l1 as [|[k' c'] l1 IH]; cbn [app BL.normalize_terms].
  - by rewrite decide_True.
  - by rewrite IH.
Qed.

Lemma taylor_zero_term `{BL.IsCoefKey K} (l1 : list (K * Z)) k l2 n den :
  BL.taylor_from_jones (l1 ++ (k, 0) :: l2) n den
  = BL.taylor_from_jones (l1 ++ l2) n den.
Proof.
  unfold BL.taylor_from_jones. by rewrite normalize_terms_zero_term.
Qed.

Lemma Q2Qc_opp_div (k den : Z) :
  Q2Qc (inject_Z (- k) / inject_Z den) = (- Q2Qc (inject_Z k / inject_Z den))%Qc.
Proof.
  apply Qc_is_canon. simpl. rewrite !Qred_correct.
  unfold Qdiv. rewrite inject_Z_opp. ring.
Qed.

Lemma qmoment_mirror coefs den m :
  qmoment (mirror coefs) den m = ((- (1)) ^ m * qmoment coefs den m)%Qc.
Proof.
  induction coefs as [|[k c] rest IH]; cbn [mirror map qmoment fst snd].
  - rewrite Z2Qc_0. ring.
  - fold (mirror rest). rewrite IH, Q2Qc_opp_div, Qcpower_opp. ring.
Qed.

Lemma mirror_all_zero coefs :
  Forall (λ kc : Z * Z, kc.2 = 0) (mirror coefs)
  ↔ Forall (λ kc : Z * Z, kc.2 = 0) coefs.
Proof. unfold mirror. by rewrite Forall_map. Qed.

(** The BL path gives the same result, value or exception, on a map and
    on its mirror, for every order and every denominator. *)
Lemma BL_mirror coefs n den :
  rbind (BL.taylor_from_jones (mirror coefs) n den) Jm_bl
  = rbind (BL.taylor_from_jones coefs n den) Jm_bl.
Proof.
  destruct (decide (n < 0)) as [Hn|Hn].
  { unfold BL.taylor_from_jones. by rewrite !decide_True. }
  destruct (decide (den = 0)) as [->|Hden].
  { unfold BL.taylor_from_jones. rewrite !normalize_terms_den0.
    rewrite !(decide_False (P := n < 0)) by done.
    destruct (decide (Forall _ (mirror coefs))) as [H|H].
    - rewrite (decide_True (P := Forall _ coefs)); [done |].
      by apply mirror_all_zero.
    - rewrite (decide_False (P := Forall _ coefs)); [done |].
      by rewrite <- mirror_all_zero. }
  rewrite !taylor_from_jones_closed by lia. cbn [rbind].
  unfold Jm_bl. f_equal. apply first_nonzero_Forall2.
  apply Forall2_drop, Forall2_map_same. intros m.
  rewrite qmoment_mirror, Z2Qc_0, !Qcdiv_eq0 by apply Z2Qc_factorial_nz.
  split.
  - intros [H|H]%Qcmult_integral; [by destruct (Qcpower_m1_nz m) | done].
  - intros ->. ring.
Qed.

Lemma qmoment_unknot den m :
  den ≠ 0 → (1 ≤ m)%nat → qmoment [(0, 1)] den m = Z2Qc 0.
Proof.
  intros Hden Hm. cbn [qmoment fst snd].
  assert (Q2Qc (inject_Z 0 / inject_Z den) = 0%Qc) as ->.
  { apply Qc_is_canon. simpl. rewrite Qred_correct.
    unfold Qdiv. rewrite Qmult_0_l. reflexivity. }
  rewrite Qcpower_0 by lia. rewrite Z2Qc_0. ring.
Qed.

(** C3: on the unknot map [{0: 1}] neither path returns an index.  The BL
    path raises for every order and every denominator, [IndexError] in the
    driver's configuration, and the JVP path raises [IndexError] for either
    value of the flag. *)
Theorem C3_unknot_reports_no_index :
  (∀ n den, ¬ is_ok (rbind (BL.taylor_from_jones [(0, 1)] n den) Jm_bl))
  ∧ (∀ half, rbind (JVP.jones_to_Vxp [(0, 1)] half) Jm_jvp = Raise IndexError)
  ∧ Jtransform "BL" [(0, 1)] = Raise IndexError
  ∧ Jtransform "JVP" [(0, 1)] = Raise IndexError.
Proof.
  split_and!; [| by intros [] | by vm_compute | by vm_compute].
  intros n den [D HD].
  destruct (decide (n < 0)) as [Hn|Hn].
  { unfold BL.taylor_from_jones in HD. by rewrite decide_True in HD. }
  destruct (decide (den = 0)) as [->|Hden].
  { unfold BL.taylor_from_jones in HD. by rewrite decide_False in HD. }
  rewrite taylor_from_jones_closed in HD by lia. cbn [rbind] in HD.
  apply Jm_bl_closed in HD as (HD & Hnz & _). destruct Hnz.
  rewrite qmoment_unknot by lia. rewrite Z2Qc_0. unfold Qcdiv. ring.
Qed.

(** ** JVP.py: coefficients of the polynomial operations *)

Section jvp_coefficients.
Import JVP Ring.

Lemma coef_empty d : coef ∅ d = 0.
Proof. unfold coef. by rewrite lookup_empty. Qed.

Lemma coef_singleton (i : nat) (v : Z) d :
  coef {[ i := v ]} d = if decide (d = i) then v else 0.
Proof.
  unfold coef. destruct (decide (d = i)) as [->|Hne].
  - by rewrite lookup_singleton_eq.
  - by rewrite lookup_singleton_ne.
Qed.

Lemma coef_poly_add A B d : coef (_poly_add A B) d = coef A d + coef B d.
Proof.
  unfold coef, _poly_add. rewrite map_lookup_filter, lookup_union_with.
  destruct (A !! d) as [a|], (B !! d) as [b|]; simpl; try done.
  - case_guard; simpl in *; [done | lia].
  - case_guard; simpl in *; lia.
  - case_guard; simpl in *; lia.
Qed.

Lemma coef_poly_scalar_mul A k d :
  coef (_poly_scalar_mul A k) d = k * coef A d.
Proof.
  unfold coef, _poly_scalar_mul. destruct (decide (k = 0)) as [->|Hk].
  - rewrite lookup_empty. simpl. lia.
  - rewrite lookup_fmap. destruct (A !! d); simpl; lia.
Qed.

Lemma coef_poly_mul_p_S A d : coef (_poly_mul_p A) (S d) = coef A d.
Proof.
  unfold coef, _poly_mul_p.
  by rewrite (lookup_kmap (M1 := gmap nat) (M2 := gmap nat) S).
Qed.

Lemma coef_poly_mul_p_O A : coef (_poly_mul_p A) 0 = 0.
Proof.
  unfold coef, _poly_mul_p.
  destruct (kmap S A !! 0%nat) as [v|] eqn:E; [| done].
  apply (lookup_kmap_Some (M1 := gmap nat) (M2 := gmap nat) S) in E
    as (j & Hj & _).
  lia.
Qed.

Lemma no_zeros_poly_add A B : no_zeros (_poly_add A B).
Proof.
  intros d. unfold _poly_add. rewrite map_lookup_filter.
  destruct (union_with _ A B !! d) as [v|]; simpl; [| done].
  case_guard; simpl in *; congruence.
Qed.

Lemma no_zeros_empty : no_zeros ∅.
Proof. intros d. by rewrite lookup_empty. Qed.

Lemma no_zeros_lookup A d : no_zeros A → A !! d = None ↔ coef A d = 0.
Proof.
  intros HA. unfold coef. specialize (HA d).
  destruct (A !! d) as [v|]; simpl; split; try done.
  intros ->. done.
Qed.
End jvp_coefficients.

(** ** JVP.py: the power tables hold x^j and (x - p)^j at index j *)

Section jvp_tables.
Import JVP Ring.

Lemma table_loop_lookup step i AB j :
  table_loop step i AB !! j
  = if decide (j < i)%nat then Some (Nat.iter (S j) step AB) else None.
Proof.
  revert AB j. induction i as [|i IH]; intros AB j; cbn [table_loop].
  - by rewrite decide_False by lia.
  - destruct j as [|j]; [by rewrite decide_True by lia |].
    cbn [lookup list_lookup]. rewrite IH.
    destruct (decide (j < i)%nat).
    + rewrite decide_True by lia. f_equal. simpl.
      f_equal. by rewrite <- Nat.iter_succ_r.
    + by rewrite decide_False by lia.
Qed.

Lemma xpow_iter j : xpow (S j) = Nat.iter j _mul_by_x (xpow 1).
Proof.
  induction j as [|j IH]; [done |].
  rewrite Nat.iter_succ, <- IH. done.
Qed.

Lemma ypow_iter j : ypow (S j) = Nat.iter j _mul_by_y (ypow 1).
Proof.
  induction j as [|j IH]; [done |].
  rewrite Nat.iter_succ, <- IH. done.
Qed.

Lemma power_table_x_lookup n (j : nat) :
  0 ≤ n → (j ≤ Z.to_nat n)%nat → _power_table_x n !! j = Some (xpow j).
Proof.
  intros Hn Hj. unfold _power_table_x.
  destruct (decide (n = 0)) as [->|Hne].
  { by replace j with 0%nat by lia. }
  destruct j as [|[|j]]; [done.. |].
  cbn [lookup list_lookup]. rewrite table_loop_lookup.
  rewrite decide_True by lia. f_equal.
  rewrite (xpow_iter (S j)). reflexivity.
Qed.

Lemma power_table_y_lookup n (j : nat) :
  0 ≤ n → (j ≤ Z.to_nat n)%nat → _power_table_y n !! j = Some (ypow j).
Proof.
  intros Hn Hj. unfold _power_table_y.
  destruct (decide (n = 0)) as [->|Hne].
  { by replace j with 0%nat by lia. }
  destruct j as [|[|j]]; [done.. |].
  cbn [lookup list_lookup]. rewrite table_loop_lookup.
  rewrite decide_True by lia. f_equal.
  rewrite (ypow_iter (S j)). reflexivity.
Qed.

Lemma fold_max_ge (l : list Z) : ∀ a x,
  x = a ∨ x ∈ l → x ≤ fold_left Z.max l a.
Proof.
  induction l as [|y l IH]; intros a x Hx; simpl.
  - destruct Hx as [->|Hx%elem_of_nil]; [lia | done].
  - assert (Hmax : Z.max a y ≤ fold_left Z.max l (Z.max a y))
      by (apply IH; by left).
    destruct Hx as [->|[->|Hx]%elem_of_cons]; [lia | lia |].
    apply IH. by right.
Qed.

Lemma py_max_or0_ge (l : list Z) x : x ∈ l → x ≤ py_max_or0 l.
Proof.
  destruct l as [|a l]; [by intros ?%elem_of_nil |].
  intros Hx%elem_of_cons. simpl. by apply fold_max_ge.
Qed.

Lemma py_max_or0_nonneg (l : list Z) :
  Forall (λ x, 0 ≤ x) l → 0 ≤ py_max_or0 l.
Proof.
  destruct l as [|a l]; [done |]. intros Hl.
  assert (a ≤ py_max_or0 (a :: l)) by (apply py_max_or0_ge; by left).
  apply Forall_cons_1 in Hl as [Ha _]. lia.
Qed.

(** The lookups of [accumulate] are in range: every term indexes its
    table at or below the maximum the table was built for. *)
Lemma accumulate_spec_correct (half : bool) nx ny acc (kc : Z * Z) :
  0 ≤ nx → 0 ≤ ny →
  (kc.2 ≠ 0 → 0 ≤ kc.1 → (if half then kc.1 else 2 * kc.1) ≤ nx) →
  (kc.2 ≠ 0 → kc.1 < 0 → (if half then - kc.1 else 2 * (- kc.1)) ≤ ny) →
  accumulate half (_power_table_x nx) (_power_table_y ny) acc kc
  = Ok (accumulate_spec_step half acc kc).
Proof.
  intros Hnx Hny Hx Hy. destruct kc as [k c]. simpl in Hx, Hy.
  unfold accumulate, accumulate_spec_step, term_pair. cbn [fst snd].
  destruct (decide (c = 0)) as [Hc|Hc]; [done |].
  destruct (decide (0 ≤ k)) as [Hk|Hk]; unfold table_get.
  - rewrite power_table_x_lookup by (destruct half; lia). done.
  - rewrite power_table_y_lookup by (destruct half; lia). done.
Qed.

Lemma accumulate_all_spec (half : bool) nx ny coefs : ∀ acc,
  0 ≤ nx → 0 ≤ ny →
  Forall (λ kc : Z * Z,
    (kc.2 ≠ 0 → 0 ≤ kc.1 → (if half then kc.1 else 2 * kc.1) ≤ nx)
    ∧ (kc.2 ≠ 0 → kc.1 < 0 → (if half then - kc.1 else 2 * (- kc.1)) ≤ ny))
    coefs →
  accumulate_all half (_power_table_x nx) (_power_table_y ny) acc coefs
  = Ok (accumulate_spec half acc coefs).
Proof.
  induction coefs as [|kc rest IH]; intros acc Hnx Hny Hall; [done |].
  apply Forall_cons_1 in Hall as [[Hx Hy] Hall].
  cbn [accumulate_all]. rewrite accumulate_spec_correct by done.
  cbn [rbind]. by rewrite IH.
Qed.

(** [jones_to_Vxp] never raises on integer keys: it returns the
    accumulated pair. *)
Lemma jones_to_Vxp_spec coefs half :
  jones_to_Vxp coefs half = Ok (accumulate_spec half (∅, ∅) coefs).
Proof.
  destruct coefs as [|kc0 rest]; [done |].
  set (coefs := kc0 :: rest). unfold jones_to_Vxp. fold coefs.
  set (max_pos := py_max_or0 (filter (λ k, 0 ≤ k) coefs.*1)).
  set (max_neg := py_max_or0 (Z.opp <$> filter (λ k, k < 0) coefs.*1)).
  assert (Hpos : 0 ≤ max_pos).
  { apply py_max_or0_nonneg, Forall_forall.
    by intros x [? _]%list_elem_of_filter. }
  assert (Hneg : 0 ≤ max_neg).
  { apply py_max_or0_nonneg, Forall_forall.
    intros x (y & -> & [? _]%list_elem_of_filter)%list_elem_of_fmap. lia. }
  change (accumulate_all half
            (_power_table_x (if half then max_pos else 2 * max_pos))
            (_power_table_y (if half then max_neg else 2 * max_neg))
            (∅, ∅) coefs = Ok (accumulate_spec half (∅, ∅) coefs)).
  apply accumulate_all_spec; [destruct half; lia.. |].
  apply Forall_forall. intros [k c] Hkc. cbn [fst snd].
  assert (Hk : k ∈ coefs.*1).
  { apply list_elem_of_fmap. by exists (k, c). }
  split; intros _ Hsign.
  - assert (k ≤ max_pos).
    { apply py_max_or0_ge, list_elem_of_filter. done. }
    destruct half; lia.
  - assert (- k ≤ max_neg).
    { apply py_max_or0_ge, list_elem_of_fmap. exists k. split; [done |].
      by apply list_elem_of_filter. }
    destruct half; lia.
Qed.
End jvp_tables.

(** ** A term with coefficient zero *)

Lemma accumulate_spec_zero_term half acc l1 k l2 :
  Ring.accumulate_spec half acc (l1 ++ (k, 0) :: l2)
  = Ring.accumulate_spec half acc (l1 ++ l2).
Proof.
  unfold Ring.accumulate_spec. rewrite !fold_left_app. cbn [fold_left].
  unfold Ring.accumulate_spec_step at 2. cbn [snd].
  by rewrite decide_True.
Qed.

(** C9: adding an entry [k: 0] for an exponent that is not a key of the
    coefficient map, at any place of the map, changes the output of neither
    engine: [taylor_from_jones] returns the same list (or raises the same
    exception) for every order and denominator, and [jones_to_Vxp] returns
    the same pair for either value of the flag. *)
Theorem C9_zero_coefficient_term_is_ignored (l1 l2 : coef_map) (k : Z) :
  k ∉ (l1 ++ l2).*1 →
  (∀ n den, BL.taylor_from_jones (l1 ++ (k, 0) :: l2) n den
            = BL.taylor_from_jones (l1 ++ l2) n den)
  ∧ (∀ half, JVP.jones_to_Vxp (l1 ++ (k, 0) :: l2) half
             = JVP.jones_to_Vxp (l1 ++ l2) half).
Proof.
  intros _. split.
  - intros n den. apply taylor_zero_term.
  - intros half. by rewrite !jones_to_Vxp_spec, accumulate_spec_zero_term.
Qed.

Lemma C9_zero_coefficient_term_is_ignored_witness :
  (2 ∉ ([(4, -1); (3, 1)] ++ [(1, 1)]).*1)
  ∧ BL.taylor_from_jones ([(4, -1); (3, 1)] ++ (2, 0) :: [(1, 1)]) 11 1
    = BL.taylor_from_jones ([(4, -1); (3, 1)] ++ [(1, 1)]) 11 1
  ∧ JVP.jones_to_Vxp ([(4, -1); (3, 1)] ++ (2, 0) :: [(1, 1)]) false
    = JVP.jones_to_Vxp ([(4, -1); (3, 1)] ++ [(1, 1)]) false.
Proof.
  assert (H : 2 ∉ ([(4, -1); (3, 1)] ++ [(1, 1)]).*1).
  { simpl. rewrite !not_elem_of_cons. split_and!; try lia.
    apply not_elem_of_nil. }
  destruct (C9_zero_coefficient_term_is_ignored
              [(4, -1); (3, 1)] [(1, 1)] 2 H) as [Hbl Hjvp].
  split_and!; [exact H | apply Hbl | apply Hjvp].
Defined.

(** ** The JVP index in terms of the merged coefficients *)

Lemma fold_max_nat_ge (l : list nat) : ∀ a x,
  x = a ∨ x ∈ l → (x ≤ fold_left Nat.max l a)%nat.
Proof.
  induction l as [|y l IH]; intros a x Hx; simpl.
  - destruct Hx as [->|Hx%elem_of_nil]; [lia | done].
  - assert (Hmax : (Nat.max a y ≤ fold_left Nat.max l (Nat.max a y))%nat)
      by (apply IH; by left).
    destruct Hx as [->|[->|Hx]%elem_of_cons]; [lia | lia |].
    apply IH. by right.
Qed.

Lemma max_key_ge (m : gmap nat Z) (i : nat) :
  is_Some (m !! i) → ∃ mx, max_key m = Ok mx ∧ (i ≤ mx)%nat.
Proof.
  intros Hi%elem_of_dom%elem_of_elements. unfold max_key.
  destruct (elements (dom m)) as [|d ds]; [by apply elem_of_nil in Hi |].
  eexists. split; [done |]. apply fold_max_nat_ge.
  by apply elem_of_cons in Hi.
Qed.

Lemma max_key_Raise (m : gmap nat Z) e :
  max_key m = Raise e → e = ValueError ∧ m = ∅.
Proof.
  unfold max_key. destruct (elements (dom m)) as [|d ds] eqn:E; [| done].
  intros [= <-]. split; [done |].
  apply elements_empty_inv in E. apply leibniz_equiv in E.
  by apply dom_empty_inv_L in E.
Qed.

Lemma Jm_jvp_Ok (AB : JVP.poly * JVP.poly) (D : nat) :
  Jm_jvp AB = Ok D
  ↔ (1 ≤ D)%nat ∧ Ring.merged AB D ≠ 0
    ∧ ∀ j, (1 ≤ j < D)%nat → Ring.merged AB j = 0.
Proof.
  destruct AB as [A B]. unfold Jm_jvp. split.
  - intros (mx & Hmx & HD)%rbind_Ok.
    apply (scan_Ok 0 (Ring.merged (A, B))) in HD as (HD & Hnz & Hlt).
    split_and!; [lia | done | done].
  - intros (HD & Hnz & Hlt).
    assert (Hdom : is_Some ((B ∪ A) !! D)).
    { apply lookup_union_is_Some. unfold Ring.merged, JVP.coef in Hnz.
      cbn [fst snd] in Hnz.
      destruct (A !! D), (B !! D); simpl in *; eauto. lia. }
    destruct (max_key_ge _ _ Hdom) as (mx & -> & Hle). cbn [rbind].
    apply (scan_Ok 0 (Ring.merged (A, B))). split_and!; [lia.. | done | done].
Qed.

Lemma Jm_jvp_Raise (AB : JVP.poly * JVP.poly) e :
  Jm_jvp AB = Raise e →
  (e = ValueError ∧ AB.1 = ∅ ∧ AB.2 = ∅)
  ∨ (e = IndexError ∧ (AB.1 ≠ ∅ ∨ AB.2 ≠ ∅)).
Proof.
  destruct AB as [A B]. unfold Jm_jvp. cbn [fst snd].
  destruct (max_key (B ∪ A)) as [mx|e'] eqn:E; cbn [rbind].
  - intros [-> _]%(scan_Raise 0 (Ring.merged (A, B))). right.
    split; [done |].
    destruct (decide (A = ∅)) as [->|]; [| by left]. right. intros ->.
    by rewrite (left_id_L ∅ (∪)) in E.
  - intros [= ->]. apply max_key_Raise in E as [-> E]. left.
    apply map_positive_l in E as HB. subst B.
    by rewrite (left_id_L ∅ (∪)) in E.
Qed.

(** ** The accumulated pair, coefficient by coefficient *)

Lemma csum_zero (f : Z * Z → Z) coefs :
  (∀ kc, f kc = 0) → csum f coefs = 0.
Proof. intros H. induction coefs; simpl; [done | rewrite H; lia]. Qed.

Lemma csum_ext (f g : Z * Z → Z) coefs :
  (∀ kc, f kc = g kc) → csum f coefs = csum g coefs.
Proof. intros H. induction coefs; simpl; [done | by rewrite H, IHcoefs]. Qed.

Lemma csum_add (f g : Z * Z → Z) coefs :
  csum (λ kc, f kc + g kc) coefs = csum f coefs + csum g coefs.
Proof. induction coefs; simpl; lia. Qed.

Lemma csum_scal c (f : Z * Z → Z) coefs :
  csum (λ kc, c * f kc) coefs = c * csum f coefs.
Proof. induction coefs; simpl; lia. Qed.

Section closed_form.
Import JVP Ring.

Lemma coef_accumulate_step half acc (kc : Z * Z) d :
  coef (accumulate_spec_step half acc kc).1 d
  = coef acc.1 d + kc.2 * coef (term_pair half kc.1).1 d
  ∧ coef (accumulate_spec_step half acc kc).2 d
    = coef acc.2 d + kc.2 * coef (term_pair half kc.1).2 d.
Proof.
  unfold accumulate_spec_step.
  destruct (decide (kc.2 = 0)) as [->|Hc]; [lia |].
  destruct (decide (kc.2 ≠ 1)) as [Hc1|Hc1]; cbn [fst snd].
  - by rewrite !coef_poly_add, !coef_poly_scalar_mul.
  - assert (kc.2 = 1) as -> by (destruct (decide (kc.2 = 1)); tauto).
    rewrite !coef_poly_add. lia.
Qed.

Lemma coef_accumulate_spec half coefs : ∀ acc d,
  coef (accumulate_spec half acc coefs).1 d
  = coef acc.1 d
    + csum (λ kc, kc.2 * coef (term_pair half kc.1).1 d) coefs
  ∧ coef (accumulate_spec half acc coefs).2 d
    = coef acc.2 d
      + csum (λ kc, kc.2 * coef (term_pair half kc.1).2 d) coefs.
Proof.
  unfold accumulate_spec.
  induction coefs as [|kc rest IH]; intros acc d; cbn [fold_left csum].
  - lia.
  - destruct (IH (accumulate_spec_step half acc kc) d) as [-> ->].
    destruct (coef_accumulate_step half acc kc d) as [-> ->]. lia.
Qed.

(** The polynomials of the accumulated pair store no zero. *)
Lemma no_zeros_accumulate_spec half coefs : ∀ acc,
  no_zeros acc.1 → no_zeros acc.2 →
  no_zeros (accumulate_spec half acc coefs).1
  ∧ no_zeros (accumulate_spec half acc coefs).2.
Proof.
  unfold accumulate_spec.
  induction coefs as [|kc rest IH]; intros acc H1 H2; [done |].
  cbn [fold_left]. apply IH; unfold accumulate_spec_step;
    destruct (decide (kc.2 = 0)); try done; apply no_zeros_poly_add.
Qed.

(** *** Parity: in x^j the part without x has the degrees of the parity
    of j and the part with x the degrees of the other parity. *)

Lemma supp_par_add e A B :
  supp_par e A → supp_par e B → supp_par e (_poly_add A B).
Proof.
  intros HA HB d Hd. rewrite coef_poly_add, HA, HB by done. done.
Qed.

Lemma supp_par_scal e A k : supp_par e A → supp_par e (_poly_scalar_mul A k).
Proof. intros HA d Hd. rewrite coef_poly_scalar_mul, HA by done. lia. Qed.

Lemma even_S_negb d : Nat.even (S d) = negb (Nat.even d).
Proof. by rewrite Nat.even_succ, <- Nat.negb_even. Qed.

Lemma supp_par_mul_p e A : supp_par (negb e) A → supp_par e (_poly_mul_p A).
Proof.
  intros HA [|d] Hd.
  - apply coef_poly_mul_p_O.
  - rewrite coef_poly_mul_p_S. apply HA.
    rewrite even_S_negb in Hd. destruct (Nat.even d), e; naive_solver.
Qed.

Lemma pair_par_mul_by_x e AB : pair_par e AB → pair_par (negb e) (_mul_by_x AB).
Proof.
  destruct AB as [A B]. intros [HA HB]. split; cbn [_mul_by_x fst snd].
  - done.
  - rewrite negb_involutive. apply supp_par_add; [done |].
    by apply supp_par_mul_p.
Qed.

Lemma pair_par_mul_by_y e AB : pair_par e AB → pair_par (negb e) (_mul_by_y AB).
Proof.
  destruct AB as [A B]. intros [HA HB]. split; cbn [_mul_by_y fst snd].
  - apply supp_par_add; [done |]. apply supp_par_scal, supp_par_mul_p.
    by rewrite negb_involutive.
  - by rewrite negb_involutive.
Qed.

Lemma pair_par_xpow j : pair_par (Nat.even j) (xpow j).
Proof.
  destruct j as [|j].
  { split; intros d Hd; cbn [xpow fst snd].
    - rewrite coef_singleton. destruct d; [done | by rewrite decide_False].
    - apply coef_empty. }
  induction j as [|j IH].
  - split; intros d Hd; cbn [xpow fst snd]; rewrite coef_singleton.
    + by destruct (decide (d = 0%nat)).
    + destruct d; [done | by rewrite decide_False].
  - rewrite (even_S_negb (S j)).
    change (xpow (S (S j))) with (_mul_by_x (xpow (S j))).
    by apply pair_par_mul_by_x.
Qed.

Lemma pair_par_ypow j : pair_par (Nat.even j) (ypow j).
Proof.
  destruct j as [|j].
  { split; intros d Hd; cbn [ypow fst snd].
    - rewrite coef_singleton. destruct d; [done | by rewrite decide_False].
    - apply coef_empty. }
  induction j as [|j IH].
  - split; intros d Hd; cbn [ypow fst snd]; rewrite coef_singleton.
    + destruct d as [|[|d]]; [done | done | by rewrite decide_False].
    + destruct d; [done | by rewrite decide_False].
  - rewrite (even_S_negb (S j)).
    change (ypow (S (S j))) with (_mul_by_y (ypow (S j))).
    by apply pair_par_mul_by_y.
Qed.

Lemma even_to_nat_double k : Nat.even (Z.to_nat (2 * k)) = true.
Proof.
  destruct (decide (0 ≤ k)).
  - rewrite Z2Nat.inj_mul by lia. rewrite Nat.even_mul. done.
  - by replace (Z.to_nat (2 * k)) with 0%nat by lia.
Qed.

Lemma pair_par_term_pair k : pair_par true (term_pair false k).
Proof.
  unfold term_pair. destruct (decide (0 ≤ k)).
  - rewrite <- (even_to_nat_double k). apply pair_par_xpow.
  - rewrite <- (even_to_nat_double (- k)). apply pair_par_ypow.
Qed.

(** In the integer-power mode A has even and B has odd degrees only. *)
Lemma pair_par_jones coefs :
  pair_par true (accumulate_spec false (∅, ∅) coefs).
Proof.
  split; intros d Hd.
  - destruct (coef_accumulate_spec false coefs (∅, ∅) d) as [-> _].
    cbn [fst]. rewrite coef_empty, csum_zero; [done |].
    intros [k c]. cbn [fst snd].
    destruct (pair_par_term_pair k) as [H _]. rewrite H by done. lia.
  - destruct (coef_accumulate_spec false coefs (∅, ∅) d) as [_ ->].
    cbn [snd]. rewrite coef_empty, csum_zero; [done |].
    intros [k c]. cbn [fst snd].
    destruct (pair_par_term_pair k) as [_ H]. rewrite H by done. lia.
Qed.
End closed_form.

(** ** Finite sums *)

Lemma bsum_S (f : nat → Z) n : bsum f (S n) = bsum f n + f n.
Proof. reflexivity. Qed.

Lemma bsum_ext (f g : nat → Z) n :
  (∀ i, (i < n)%nat → f i = g i) → bsum f n = bsum g n.
Proof.
  induction n as [|n IH]; intros H; simpl; [done |].
  rewrite IH, H by (intros; auto with lia). done.
Qed.

Lemma bsum_zero (f : nat → Z) n :
  (∀ i, (i < n)%nat → f i = 0) → bsum f n = 0.
Proof.
  induction n as [|n IH]; intros H; simpl; [done |].
  rewrite IH, H by (intros; auto with lia). done.
Qed.

Lemma bsum_add (f g : nat → Z) n :
  bsum (λ i, f i + g i) n = bsum f n + bsum g n.
Proof. induction n; simpl; lia. Qed.

Lemma bsum_scal c (f : nat → Z) n : bsum (λ i, c * f i) n = c * bsum f n.
Proof. induction n; simpl; lia. Qed.

Lemma bsum_swap (F : nat → nat → Z) n k :
  bsum (λ i, bsum (λ d, F i d) n) k = bsum (λ d, bsum (λ i, F i d) k) n.
Proof.
  induction k as [|k IH]; simpl.
  - by rewrite bsum_zero.
  - by rewrite IH, <- bsum_add.
Qed.

Lemma bsum_single (f : nat → Z) n j :
  (j < n)%nat → (∀ i, (i < n)%nat → i ≠ j → f i = 0) → bsum f n = f j.
Proof.
  induction n as [|n IH]; intros Hj H; [lia |]. simpl.
  destruct (decide (j = n)) as [->|Hne].
  - rewrite bsum_zero; [lia |]. intros i Hi. apply H; lia.
  - rewrite IH, (H n) by (intros; auto with lia). lia.
Qed.

(** A sum whose first term is zero, shifted by one. *)
Lemma bsum_shift (f : nat → Z) n :
  f 0%nat = 0 → bsum f (S n) = bsum (λ d, f (S d)) n.
Proof.
  intros H0. induction n as [|n IH]; simpl in *; [lia |].
  rewrite <- IH. lia.
Qed.

Lemma bsum_csum (F : nat → Z * Z → Z) n coefs :
  bsum (λ d, csum (F d) coefs) n = csum (λ kc, bsum (λ d, F d kc) n) coefs.
Proof.
  induction coefs as [|kc rest IH]; simpl.
  - by rewrite bsum_zero.
  - by rewrite bsum_add, IH.
Qed.

(** A weighted sum of a linear combination of two families. *)
Lemma bsum_lin2 (w : nat → Z) (a b : nat → Z) (p q : nat → nat → Z) n k :
  bsum (λ i, w i * bsum (λ d, a d * p d i + b d * q d i) n) k
  = bsum (λ d, a d * bsum (λ i, w i * p d i) k
               + b d * bsum (λ i, w i * q d i) k) n.
Proof.
  rewrite (bsum_ext _ (λ i, bsum (λ d, w i * (a d * p d i + b d * q d i)) n))
    by (intros; cbv beta; by rewrite bsum_scal).
  rewrite bsum_swap. apply bsum_ext. intros d _.
  rewrite <- !bsum_scal, <- bsum_add. apply bsum_ext. intros i _. lia.
Qed.

(** ** Power sums: the tables *)

Section moments.
Import JVP Ring Moments.

Lemma tables_ok_true : tables_ok = true.
Proof. vm_compute. reflexivity. Qed.

Lemma below_spec (P : nat → bool) (i : nat) :
  below P = true → (i < N)%nat → P i = true.
Proof.
  unfold below. intros H Hi. rewrite forallb_forall in H.
  apply H, in_seq. lia.
Qed.

Lemma table_facts (d m : nat) :
  (d < N)%nat → (m < N)%nat →
  ((m < d)%nat → pi d m = 0 ∧ xi d m = 0)
  ∧ pi d d = xi d d ∧ pi d d ≠ 0
  ∧ Sx (xi d) m = xi (S d) m + pi d m
  ∧ Sy (pi d) m = xi d m - pi (S d) m
  ∧ Sy (xi d) m = pi d m
  ∧ Sx (pi d) m = xi d m
  ∧ pi N m = 0 ∧ xi N m = 0
  ∧ (m ≠ 0%nat → pi 0 m = 0)
  ∧ xi 0 m = 1 ∧ xi 0 m - pi 1 m = (-1) ^ Z.of_nat m.
Proof.
  intros Hd Hm. pose proof tables_ok_true as H. unfold tables_ok in H.
  apply andb_prop in H as [H _].
  apply (below_spec _ d) in H; [| done]. cbv beta in H.
  apply (below_spec _ m) in H; [| done]. cbv beta in H.
  repeat match type of H with
         | (_ && _ = true) => apply andb_prop in H as [H ?]
         end.
  repeat match goal with
         | H : (_ =? _) = true |- _ => apply Z.eqb_eq in H
         | H : negb (_ =? _) = true |- _ =>
             apply negb_true_iff, Z.eqb_neq in H
         end.
  split_and!; try done.
  - intros Hlt. apply Nat.ltb_lt in Hlt. rewrite Hlt in H.
    apply andb_prop in H as [Hp Hx]. by apply Z.eqb_eq in Hp, Hx.
  - intros Hne. destruct m; [done |]. by apply Z.eqb_eq.
Qed.

Lemma pi_0_0 : pi 0 0 = 1.
Proof. reflexivity. Qed.

(** *** Multiplying by x and by x^-1 *)

Lemma shift_sum_S (A : poly) (g : nat → Z) n :
  bsum (λ d, coef (_poly_mul_p A) d * g d) (S n)
  = bsum (λ d, coef A d * g (S d)) n.
Proof.
  rewrite bsum_shift by (rewrite coef_poly_mul_p_O; lia).
  apply bsum_ext. intros d _. cbv beta. by rewrite coef_poly_mul_p_S.
Qed.

Lemma shift_sum (A : poly) (g : nat → Z) :
  g N = 0 →
  bsum (λ d, coef (_poly_mul_p A) d * g d) N
  = bsum (λ d, coef A d * g (S d)) N.
Proof.
  intros HN. change N with (S 11) in *. rewrite shift_sum_S.
  rewrite (bsum_S (λ d, coef A d * g (S d)) 11), HN. lia.
Qed.

Lemma ev_mul_by_x AB m : (m < N)%nat → ev (_mul_by_x AB) m = Sx (ev AB) m.
Proof.
  intros Hm. destruct AB as [A B].
  assert (HxiN : xi N m = 0).
  { by destruct (table_facts 0 m ltac:(unfold N; lia) Hm)
      as (_ & _ & _ & _ & _ & _ & _ & _ & ? & _). }
  trans (bsum (λ d, coef B d * pi d m + coef A d * xi d m) N
         + bsum (λ d, coef B d * xi (S d) m) N).
  - rewrite <- (shift_sum B (λ d, xi d m)) by done.
    rewrite <- bsum_add. unfold ev. apply bsum_ext. intros d _.
    cbn [_mul_by_x fst snd]. rewrite coef_poly_add. lia.
  - unfold Sx, ev. cbn [fst snd].
    rewrite (bsum_lin2 (binom m) (coef A) (coef B) pi xi).
    rewrite <- bsum_add. apply bsum_ext. intros d Hd.
    destruct (table_facts d m Hd Hm) as (_ & _ & _ & Hxx & _ & _ & Hxp & _).
    unfold Sx in Hxx, Hxp. rewrite Hxx, Hxp. lia.
Qed.

Lemma ev_mul_by_y AB m : (m < N)%nat → ev (_mul_by_y AB) m = Sy (ev AB) m.
Proof.
  intros Hm. destruct AB as [A B].
  assert (HpiN : pi N m = 0).
  { by destruct (table_facts 0 m ltac:(unfold N; lia) Hm)
      as (_ & _ & _ & _ & _ & _ & _ & ? & _). }
  trans (bsum (λ d, coef B d * pi d m + coef A d * xi d m) N
         + (-1) * bsum (λ d, coef A d * pi (S d) m) N).
  - rewrite <- (shift_sum A (λ d, pi d m)) by done.
    rewrite <- bsum_scal, <- bsum_add. unfold ev. apply bsum_ext.
    intros d _. cbn [_mul_by_y fst snd].
    rewrite coef_poly_add, coef_poly_scalar_mul. lia.
  - unfold Sy, ev. cbn [fst snd].
    rewrite (bsum_lin2 (λ i, binom m i * (-1) ^ Z.of_nat (m - i))
               (coef A) (coef B) pi xi).
    rewrite <- bsum_scal, <- bsum_add. apply bsum_ext. intros d Hd.
    destruct (table_facts d m Hd Hm) as (_ & _ & _ & _ & Hyp & Hyx & _).
    unfold Sy in Hyp, Hyx. rewrite Hyp, Hyx. lia.
Qed.
End moments.

Section moments_of_powers.
Import JVP Ring Moments.

Lemma Sx_ext s t m : (∀ i, (i ≤ m)%nat → s i = t i) → Sx s m = Sx t m.
Proof.
  intros H. unfold Sx. apply bsum_ext. intros i Hi.
  rewrite H by lia. done.
Qed.

Lemma Sy_ext s t m : (∀ i, (i ≤ m)%nat → s i = t i) → Sy s m = Sy t m.
Proof.
  intros H. unfold Sy. apply bsum_ext. intros i Hi.
  rewrite H by lia. done.
Qed.

Ltac numerals :=
  repeat match goal with
         | |- context [Z.of_nat ?n] =>
             let v := eval vm_compute in (Z.of_nat n) in
             change (Z.of_nat n) with v
         end.

(** The binomial theorem up to the order in use: multiplying by x turns
    the power sums of x^k into those of x^(k+1). *)
Lemma Sx_powers (k : Z) (m : nat) :
  (m < N)%nat → Sx (λ i, k ^ Z.of_nat i) m = (k + 1) ^ Z.of_nat m.
Proof.
  intros Hm. unfold N in Hm.
  do 12 (destruct m as [|m]; [cbn; numerals; ring |]). lia.
Qed.

Lemma Sy_powers (k : Z) (m : nat) :
  (m < N)%nat → Sy (λ i, k ^ Z.of_nat i) m = (k - 1) ^ Z.of_nat m.
Proof.
  intros Hm. unfold N in Hm.
  do 12 (destruct m as [|m]; [cbn; numerals; ring |]). lia.
Qed.

End moments_of_powers.

Section moments_of_tables.
Import JVP Ring Moments.

Lemma bsum_low2 (f : nat → Z) :
  (∀ d, (2 ≤ d)%nat → f d = 0) → bsum f N = f 0%nat + f 1%nat.
Proof.
  intros H. unfold N. cbn [bsum].
  rewrite (H 2%nat), (H 3%nat), (H 4%nat), (H 5%nat), (H 6%nat),
    (H 7%nat), (H 8%nat), (H 9%nat), (H 10%nat), (H 11%nat) by lia.
  lia.
Qed.

(** The power sums of a pair of degree at most one. *)
Lemma ev_low AB m :
  (∀ d, (2 ≤ d)%nat → coef AB.1 d = 0 ∧ coef AB.2 d = 0) →
  ev AB m = coef AB.1 0 * pi 0 m + coef AB.2 0 * xi 0 m
            + (coef AB.1 1 * pi 1 m + coef AB.2 1 * xi 1 m).
Proof.
  intros H. unfold ev. apply bsum_low2.
  intros d Hd. destruct (H d Hd) as [-> ->]. lia.
Qed.

Lemma pi_0_powers m : (m < N)%nat → pi 0 m = 0 ^ Z.of_nat m.
Proof.
  intros Hm. destruct m as [|m]; [done |].
  destruct (table_facts 0 (S m) ltac:(unfold N; lia) Hm)
    as (_ & _ & _ & _ & _ & _ & _ & _ & _ & H0 & _).
  rewrite H0 by done. rewrite Z.pow_0_l by lia. done.
Qed.

Lemma ev_xpow j m : (m < N)%nat → ev (xpow j) m = Z.of_nat j ^ Z.of_nat m.
Proof.
  intros Hm. destruct j as [|j].
  { rewrite ev_low.
    - cbn [xpow fst snd]. rewrite !coef_singleton, !coef_empty.
      rewrite pi_0_powers by done. change (Z.of_nat 0) with 0.
      repeat case_decide; lia.
    - intros d Hd. cbn [xpow fst snd]. rewrite coef_singleton, coef_empty.
      case_decide; lia. }
  revert m Hm. induction j as [|j IH]; intros m Hm.
  - rewrite ev_low.
    + cbn [xpow fst snd]. rewrite !coef_singleton.
      destruct (table_facts 0 m ltac:(unfold N; lia) Hm)
        as (_ & _ & _ & _ & _ & _ & _ & _ & _ & _ & -> & _).
      rewrite Z.pow_1_l by lia. repeat case_decide; lia.
    + intros d Hd. cbn [xpow fst snd]. rewrite !coef_singleton.
      repeat case_decide; lia.
  - change (xpow (S (S j))) with (_mul_by_x (xpow (S j))).
    rewrite ev_mul_by_x by done.
    rewrite (Sx_ext _ (λ i, Z.of_nat (S j) ^ Z.of_nat i))
      by (intros i Hi; apply IH; lia).
    rewrite Sx_powers by done. f_equal. lia.
Qed.

Lemma ev_ypow j m :
  (m < N)%nat → ev (ypow j) m = (- Z.of_nat j) ^ Z.of_nat m.
Proof.
  intros Hm. destruct j as [|j].
  { rewrite ev_low.
    - cbn [ypow fst snd]. rewrite !coef_singleton, !coef_empty.
      rewrite pi_0_powers by done. change (- Z.of_nat 0) with 0.
      repeat case_decide; lia.
    - intros d Hd. cbn [ypow fst snd]. rewrite coef_singleton, coef_empty.
      case_decide; lia. }
  revert m Hm. induction j as [|j IH]; intros m Hm.
  - rewrite ev_low.
    + cbn [ypow fst snd]. rewrite !coef_singleton.
      destruct (table_facts 0 m ltac:(unfold N; lia) Hm)
        as (_ & _ & _ & _ & _ & _ & _ & _ & _ & _ & _ & H).
      change (- Z.of_nat 1) with (-1). rewrite <- H.
      repeat case_decide; lia.
    + intros d Hd. cbn [ypow fst snd]. rewrite !coef_singleton.
      repeat case_decide; lia.
  - change (ypow (S (S j))) with (_mul_by_y (ypow (S j))).
    rewrite ev_mul_by_y by done.
    rewrite (Sy_ext _ (λ i, (- Z.of_nat (S j)) ^ Z.of_nat i))
      by (intros i Hi; apply IH; lia).
    rewrite Sy_powers by done. f_equal. lia.
Qed.

(** The power sums of the term of the exponent [k] in the integer-power
    mode are those of x^(2k). *)
Lemma ev_term_pair k m :
  (m < N)%nat → ev (term_pair false k) m = (2 * k) ^ Z.of_nat m.
Proof.
  intros Hm. unfold term_pair. destruct (decide (0 ≤ k)).
  - rewrite ev_xpow by done. f_equal. lia.
  - rewrite ev_ypow by done. f_equal. lia.
Qed.

Lemma ev_unfold AB m :
  ev AB m = bsum (λ d, coef AB.1 d * pi d m + coef AB.2 d * xi d m) N.
Proof. reflexivity. Qed.

(** The pair that [jones_to_Vxp] returns has the power sums of V. *)
Lemma ev_jones coefs m :
  (m < N)%nat →
  ev (accumulate_spec false (∅, ∅) coefs) m
  = 2 ^ Z.of_nat m * moment coefs m.
Proof.
  intros Hm. rewrite ev_unfold.
  set (F := λ (d : nat) (kc : Z * Z),
         kc.2 * (coef (term_pair false kc.1).1 d * pi d m
                 + coef (term_pair false kc.1).2 d * xi d m)).
  trans (bsum (λ d, csum (F d) coefs) N).
  - apply bsum_ext. intros d _.
    destruct (coef_accumulate_spec false coefs (∅, ∅) d) as [-> ->].
    rewrite !coef_empty, !Z.add_0_l.
    rewrite !(Z.mul_comm (csum _ _)), <- !csum_scal, <- csum_add.
    apply csum_ext. intros kc. unfold F. ring.
  - rewrite bsum_csum. unfold moment. rewrite <- csum_scal.
    apply csum_ext. intros [k c]. unfold F. rewrite bsum_scal.
    rewrite <- (ev_unfold (term_pair false (k, c).1) m).
    rewrite ev_term_pair by done. cbn [fst snd].
    rewrite Z.pow_mul_l. ring.
Qed.
End moments_of_tables.

(** ** The two engines on integer-power input *)

Section valuation.
Import JVP Ring Moments.

Lemma qmoment_den1 coefs m : qmoment coefs 1 m = Z2Qc (moment coefs m).
Proof.
  unfold moment. induction coefs as [|[k c] rest IH]; cbn [qmoment csum].
  - done.
  - rewrite IH. cbn [fst snd]. rewrite Z2Qc_add, Z2Qc_mul, Z2Qc_pow.
    do 3 f_equal. apply Qc_is_canon. simpl. rewrite !Qred_correct.
    unfold Qdiv. change (/ inject_Z 1)%Q with 1%Q.
    by rewrite Qmult_1_r.
Qed.

(** A pair with separated parities whose merged coefficients vanish at
    the degrees 1, ..., D - 1 has no coefficient there at all. *)
Lemma pair_par_split AB d :
  pair_par true AB → merged AB d = 0 → coef AB.1 d = 0 ∧ coef AB.2 d = 0.
Proof.
  intros [HA HB] Hm. unfold merged in Hm.
  destruct (Nat.even d) eqn:E.
  - assert (coef AB.2 d = 0) by (apply HB; by rewrite E). lia.
  - assert (coef AB.1 d = 0) by (apply HA; by rewrite E). lia.
Qed.

Lemma bsum_only (f : nat → Z) n D :
  (D < n)%nat → (∀ d, (d < n)%nat → d ≠ D → f d = 0) → bsum f n = f D.
Proof.
  induction n as [|n IH]; intros HD H; [lia |]. cbn [bsum].
  destruct (decide (D = n)) as [->|Hne].
  - rewrite bsum_zero; [lia |]. intros i Hi. apply H; lia.
  - rewrite IH, (H n) by (try intros; try apply H; lia). lia.
Qed.

(** Below the index that [Jm_jvp] returns the power sums vanish. *)
Lemma ev_below AB D m :
  pair_par true AB →
  (∀ j, (1 ≤ j < D)%nat → merged AB j = 0) →
  (1 ≤ m < D)%nat → (m < N)%nat → ev AB m = 0.
Proof.
  intros Hpar Hz Hm HmN. rewrite ev_unfold. apply bsum_zero.
  intros d Hd. destruct (decide (d = 0%nat)) as [->|Hd0].
  - destruct Hpar as [_ HB]. rewrite (HB 0%nat) by done.
    destruct (table_facts 0 m ltac:(unfold N; lia) HmN)
      as (_ & _ & _ & _ & _ & _ & _ & _ & _ & -> & _); lia.
  - destruct (decide (d < D)%nat) as [Hlt|Hge].
    + destruct (pair_par_split AB d Hpar) as [-> ->]; [apply Hz |]; lia.
    + destruct (table_facts d m Hd HmN) as (H & _).
      destruct H as [-> ->]; lia.
Qed.

(** At that index the power sum is the merged coefficient times a
    nonzero constant. *)
Lemma ev_at AB D :
  pair_par true AB →
  (∀ j, (1 ≤ j < D)%nat → merged AB j = 0) →
  (1 ≤ D < N)%nat → ev AB D = merged AB D * pi D D.
Proof.
  intros Hpar Hz HD. rewrite ev_unfold.
  rewrite (bsum_only _ N D) by first
    [ lia
    | intros d Hd Hne; destruct (decide (d = 0%nat)) as [->|Hd0];
      [ destruct Hpar as [_ HB]; rewrite (HB 0%nat) by done;
        destruct (table_facts 0 D ltac:(unfold N; lia) ltac:(lia))
          as (_ & _ & _ & _ & _ & _ & _ & _ & _ & -> & _); lia
      | destruct (decide (d < D)%nat) as [Hlt|Hge];
        [ destruct (pair_par_split AB d Hpar) as [-> ->];
          [apply Hz |]; lia
        | destruct (table_facts d D Hd ltac:(lia)) as (H & _);
          destruct H as [-> ->]; lia ] ] ].
  destruct (table_facts D D ltac:(lia) ltac:(lia)) as (_ & <- & _).
  unfold merged. ring.
Qed.

Lemma pi_diag_nz D : (D < N)%nat → pi D D ≠ 0.
Proof.
  intros HD. by destruct (table_facts D D HD HD) as (_ & _ & H & _).
Qed.

(** The index of the JVP path, when it is below twelve, is the order of
    the first nonzero power sum of the coefficient map. *)
Lemma Jm_jvp_moment coefs D :
  rbind (jones_to_Vxp coefs false) Jm_jvp = Ok D →
  (1 ≤ D)%nat
  ∧ (∀ m, (1 ≤ m < D)%nat → (m < N)%nat → moment coefs m = 0)
  ∧ ((D < N)%nat → moment coefs D ≠ 0).
Proof.
  rewrite jones_to_Vxp_spec. cbn [rbind].
  intros (HD & Hnz & Hz)%Jm_jvp_Ok.
  pose proof (pair_par_jones coefs) as Hpar. split_and!; [done | |].
  - intros m Hm HmN.
    pose proof (ev_below _ D m Hpar Hz Hm HmN) as E.
    rewrite ev_jones in E by done.
    apply Z.mul_eq_0 in E as [E|E]; [| done].
    apply Z.pow_eq_0_iff in E. lia.
  - intros HDN E.
    pose proof (ev_at _ D Hpar Hz ltac:(lia)) as E'.
    rewrite ev_jones, E in E' by done.
    symmetry in E'. rewrite Z.mul_0_r in E'.
    apply Z.mul_eq_0 in E' as [E'|E']; [done |].
    by apply pi_diag_nz in E'.
Qed.

(** The index of the BL path at order [n] with denominator 1. *)
Lemma Jm_bl_moment coefs n D :
  0 ≤ n →
  rbind (BL.taylor_from_jones coefs n 1) Jm_bl = Ok D ↔
  (1 ≤ D ≤ Z.to_nat n)%nat ∧ moment coefs D ≠ 0
  ∧ ∀ j, (1 ≤ j < D)%nat → moment coefs j = 0.
Proof.
  intros Hn. rewrite taylor_from_jones_closed by lia. cbn [rbind].
  rewrite Jm_bl_closed. rewrite Z2Qc_0.
  assert (∀ m, (qmoment coefs 1 m / Z2Qc (factorial m))%Qc = 0%Qc
               ↔ moment coefs m = 0) as Hiff.
  { intros m. rewrite Qcdiv_eq0 by apply Z2Qc_factorial_nz.
    rewrite qmoment_den1, <- Z2Qc_0. apply Z2Qc_eq0. }
  split; intros (H1 & H2 & H3); (split; [done |]); split.
  - intros E. apply H2. by apply Hiff.
  - intros j Hj. by apply Hiff, H3.
  - intros E. apply H2. by apply Hiff.
  - intros j Hj. by apply Hiff, H3.
Qed.
End valuation.

(** C1, in the convention in which it holds: on integer-power exponents,
    the BL path at order 11 with [exponent_den = 1] and the JVP path with
    [input_q_is_half_power = False], which doubles the exponents, return
    the same index whenever both return one.  This is the configuration
    of [Jtransform]. *)
Theorem C1_integer_power_paths_agree (coefs : coef_map) (a b : nat) :
  rbind (BL.taylor_from_jones coefs 11 1) Jm_bl = Ok a →
  rbind (JVP.jones_to_Vxp coefs false) Jm_jvp = Ok b →
  a = b.
Proof.
  intros (Ha & Hanz & Haz)%Jm_bl_moment (Hb & Hbz & Hbnz)%Jm_jvp_moment;
    [| lia].
  change (Z.to_nat 11) with 11%nat in Ha. unfold Moments.N in *.
  destruct (Nat.lt_trichotomy a b) as [Hlt|[->|Hgt]]; [| done |].
  - destruct Hanz. apply Hbz; lia.
  - destruct Hbnz; [lia |]. apply Haz. lia.
Qed.

Lemma C1_integer_power_paths_agree_witness :
  rbind (BL.taylor_from_jones trefoil 11 1) Jm_bl = Ok 2%nat
  ∧ rbind (JVP.jones_to_Vxp trefoil false) Jm_jvp = Ok 2%nat
  ∧ 2%nat = 2%nat.
Proof.
  split; [by vm_compute |]. split; [by vm_compute |].
  apply (C1_integer_power_paths_agree trefoil 2 2); by vm_compute.
Defined.

(** C1 as stated fails in the half-power convention: on the map
    [{2: 2, -1: 1, -2: 1}] read as powers of q^(1/2) by both engines, the
    BL path returns 1 and the JVP path returns 2. *)
Lemma C1_half_power_paths_differ :
  rbind (BL.taylor_from_jones [(2, 2); (-1, 1); (-2, 1)] 11 2) Jm_bl
  = Ok 1%nat
  ∧ rbind (JVP.jones_to_Vxp [(2, 2); (-1, 1); (-2, 1)] true) Jm_jvp
    = Ok 2%nat.
Proof. by vm_compute. Qed.

(** ** Dictionaries *)

Section dict_facts.
Context {K V : Type} `{EqDecision K}.
Implicit Types (k : K) (v : V) (d : list (K * V)).

Lemma dict_get_set_eq k v d : dict_get k (dict_set k v d) = Some v.
Proof.
  induction d as [|[k' v'] d IH]; cbn [dict_set dict_get].
  - by rewrite decide_True.
  - destruct (decide (k = k')) as [->|Hne]; cbn [dict_get].
    + by rewrite decide_True.
    + by rewrite decide_False.
Qed.

Lemma dict_get_set_ne k k' v d :
  k ≠ k' → dict_get k' (dict_set k v d) = dict_get k' d.
Proof.
  intros Hne. induction d as [|[k0 v0] d IH]; cbn [dict_set dict_get].
  - by rewrite decide_False.
  - destruct (decide (k = k0)) as [->|Hne0]; cbn [dict_get].
    + by rewrite !decide_False.
    + by rewrite IH.
Qed.

(** Assigning to a key that is present keeps the keys and their order. *)
Lemma dict_set_keys k v d :
  is_Some (dict_get k d) → (dict_set k v d).*1 = d.*1.
Proof.
  induction d as [|[k0 v0] d IH]; cbn [dict_set dict_get].
  - by intros [? [=]].
  - destruct (decide (k = k0)) as [->|Hne]; [done |].
    intros Hs. cbn [fmap list_fmap fst]. f_equal. by apply IH.
Qed.

Lemma dict_get_None_keys k d : dict_get k d = None ↔ k ∉ d.*1.
Proof.
  induction d as [|[k0 v0] d IH]; cbn [dict_get fmap list_fmap fst].
  - split; [intros _; apply not_elem_of_nil | done].
  - rewrite not_elem_of_cons. destruct (decide (k = k0)) as [->|Hne].
    + split; [done | by intros [? _]].
    + rewrite IH. split; [done | by intros [_ ?]].
Qed.
End dict_facts.

(** ** The shard classifier *)

Section classifier.
Import Classifier.

(** The run lists of [classify] after a record whose index exceeds the
    threshold. *)
Lemma classify_knot_ids cfg knot_label crossings knot_id coefs st m r runs :
  Jtransform (rep cfg) coefs = Ok m →
  dict_get crossings (local_Jm_table st) = Some r →
  (min_m cfg < m)%nat →
  dict_get m (local_knot_ids st) = Some runs →
  local_knot_ids (classify cfg knot_label crossings knot_id coefs st)
  = dict_set m (update_runs (sample_interval cfg) crossings knot_id
                            knot_label runs)
             (local_knot_ids st).
Proof.
  intros HJ Hr Hm Hruns. unfold classify. rewrite HJ, Hr.
  cbn [local_knot_ids local_Jm_table count row_max row_hist row_holder].
  rewrite (decide_True (P := (min_m cfg < m)%nat)) by done.
  rewrite Hruns. by case_decide.
Qed.
End classifier.

Section classifier_claims.
Import Classifier.

(** C5, as the code has it.  For a record whose index [m] exceeds the
    threshold, whose bucket is a row of the table and whose [m] is a key of
    the run table, only the run list of [m] changes: to a list that starts
    the first run when it was empty; gets a new run appended when the
    identifier is beyond the sample interval of the last run or the bucket
    differs; has the upper bound of its last run raised by one when the
    identifier is the successor of that bound (and within the interval, in
    the same bucket); and stays as it was in the remaining case, an
    identifier within the interval that is not the successor. *)
Theorem C5_run_bookkeeping (cfg : config) (knot_label crossings : string)
    (knot_id : Z) (coefs : coef_map) (st : state) (m : nat) (r : row)
    (runs : list run) :
  Jtransform (rep cfg) coefs = Ok m →
  dict_get crossings (local_Jm_table st) = Some r →
  (min_m cfg < m)%nat →
  dict_get m (local_knot_ids st) = Some runs →
  ∃ runs',
    dict_get m (local_knot_ids
                  (classify cfg knot_label crossings knot_id coefs st))
    = Some runs'
    ∧ (∀ m', m' ≠ m →
         dict_get m' (local_knot_ids
                        (classify cfg knot_label crossings knot_id coefs st))
         = dict_get m' (local_knot_ids st))
    ∧ match last runs with
      | None => runs' = [Run crossings knot_id knot_id knot_label]
      | Some l =>
          (knot_id > run_last l + sample_interval cfg
           ∨ crossings ≠ run_bucket l →
           runs' = runs ++ [Run crossings knot_id knot_id knot_label])
          ∧ (knot_id ≤ run_last l + sample_interval cfg →
             crossings = run_bucket l →
             knot_id = run_last l + 1 →
             runs' = removelast runs
                     ++ [Run (run_bucket l) (run_first l) knot_id
                             (run_label l)])
          ∧ (knot_id ≤ run_last l + sample_interval cfg →
             crossings = run_bucket l →
             knot_id ≠ run_last l + 1 →
             runs' = runs)
      end.
Proof.
  intros HJ Hr Hm Hruns.
  rewrite (classify_knot_ids _ _ _ _ _ _ _ _ _ HJ Hr Hm Hruns).
  eexists. split; [apply dict_get_set_eq |].
  split; [intros m' Hne; by apply dict_get_set_ne |].
  unfold update_runs. destruct (last runs) as [l|] eqn:El.
  - split_and!.
    + intros Hnew.
      destruct (bool_decide (knot_id > run_last l + sample_interval cfg)
                || bool_decide (crossings ≠ run_bucket l)) eqn:E; [done |].
      apply orb_false_elim in E as [E1%bool_decide_eq_false
                                    E2%bool_decide_eq_false].
      destruct Hnew as [?|?]; [lia | done].
    + intros Hin Hb Hs.
      rewrite bool_decide_eq_false_2, bool_decide_eq_false_2 by
        first [lia | by intros ?].
      cbn [orb]. rewrite decide_True by done. by rewrite Hs.
    + intros Hin Hb Hs.
      rewrite bool_decide_eq_false_2, bool_decide_eq_false_2 by
        first [lia | by intros ?].
      cbn [orb]. by rewrite decide_False.
  - apply last_None in El. by subst runs.
Qed.

Lemma C5_run_bookkeeping_witness :
  let st := process_records (jvp_config 1) initial [trefoil_record "8_5"] in
  Jtransform (rep (jvp_config 1)) trefoil = Ok 2%nat
  ∧ dict_get 2%nat
      (local_knot_ids (classify (jvp_config 1) "8_6" "8" 6 trefoil st))
    = Some [Run "8" 5 6 "8_5"].
Proof.
  intros st. split; [by vm_compute |].
  destruct (C5_run_bookkeeping (jvp_config 1) "8_6" "8" 6 trefoil st
              2 (Row "" 2 [(2%nat, 1)]) [Run "8" 5 5 "8_5"])
    as (runs' & -> & _ & H); [by vm_compute | by vm_compute | cbn; lia | by vm_compute |].
  cbn [last] in H. destruct H as (_ & -> & _); by vm_compute.
Defined.

(** C5 as stated fails: with the sample interval 3, the record 8_7
    after 8_5, same index and same bucket, is within the interval and
    not the successor; the run of 8_5 is not extended to 7 but left as
    it is, and no run is started. *)
Lemma C5_no_jump_within_interval :
  dict_get 2%nat
    (process_split_file (jvp_config 3)
       [trefoil_record "8_5"; trefoil_record "8_7"]).2
  = Some [Run "8" 5 5 "8_5"].
Proof. by vm_compute. Qed.



End classifier_claims.

(** ** The aggregator *)

Section dict_more.
Context {K V : Type} `{EqDecision K}.
Implicit Types (k : K) (v : V) (d : list (K * V)).

Lemma dict_get_Some_elem k v d : dict_get k d = Some v → (k, v) ∈ d.
Proof.
  induction d as [|[k0 v0] d IH]; cbn [dict_get]; [done |].
  destruct (decide (k = k0)) as [->|Hne].
  - intros [= ->]. left.
  - intros Hd. right. by apply IH.
Qed.

Lemma dict_set_Forall (P : K * V → Prop) k v d :
  P (k, v) → Forall P d → Forall P (dict_set k v d).
Proof.
  intros Hkv. induction 1 as [|[k0 v0] d H0 Hd IH]; cbn [dict_set].
  - by repeat constructor.
  - destruct (decide (k = k0)); constructor; auto.
Qed.
End dict_more.

Section aggregator.
Import Classifier Aggregator.

Lemma dict_add_keys m v h h' :
  dict_add m v h = Ok h' → h'.*1 = h.*1.
Proof.
  unfold dict_add. destruct (dict_get m h) as [v0|] eqn:E; [| done].
  intros [= <-]. apply dict_set_keys. by rewrite E.
Qed.

Lemma add_hist_keys src : ∀ h h', add_hist src h = Ok h' → h'.*1 = h.*1.
Proof.
  induction src as [|[m v] src IH]; intros h h'; cbn [add_hist].
  - by intros [= <-].
  - intros (h1 & H1 & H2)%rbind_Ok.
    rewrite (IH _ _ H2). by apply dict_add_keys in H1.
Qed.

Lemma merge_row_inv merged cd merged' :
  merge_row merged cd = Ok merged' →
  Forall hist_keys_ok merged →
  merged'.*1 = merged.*1 ∧ Forall hist_keys_ok merged'.
Proof.
  destruct cd as [c data]. unfold merge_row.
  destruct (dict_get c merged) as [r|] eqn:E; [| done].
  intros (h & Hh & [= <-])%rbind_Ok Hall. split.
  - apply dict_set_keys. by rewrite E.
  - apply dict_set_Forall; [| done].
    apply add_hist_keys in Hh.
    apply dict_get_Some_elem in E.
    rewrite Forall_forall in Hall. specialize (Hall _ E).
    unfold hist_keys_ok in *. cbn [snd] in *.
    case_decide; cbn [row_hist]; congruence.
Qed.

Lemma merge_table_inv Jm_table : ∀ merged merged',
  merge_table merged Jm_table = Ok merged' →
  Forall hist_keys_ok merged →
  merged'.*1 = merged.*1 ∧ Forall hist_keys_ok merged'.
Proof.
  induction Jm_table as [|cd rest IH]; intros merged merged';
    cbn [merge_table].
  - by intros [= <-].
  - intros (m1 & H1 & H2)%rbind_Ok Hall.
    destruct (merge_row_inv _ _ _ H1 Hall) as [Hk Hall1].
    destruct (IH _ _ H2 Hall1) as [Hk' Hall']. split; [congruence | done].
Qed.

Lemma merge_loop_inv results : ∀ acc table ids,
  merge_loop acc results = Ok (table, ids) →
  Forall hist_keys_ok acc.1 →
  table.*1 = acc.1.*1 ∧ Forall hist_keys_ok table.
Proof.
  induction results as [|[Jm_table knot_ids] rest IH]; intros acc table ids;
    cbn [merge_loop].
  - by intros [= ->].
  - intros (t & H1 & H2)%rbind_Ok Hall.
    destruct (merge_table_inv _ _ _ H1 Hall) as [Hk Hall1].
    destruct (IH _ _ _ H2 Hall1) as [Hk' Hall']. cbn [fst] in *.
    split; [congruence | done].
Qed.

(** The merged table has the nineteen buckets, each row with the keys
    2, ..., 10. *)
Lemma merge_results_inv results table ids :
  merge_results results = Ok (table, ids) →
  table.*1 = bucket_labels ∧ Forall hist_keys_ok table.
Proof.
  intros H. apply merge_loop_inv in H as [Hk Hall].
  - split; [| done]. rewrite Hk. by vm_compute.
  - cbn [fst]. unfold merged_initial. apply Forall_fmap, Forall_forall.
    intros c _. by vm_compute.
Qed.

Lemma bucket_labels_NoDup : NoDup bucket_labels.
Proof. apply (bool_decide_unpack _). by vm_compute. Qed.

(** The entries of a histogram with consecutive keys that [probs_of]
    keeps. *)
Lemma filter_consecutive {A} (mx : nat) (f : nat * Z → A) : ∀ hist a n,
  hist.*1 = seq a n →
  map f (filter (λ ip, (ip.1 ≤ mx)%nat) hist)
  = map (λ m, f (m, default 0 (dict_get m hist)))
        (seq a (min (mx + 1 - a) n)).
Proof.
  induction hist as [|[k v] hist IH]; intros a n Hk.
  - destruct n; [| done]. by rewrite Nat.min_0_r.
  - destruct n as [|n]; [done |]. cbn [fmap list_fmap fst seq] in Hk.
    injection Hk as -> Hk.
    destruct (decide (a ≤ mx)%nat) as [Hle|Hgt].
    + rewrite filter_cons_True by done.
      replace (min (mx + 1 - a) (S n)) with (S (min (mx + 1 - S a) n))
        by lia.
      cbn [map seq dict_get]. rewrite decide_True by done. f_equal.
      rewrite (IH _ _ Hk). apply map_ext_in. intros m Hm.
      apply in_seq in Hm. rewrite decide_False by lia. done.
    + rewrite filter_cons_False by done.
      replace (min (mx + 1 - a) (S n)) with 0%nat by lia.
      rewrite (IH _ _ Hk).
      replace (min (mx + 1 - S a) n) with 0%nat by lia. done.
Qed.
End aggregator.

(** ** Floats: the quotient of two counts *)

Section floats.

(** The operations of the float specification are those of the core
    library; they are turned into the ones [lia] knows. *)
Ltac std_Z :=
  change IntDef.Z.add with Z.add in *; change IntDef.Z.sub with Z.sub in *;
  change IntDef.Z.mul with Z.mul in *; change IntDef.Z.max with Z.max in *;
  change IntDef.Z.min with Z.min in *; change IntDef.Z.leb with Z.leb in *;
  change IntDef.Z.shiftl with Z.shiftl in *;
  change IntDef.Z.div_eucl with Z.div_eucl in *.

Lemma digits2_pos_size p : digits2_pos p = Pos.size p.
Proof. induction p as [p IH|p IH|]; cbn; congruence. Qed.

Lemma Zdigits2_log2 m : 0 < m → Zdigits2 m = Z.log2 m + 1.
Proof.
  destruct m as [|p|p]; [lia | | lia]. intros _. cbn [Zdigits2].
  rewrite digits2_pos_size. destruct p as [p|p|]; cbn [Pos.size Z.log2]; lia.
Qed.

Lemma Zdigits2_nonneg m : 0 ≤ Zdigits2 m.
Proof. destruct m; cbn; lia. Qed.

Lemma Zdigits2_mono a b : 0 ≤ a ≤ b → Zdigits2 a ≤ Zdigits2 b.
Proof.
  intros [Ha Hab]. destruct (decide (a = 0)) as [->|Hne].
  - apply Zdigits2_nonneg.
  - rewrite !Zdigits2_log2 by lia.
    pose proof (Z.log2_le_mono a b Hab). lia.
Qed.

Lemma Zdigits2_succ a : 0 ≤ a → Zdigits2 (a + 1) ≤ Zdigits2 a + 1.
Proof.
  intros Ha. destruct (decide (a = 0)) as [->|Hne]; [done |].
  rewrite !Zdigits2_log2 by lia.
  pose proof (Z.log2_succ_le a). unfold Z.succ in *. lia.
Qed.

Lemma Zdigits2_pow2 a s : 0 ≤ s → 0 ≤ a ≤ 2 ^ s → Zdigits2 a ≤ s + 1.
Proof.
  intros Hs [Ha Has]. destruct (decide (a = 0)) as [->|Hne]; [cbn; lia |].
  rewrite Zdigits2_log2 by lia.
  pose proof (Z.log2_le_mono a (2 ^ s) Has) as H.
  rewrite Z.log2_pow2 in H by done. lia.
Qed.

Lemma shr_1_bound mrs :
  0 ≤ shr_m mrs → 0 ≤ shr_m (shr_1 mrs) ≤ shr_m mrs.
Proof.
  destruct mrs as [m r s]. cbn [shr_m].
  destruct m as [|[p|p|]|p]; cbn; lia.
Qed.

Lemma iter_shr_1_bound p : ∀ mrs,
  0 ≤ shr_m mrs → 0 ≤ shr_m (SpecFloat.iter_pos shr_1 p mrs) ≤ shr_m mrs.
Proof.
  induction p as [p IH|p IH|]; intros mrs Hm; cbn [SpecFloat.iter_pos].
  - pose proof (shr_1_bound mrs Hm) as H1.
    pose proof (IH _ (proj1 H1)) as H2.
    pose proof (IH _ (proj1 H2)) as H3. lia.
  - pose proof (IH _ Hm) as H2.
    pose proof (IH _ (proj1 H2)) as H3. lia.
  - by apply shr_1_bound.
Qed.

Lemma shr_bound mrs e n mrs' e' :
  shr mrs e n = (mrs', e') → 0 ≤ shr_m mrs →
  0 ≤ shr_m mrs' ≤ shr_m mrs ∧ (e' = e ∨ (0 < n ∧ e' = e + n)).
Proof.
  unfold shr. destruct n as [|p|p]; intros [= <- <-] Hm.
  - split; [lia | by left].
  - split; [by apply iter_shr_1_bound | right; lia].
  - split; [lia | by left].
Qed.

Lemma shr_m_of_loc m l : shr_m (shr_record_of_loc m l) = m.
Proof. by destruct l as [|[]]. Qed.

Lemma round_nearest_even_bound m l :
  m ≤ round_nearest_even m l ≤ m + 1.
Proof.
  destruct l as [|[]]; cbn [round_nearest_even]; try lia.
  destruct (Z.even m); lia.
Qed.

(** Rounding a number below 2^1023 does not overflow. *)
Lemma binary_round_aux_finite sx mx ex lx :
  0 ≤ mx → ex ≤ 971 →
  Zdigits2 mx + 1 + Z.max ex (fexp 53 1024 (Zdigits2 mx + ex)) ≤ 1024 →
  is_finite (binary_round_aux 53 1024 sx mx ex lx) = true.
Proof.
  intros Hm Hex Hd. unfold binary_round_aux, shr_fexp.
  pose proof (Zdigits2_nonneg mx) as Hd0.
  destruct (shr (shr_record_of_loc mx lx) ex _) as [mrs' e1] eqn:E1.
  apply shr_bound in E1 as [[Hm1 Hm1'] He1]; rewrite shr_m_of_loc in *; [| done].
  destruct mrs' as [m' r' s']. cbn [shr_m] in *.
  pose proof (round_nearest_even_bound m'
                (loc_of_shr_record (Build_shr_record m' r' s'))) as [Hr Hr'].
  set (m1 := round_nearest_even _ _) in *. clearbody m1.
  assert (Zdigits2 m1 ≤ Zdigits2 mx + 1) as Hd1.
  { etrans; [apply (Zdigits2_mono m1 (mx + 1)); lia |].
    by apply Zdigits2_succ. }
  pose proof (Zdigits2_nonneg m1) as Hd10.
  destruct (shr (shr_record_of_loc m1 loc_Exact) e1 _) as [mrs'' e2] eqn:E2.
  apply shr_bound in E2 as [[Hm2 Hm2'] He2]; rewrite shr_m_of_loc in *; [| clear -Hm1 Hr; lia].
  destruct mrs'' as [m'' r'' s'']. cbn [shr_m] in *.
  destruct m'' as [|m|m]; [done | | lia].
  unfold fexp, emin in *.
  std_Z. rewrite (proj2 (Z.leb_le e2 (1024 - 53))); [done |]. lia.
Qed.

Lemma binary64_div_finite (p n : positive) :
  (p ≤ n)%positive →
  is_finite (binary64_div (S754_finite false p 0) (S754_finite false n 0))
  = true.
Proof.
  intros Hpn. unfold binary64_div, SFdiv, SFdiv_core_binary. std_Z.
  pose proof (Zdigits2_mono (Z.pos p) (Z.pos n) ltac:(lia)) as Hd.
  pose proof (Zdigits2_nonneg (Z.pos p)) as Hd1.
  set (d1 := Zdigits2 (Z.pos p)) in *. set (d2 := Zdigits2 (Z.pos n)) in *.
  clearbody d1 d2.
  set (e' := Z.min (fexp 53 1024 (d1 + 0 - (d2 + 0))) (0 - 0)).
  assert (-1074 ≤ e' ≤ -53) as He.
  { unfold e', fexp, emin. std_Z. lia. }
  clearbody e'.
  destruct (0 - 0 - e') as [|s|s] eqn:Es; [lia | | lia].
  rewrite Z.shiftl_mul_pow2 by lia.
  destruct (Z.div_eucl (Z.pos p * 2 ^ Z.pos s) (Z.pos n)) as [q r] eqn:Eq.
  assert (q = (Z.pos p * 2 ^ Z.pos s) `div` Z.pos n) as Hq
    by exact (eq_sym (f_equal fst Eq)).
  assert (0 ≤ q ≤ 2 ^ Z.pos s) as Hqb.
  { rewrite Hq. split.
    - apply Z.div_pos; [| lia]. apply Z.mul_nonneg_nonneg; [lia |].
      apply Z.pow_nonneg. lia.
    - apply Z.div_le_upper_bound; [lia |].
      apply Z.mul_le_mono_nonneg_r; [| lia]. apply Z.pow_nonneg. lia. }
  pose proof (Zdigits2_pow2 q (Z.pos s) ltac:(lia) Hqb) as Hdq.
  pose proof (Zdigits2_nonneg q) as Hdq0.
  apply binary_round_aux_finite; [lia | lia |].
  unfold fexp, emin. std_Z. lia.
Qed.

(** A count divided by a total that is at least the count: the division
    returns, with the rounded quotient. *)
Lemma int_truediv_count (p n : Z) :
  0 ≤ p ≤ n → 0 < n →
  int_truediv p n = Ok (binary64_div (float_of_int p) (float_of_int n)).
Proof.
  intros Hp Hn. unfold int_truediv. rewrite decide_False by lia.
  destruct n as [|n|n]; [lia | | lia].
  destruct p as [|p|p]; [done | | lia].
  cbn [float_of_int]. cbv zeta. rewrite binary64_div_finite; [done | lia].
Qed.
End floats.

Section probabilities.
Import Classifier Aggregator.

Lemma rmap_Ok {A B} (f : A → result B) (g : A → B) (l : list A) :
  Forall (λ x, f x = Ok (g x)) l → rmap f l = Ok (map g l).
Proof.
  induction 1 as [|x l Hx _ IH]; cbn [rmap map]; [done |].
  by rewrite Hx, IH.
Qed.

Lemma dict_add_nonneg m v h h' :
  dict_add m v h = Ok h' → 0 ≤ v → hist_nonneg h → hist_nonneg h'.
Proof.
  unfold dict_add. destruct (dict_get m h) as [v0|] eqn:E; [| done].
  intros [= <-] Hv Hh. apply dict_set_Forall; [| done].
  apply dict_get_Some_elem in E. unfold hist_nonneg in Hh.
  rewrite Forall_forall in Hh. specialize (Hh _ E). cbn [snd] in *. lia.
Qed.

Lemma add_hist_nonneg src : ∀ h h',
  add_hist src h = Ok h' → hist_nonneg src → hist_nonneg h → hist_nonneg h'.
Proof.
  induction src as [|[m v] src IH]; intros h h'; cbn [add_hist].
  - by intros [= <-].
  - intros (h1 & H1 & H2)%rbind_Ok [Hv Hsrc]%Forall_cons Hh.
    apply (IH _ _ H2 Hsrc). by eapply dict_add_nonneg.
Qed.

Lemma merge_row_nonneg merged cd merged' :
  merge_row merged cd = Ok merged' →
  hist_nonneg (row_hist cd.2) → counts_nonneg merged →
  counts_nonneg merged'.
Proof.
  destruct cd as [c data]. unfold merge_row. cbn [snd].
  destruct (dict_get c merged) as [r|] eqn:E; [| done].
  intros (h & Hh & [= <-])%rbind_Ok Hdata Hall.
  apply dict_set_Forall; [| done].
  apply dict_get_Some_elem in E. unfold counts_nonneg in Hall.
  rewrite Forall_forall in Hall. specialize (Hall _ E). cbn [snd] in *.
  apply (add_hist_nonneg _ _ _ Hh) in Hdata; [| done].
  by case_decide.
Qed.

Lemma merge_table_nonneg Jm_table : ∀ merged merged',
  merge_table merged Jm_table = Ok merged' →
  counts_nonneg Jm_table → counts_nonneg merged → counts_nonneg merged'.
Proof.
  induction Jm_table as [|cd rest IH]; intros merged merged';
    cbn [merge_table].
  - by intros [= <-].
  - intros (m1 & H1 & H2)%rbind_Ok [Hcd Hrest]%Forall_cons Hall.
    apply (IH _ _ H2 Hrest). by eapply merge_row_nonneg.
Qed.

Lemma merge_loop_nonneg results : ∀ acc table ids,
  merge_loop acc results = Ok (table, ids) →
  Forall (λ res, counts_nonneg res.1) results →
  counts_nonneg acc.1 → counts_nonneg table.
Proof.
  induction results as [|[Jm_table knot_ids] rest IH]; intros acc table ids;
    cbn [merge_loop].
  - by intros [= ->].
  - intros (t & H1 & H2)%rbind_Ok [Hres Hrest]%Forall_cons Hall.
    apply (IH _ _ _ H2 Hrest). cbn [fst] in *.
    by eapply merge_table_nonneg.
Qed.

(** Adding worker tables of counts that are not negative gives a table
    of such counts. *)
Lemma merge_results_nonneg results table ids :
  merge_results results = Ok (table, ids) →
  Forall (λ res, counts_nonneg res.1) results →
  counts_nonneg table.
Proof.
  intros H Hres. apply (merge_loop_nonneg _ _ _ _ H Hres).
  cbn [fst]. unfold merged_initial, counts_nonneg.
  apply Forall_fmap, Forall_forall. intros c _. cbn [snd row_hist].
  apply Forall_fmap, Forall_forall. intros m _. done.
Qed.

Lemma hist_total_nonneg (hist : list (nat * Z)) :
  hist_nonneg hist → 0 ≤ fold_right Z.add 0 hist.*2.
Proof.
  induction 1 as [|[m v] hist Hv _ IH]; cbn [fmap list_fmap snd fold_right];
    [done |].
  cbn [snd] in Hv. lia.
Qed.

(** No count of a row exceeds the total of the row. *)
Lemma hist_nonneg_le_total (hist : list (nat * Z)) (mv : nat * Z) :
  hist_nonneg hist → mv ∈ hist → 0 ≤ mv.2 ≤ fold_right Z.add 0 hist.*2.
Proof.
  induction 1 as [|[m0 v0] hist Hv Hh IH]; [by intros ?%elem_of_nil |].
  cbn [snd] in Hv. pose proof (hist_total_nonneg hist Hh) as Hsum.
  cbn [fmap list_fmap snd fold_right].
  intros [->|Hin]%elem_of_cons; cbn [snd]; [lia |].
  specialize (IH Hin). lia.
Qed.

(** On a row of counts that are not negative, with a positive total, no
    division raises: the list of the row is that of the rounded
    quotients. *)
Lemma probs_of_counts (d : row) :
  hist_nonneg (row_hist d) → n_knots_of d > 0 →
  probs_of d (n_knots_of d)
  = Ok (map (λ ip : nat * Z,
               binary64_div (float_of_int ip.2) (float_of_int (n_knots_of d)))
            (filter (λ ip, (ip.1 ≤ row_max d)%nat) (row_hist d))).
Proof.
  intros Hh Hn. unfold probs_of. apply rmap_Ok, Forall_forall.
  intros ip [_ Hip]%list_elem_of_filter.
  apply int_truediv_count; [| lia].
  by apply hist_nonneg_le_total.
Qed.

(** What the loop of [main] leaves under a bucket. *)
Lemma probability_table_lookup table : ∀ data,
  counts_nonneg table → NoDup table.*1 →
  ∃ data', probability_table table data = Ok data'
    ∧ ∀ c, dict_get c data'
           = match dict_get c table with
             | Some d =>
                 if decide (row_holder d = EmptyString) then dict_get c data
                 else if decide (n_knots_of d > 0)
                 then Some (map (λ ip : nat * Z,
                                   binary64_div (float_of_int ip.2)
                                     (float_of_int (n_knots_of d)))
                              (filter (λ ip, (ip.1 ≤ row_max d)%nat)
                                      (row_hist d)))
                 else dict_get c data
             | None => dict_get c data
             end.
Proof.
  induction table as [|[c0 d0] rest IH]; intros data Hall Hnd.
  { by exists data. }
  apply Forall_cons in Hall as [Hd0 Hall]. cbn [snd] in Hd0.
  apply NoDup_cons in Hnd as [Hc0 Hnd].
  apply dict_get_None_keys in Hc0. cbn [fst] in Hc0.
  cbn [probability_table].
  assert (∀ data1,
    (∀ c, dict_get c data1
          = if decide (c = c0)
            then (if decide (row_holder d0 = EmptyString)
                  then dict_get c data
                  else if decide (n_knots_of d0 > 0)
                  then Some (map (λ ip : nat * Z,
                                    binary64_div (float_of_int ip.2)
                                      (float_of_int (n_knots_of d0)))
                               (filter (λ ip, (ip.1 ≤ row_max d0)%nat)
                                       (row_hist d0)))
                  else dict_get c data)
            else dict_get c data) →
    ∃ data', probability_table rest data1 = Ok data'
      ∧ ∀ c, dict_get c data'
             = match dict_get c ((c0, d0) :: rest) with
               | Some d =>
                   if decide (row_holder d = EmptyString)
                   then dict_get c data
                   else if decide (n_knots_of d > 0)
                   then Some (map (λ ip : nat * Z,
                                     binary64_div (float_of_int ip.2)
                                       (float_of_int (n_knots_of d)))
                                (filter (λ ip, (ip.1 ≤ row_max d)%nat)
                                        (row_hist d)))
                   else dict_get c data
               | None => dict_get c data
               end) as Hstep.
  { intros data1 H1. destruct (IH data1 Hall Hnd) as (data' & E & Hget).
    exists data'. split; [done |]. intros c. rewrite Hget, H1.
    cbn [dict_get]. destruct (decide (c = c0)) as [->|Hne].
    - by rewrite Hc0.
    - by destruct (dict_get c rest). }
  destruct (decide (row_holder d0 = EmptyString)) as [Hh|Hh].
  { apply Hstep. intros c. by case_decide. }
  destruct (decide (n_knots_of d0 > 0)) as [Hn|Hn].
  - rewrite probs_of_counts by done. cbn [rbind]. apply Hstep. intros c.
    destruct (decide (c = c0)) as [->|Hne].
    + apply dict_get_set_eq.
    + by apply dict_get_set_ne.
  - apply Hstep. intros c. by case_decide.
Qed.
End probabilities.

Section aggregator_claims.
Import Classifier Aggregator.

(** C6, as the code has it.  After a merge that succeeds, of worker
    tables whose counts are not negative, the loop of [main] over the
    merged table returns: no division raises.  A bucket whose row has a
    holder label, which is so when a record of index above 2 was seen in
    it, and a positive total gets the entry whose index i is the float
    quotient of the count of the index i + 2 by the total of the row, for
    the indices from 2 up to the maximum of the row, at most 10.  A bucket
    whose row has no holder gets no entry: what the file had under it
    stays. *)
Theorem C6_probability_entry
    (results : list (list (string * row) * list (nat * list run)))
    (table : list (string * row)) (ids : list (nat * list run))
    (data : list (string * list spec_float)) (c : string) (d : row) :
  merge_results results = Ok (table, ids) →
  Forall (λ res, counts_nonneg res.1) results →
  dict_get c table = Some d →
  ∃ data',
    probability_table table data = Ok data'
    ∧ (row_holder d ≠ EmptyString → n_knots_of d > 0 →
       dict_get c data'
       = Some (map (λ m,
                      binary64_div
                        (float_of_int (default 0%Z (dict_get m (row_hist d))))
                        (float_of_int (n_knots_of d)))
                   (seq 2 (min (row_max d) 10 - 1))))
    ∧ (row_holder d = EmptyString → dict_get c data' = dict_get c data).
Proof.
  intros Hm Hres Hd.
  pose proof (merge_results_nonneg _ _ _ Hm Hres) as Hnn.
  apply merge_results_inv in Hm as [Hk Hall].
  destruct (probability_table_lookup table data Hnn) as (data' & E & Hget).
  { rewrite Hk. apply bucket_labels_NoDup. }
  exists data'. split; [done |]. rewrite Hget, Hd. split.
  - intros Hh Hn. rewrite decide_False, decide_True by done. f_equal.
    apply dict_get_Some_elem in Hd. rewrite Forall_forall in Hall.
    specialize (Hall _ Hd). unfold hist_keys_ok in Hall. cbn [snd] in Hall.
    rewrite (filter_consecutive (row_max d)
               (λ ip, binary64_div (float_of_int ip.2)
                        (float_of_int (n_knots_of d)))
               _ _ _ Hall).
    replace (min (row_max d + 1 - 2) 9) with (min (row_max d) 10 - 1)%nat
      by lia.
    done.
  - intros Hh. by rewrite decide_True.
Qed.

Lemma C6_probability_entry_witness :
  let results :=
    [process_split_file (jvp_config 1)
       [trefoil_record "8_3"; trefoil_record "8_4";
        ("8_5"%string, KnotData (Some raw_jm3))]]
  in
  ∃ table ids d data',
    merge_results results = Ok (table, ids)
    ∧ dict_get "8"%string table = Some d
    ∧ row_holder d = "8_5"%string ∧ row_max d = 3%nat ∧ n_knots_of d = 3
    ∧ probability_table table [] = Ok data'
    ∧ dict_get "8"%string data'
      = Some [S754_finite false 6004799503160661 (-53);
              S754_finite false 6004799503160661 (-54)].
Proof.
  intros results.
  destruct (merge_results results) as [[table ids]|e] eqn:E;
    [| by vm_compute in E].
  pose proof E as E'. vm_compute in E'. injection E' as Ht Hi.
  destruct (dict_get "8"%string table) as [d|] eqn:Ed;
    [| by rewrite <- Ht in Ed; vm_compute in Ed].
  pose proof Ed as Ed'. rewrite <- Ht in Ed'. vm_compute in Ed'.
  injection Ed' as Hd.
  assert (row_holder d = "8_5"%string ∧ row_max d = 3%nat
          ∧ n_knots_of d = 3) as (H1 & H2 & H3).
  { rewrite <- Hd. vm_compute. auto. }
  destruct (C6_probability_entry results table ids [] "8" d E)
    as (data' & Ep & Hentry & _); [| done |].
  { apply (bool_decide_unpack _). by vm_compute. }
  exists table, ids, d, data'. split; [done |]. split; [done |].
  split; [done |]. split; [done |]. split; [done |]. split; [done |].
  rewrite Hentry.
  - rewrite H2, H3, <- Hd. vm_compute. reflexivity.
  - rewrite H1. discriminate.
  - rewrite H3. lia.
Defined.

(** C6 as stated fails: a shard with the trefoil 3_1 alone gives the bucket
    3 one classified record, of index 2, and the probability table gets no
    entry for the bucket. *)
Lemma C6_bucket_without_entry :
  ∃ table ids d data',
    merge_results [process_split_file (jvp_config 1) [trefoil_record "3_1"]]
    = Ok (table, ids)
    ∧ dict_get "3"%string table = Some d
    ∧ dict_get 2%nat (row_hist d) = Some 1
    ∧ n_knots_of d = 1
    ∧ probability_table table [] = Ok data'
    ∧ dict_get "3"%string data' = None.
Proof.
  eexists _, _, _, _. split; [by vm_compute |].
  split; [by vm_compute |]. split; [by vm_compute |].
  split; [by vm_compute |]. split; by vm_compute.
Qed.
End aggregator_claims.

(** ** The shard splitter *)

Section splitter_claims.
Import Splitter.

(** C4 fails on a corpus of 300 records split in two.  The target offset
    of the second shard falls in the key [coeffs] of the record 12a_152;
    the boundary finder stops at that letter and goes back to the quote
    before it, so that the first shard ends inside the record and the
    second begins with the rest of it.  Neither is a JSON object: the
    braces of the first leave one open, those of the second close one too
    many. *)
Theorem C4_split_cuts_inside_a_record :
  ∃ s0 s1,
    ultra_fast_split (corpus (sample_records 300 [(1, 1)])) 2
    = Returns [s0; s1]
    ∧ drop (length s0 - 14) s0 = quoted "12a_152" ++ B ": {}}"
    ∧ take 29 s1
      = B "{" ++ quoted "data" ++ B ":{" ++ quoted "coeffs" ++ B ": {"
          ++ quoted "1" ++ B ": 1}},"
    ∧ brace_depth s0 = 1 ∧ brace_depth s1 = -1.
Proof.
  eexists _, _. split; [vm_compute; reflexivity |]. by vm_compute.
Qed.
End splitter_claims.

(** ** The mirror in the JVP engine *)

Section mirror.
Import JVP Ring.

Lemma sgn_cases d : (sgn d = 1 ∨ sgn d = -1) ∧ sgn (S d) = - sgn d.
Proof.
  unfold sgn. rewrite even_S_negb. destruct (Nat.even d); cbn [negb]; lia.
Qed.

Lemma mir_sym P Q : mir P Q → mir Q P.
Proof.
  intros H d. destruct (H d) as [H1 H2]. destruct d as [|d].
  - change (sgn 0) with 1 in *. lia.
  - cbn [pred] in *. destruct (H d) as [_ H3].
    destruct (sgn_cases d) as [[Hs|Hs] HS]; rewrite HS, Hs in *; lia.
Qed.

Lemma mir_xpow_0 : mir (xpow 0) (ypow 0).
Proof.
  intros d. cbn [xpow ypow fst snd]. rewrite !coef_empty, !coef_singleton.
  destruct d as [|d]; cbn [pred]; [by vm_compute |].
  rewrite !decide_False by lia. lia.
Qed.

Lemma mir_xpow_1 : mir (xpow 1) (ypow 1).
Proof.
  intros d. cbn [xpow ypow fst snd]. rewrite !coef_singleton.
  destruct d as [|[|d]]; cbn [pred]; [by vm_compute.. |].
  rewrite !decide_False by lia. lia.
Qed.

Lemma mir_mul_by_x P Q : mir P Q → mir (_mul_by_x P) (_mul_by_y Q).
Proof.
  destruct P as [A B], Q as [A' B']. intros H d.
  cbn [_mul_by_x _mul_by_y fst snd].
  rewrite !coef_poly_add, !coef_poly_scalar_mul.
  destruct (H d) as [H1 H2]. cbn [fst snd] in *.
  destruct d as [|d].
  - rewrite !coef_poly_mul_p_O. change (sgn 0) with 1 in *. lia.
  - rewrite !coef_poly_mul_p_S. cbn [pred] in *.
    destruct (H d) as [H3 H4]. cbn [fst snd] in *.
    destruct (sgn_cases d) as [[Hs|Hs] HS]; rewrite HS, Hs in *;
      destruct d as [|d]; cbn [pred] in *;
      rewrite ?coef_poly_mul_p_O, ?coef_poly_mul_p_S; lia.
Qed.

Lemma mir_xpow j : mir (xpow j) (ypow j).
Proof.
  destruct j as [|j]; [apply mir_xpow_0 |].
  induction j as [|j IH]; [apply mir_xpow_1 |].
  change (xpow (S (S j))) with (_mul_by_x (xpow (S j))).
  change (ypow (S (S j))) with (_mul_by_y (ypow (S j))).
  by apply mir_mul_by_x.
Qed.

(** The pairs of the exponents [k] and [-k] are mirror images. *)
Lemma mir_term_pair half k : mir (term_pair half k) (term_pair half (- k)).
Proof.
  unfold term_pair.
  destruct (decide (0 ≤ k)) as [Hk|Hk], (decide (0 ≤ - k)) as [Hk'|Hk'];
    try lia.
  - assert (k = 0) as -> by lia. destruct half; apply mir_xpow_0.
  - rewrite Z.opp_involutive. apply mir_xpow.
  - apply mir_sym, mir_xpow.
Qed.

Lemma csum_mirror (f : Z * Z → Z) coefs :
  csum f (mirror coefs) = csum (λ kc, f (- kc.1, kc.2)) coefs.
Proof.
  induction coefs as [|kc rest IH]; cbn [mirror map csum]; [done |].
  fold (mirror rest). by rewrite IH.
Qed.

Lemma csum_lin (a b : Z) (f g : Z * Z → Z) coefs :
  csum (λ kc, a * (f kc + g kc * b)) coefs
  = a * (csum f coefs + csum g coefs * b).
Proof.
  induction coefs as [|kc rest IH]; cbn [csum]; [ring | rewrite IH; ring].
Qed.

(** The pair of the mirrored map is the mirror image of the pair of the
    map, for either value of the flag. *)
Lemma mir_accumulate_spec half coefs :
  mir (accumulate_spec half (∅, ∅) coefs)
      (accumulate_spec half (∅, ∅) (mirror coefs)).
Proof.
  intros d.
  destruct (coef_accumulate_spec half (mirror coefs) (∅, ∅) d) as [-> ->].
  destruct (coef_accumulate_spec half coefs (∅, ∅) d) as [-> ->].
  destruct (coef_accumulate_spec half coefs (∅, ∅) (pred d)) as [_ ->].
  cbn [fst snd]. rewrite !coef_empty, !Z.add_0_l, !csum_mirror.
  split.
  - rewrite <- csum_lin. apply csum_ext. intros [k c]. cbn [fst snd].
    destruct (mir_term_pair half k d) as [-> _]. ring.
  - rewrite <- csum_scal. apply csum_ext. intros [k c]. cbn [fst snd].
    destruct (mir_term_pair half k d) as [_ ->]. ring.
Qed.

(** Under the parity of the integer-power mode the mirror image has its
    first nonzero merged coefficient at the same degree. *)
Lemma mir_first_nonzero P Q D :
  pair_par true P → mir P Q →
  (1 ≤ D)%nat ∧ merged P D ≠ 0 ∧ (∀ j, (1 ≤ j < D)%nat → merged P j = 0) →
  (1 ≤ D)%nat ∧ merged Q D ≠ 0 ∧ (∀ j, (1 ≤ j < D)%nat → merged Q j = 0).
Proof.
  intros Hpar Hmir (HD & Hnz & Hz).
  assert (∀ j, (j < D)%nat → coef P.2 j = 0) as HB.
  { intros j Hj. destruct (decide (j = 0%nat)) as [->|Hj0].
    - destruct Hpar as [_ HB]. by apply HB.
    - destruct (pair_par_split P j Hpar) as [_ H]; [apply Hz; lia | done]. }
  assert (∀ j, (1 ≤ j ≤ D)%nat → merged Q j = sgn j * merged P j) as HQ.
  { intros j Hj. unfold merged. destruct (Hmir j) as [-> ->].
    destruct j as [|j]; [lia |]. cbn [pred]. rewrite (HB j) by lia. ring. }
  split; [done |]. split.
  - rewrite HQ by lia. destruct D as [|D]; [lia |].
    destruct (sgn_cases D) as [[Hs|Hs] HS]; rewrite HS, Hs; lia.
  - intros j Hj. rewrite HQ, Hz by lia. ring.
Qed.

Lemma mir_empty P Q :
  no_zeros Q.1 → no_zeros Q.2 → mir P Q →
  P.1 = ∅ ∧ P.2 = ∅ → Q.1 = ∅ ∧ Q.2 = ∅.
Proof.
  intros H1 H2 Hmir [HA HB].
  split; apply map_eq; intros d; rewrite lookup_empty;
    apply no_zeros_lookup; try done;
    destruct (Hmir d) as [E1 E2]; rewrite ?E1, ?E2, ?HA, ?HB, !coef_empty;
    ring.
Qed.
End mirror.

(** Two pairs with the same first nonzero merged degree, both empty or
    neither, give the same result, value or exception. *)
Lemma Jm_jvp_ext (P Q : JVP.poly * JVP.poly) :
  (P.1 = ∅ ∧ P.2 = ∅ ↔ Q.1 = ∅ ∧ Q.2 = ∅) →
  (∀ D, Jm_jvp P = Ok D ↔ Jm_jvp Q = Ok D) →
  Jm_jvp P = Jm_jvp Q.
Proof.
  intros He HD.
  destruct (Jm_jvp P) as [a|e] eqn:EP.
  { symmetry. by apply HD. }
  destruct (Jm_jvp Q) as [b|e'] eqn:EQ.
  { destruct (HD b) as [_ H]. by specialize (H eq_refl). }
  apply Jm_jvp_Raise in EP, EQ. f_equal.
  destruct EP as [(-> & HP)|(-> & HP)], EQ as [(-> & HQ)|(-> & HQ)];
    try done.
  - apply He in HP as [? ?]. destruct HQ as [HQ|HQ]; by destruct HQ.
  - apply He in HQ as [? ?]. destruct HP as [HP|HP]; by destruct HP.
Qed.

(** The JVP path of the driver gives the same result on a map and on its
    mirror. *)
Lemma JVP_mirror coefs :
  rbind (JVP.jones_to_Vxp (mirror coefs) false) Jm_jvp
  = rbind (JVP.jones_to_Vxp coefs false) Jm_jvp.
Proof.
  rewrite !jones_to_Vxp_spec. cbn [rbind].
  pose proof (mir_accumulate_spec false coefs) as Hmir.
  pose proof (pair_par_jones coefs) as HP.
  pose proof (pair_par_jones (mirror coefs)) as HQ.
  destruct (no_zeros_accumulate_spec false coefs (∅, ∅)) as [HP1 HP2];
    [apply no_zeros_empty.. |].
  destruct (no_zeros_accumulate_spec false (mirror coefs) (∅, ∅))
    as [HQ1 HQ2]; [apply no_zeros_empty.. |].
  apply Jm_jvp_ext.
  - split; apply mir_empty; try done. by apply mir_sym.
  - intros D. rewrite !Jm_jvp_Ok.
    split; apply mir_first_nonzero; try done. by apply mir_sym.
Qed.

(** C8, in the convention in which it holds.  The mirror of a map gives
    the same result, value or exception, in the BL path for every order
    and denominator, in the JVP path on integer-power exponents
    ([input_q_is_half_power = False]), and so in both engines of
    [Jtransform]; the mirrored trefoil is [{-4: -1, -3: 1, -1: 1}] and
    gives 2 in both, as the trefoil does. *)
Theorem C8_mirror_preserves_Jm (coefs : coef_map) :
  (∀ n den,
     rbind (BL.taylor_from_jones (mirror coefs) n den) Jm_bl
     = rbind (BL.taylor_from_jones coefs n den) Jm_bl)
  ∧ rbind (JVP.jones_to_Vxp (mirror coefs) false) Jm_jvp
    = rbind (JVP.jones_to_Vxp coefs false) Jm_jvp
  ∧ (∀ rep, Jtransform rep (mirror coefs) = Jtransform rep coefs)
  ∧ mirror trefoil = [(-4, -1); (-3, 1); (-1, 1)]
  ∧ Jtransform "JVP" (mirror trefoil) = Jtransform "JVP" trefoil
  ∧ Jtransform "BL" (mirror trefoil) = Jtransform "BL" trefoil.
Proof.
  split; [intros n den; apply BL_mirror |].
  split; [apply JVP_mirror |].
  split.
  - intros rep. unfold Jtransform.
    destruct (decide (rep = "JVP"%string)); [apply JVP_mirror |].
    destruct (decide (rep = "BL"%string)); [apply BL_mirror | done].
  - split; [reflexivity |]. split; [apply JVP_mirror | apply BL_mirror].
Qed.

(** C8 as stated fails for the JVP path on half-power exponents: the map
    [{2: 2, -1: 1, -2: 1}] gives 2 and its mirror gives 1. *)
Lemma C8_half_power_mirror_differs :
  rbind (JVP.jones_to_Vxp [(2, 2); (-1, 1); (-2, 1)] true) Jm_jvp = Ok 2%nat
  ∧ rbind (JVP.jones_to_Vxp (mirror [(2, 2); (-1, 1); (-2, 1)]) true) Jm_jvp
    = Ok 1%nat.
Proof. by vm_compute. Qed.

(** * Further properties of the engines *)

Section engines.
Import JVP Ring Moments.

(** X1: [jones_to_Vxp] returns for every coefficient map and either value
    of the flag, the power tables being long enough for every exponent,
    and the two dictionaries it returns store no zero coefficient. *)
Theorem X1_jones_to_Vxp_returns_without_zeros (coefs : coef_map)
    (input_q_is_half_power : bool) :
  ∃ A B : poly,
    jones_to_Vxp coefs input_q_is_half_power = Ok (A, B)
    ∧ ∀ d, A !! d ≠ Some 0 ∧ B !! d ≠ Some 0.
Proof.
  rewrite jones_to_Vxp_spec.
  destruct (no_zeros_accumulate_spec input_q_is_half_power coefs (∅, ∅))
    as [HA HB]; [apply no_zeros_empty.. |].
  destruct (accumulate_spec _ _ coefs) as [A B].
  exists A, B. split; [done |]. intros d. split; [apply HA | apply HB].
Qed.

(** X2: on integer-power exponents the part without x has even degrees
    only and the part with x odd degrees only. *)
Theorem X2_integer_power_parity (coefs : coef_map) :
  ∃ A B : poly,
    jones_to_Vxp coefs false = Ok (A, B)
    ∧ ∀ d, A !! (2 * d + 1)%nat = None ∧ B !! (2 * d)%nat = None.
Proof.
  rewrite jones_to_Vxp_spec.
  destruct (no_zeros_accumulate_spec false coefs (∅, ∅))
    as [HA HB]; [apply no_zeros_empty.. |].
  destruct (pair_par_jones coefs) as [PA PB].
  destruct (accumulate_spec _ _ coefs) as [A B]. cbn [fst snd] in *.
  exists A, B. split; [done |]. intros d. split.
  - apply no_zeros_lookup; [done |]. apply PA.
    replace (2 * d + 1)%nat with (S (2 * d)) by lia.
    rewrite Nat.even_succ, Nat.odd_mul. done.
  - apply no_zeros_lookup; [done |]. apply PB.
    rewrite Nat.even_mul. done.
Qed.

Lemma qmoment_all_zero coefs den m :
  Forall (λ kc : Z * Z, kc.2 = 0) coefs → qmoment coefs den m = 0%Qc.
Proof.
  induction 1 as [|[k c] rest Hc _ IH]; cbn [qmoment fst snd] in *.
  - apply Z2Qc_0.
  - rewrite IH, Hc, Z2Qc_0. ring.
Qed.

Lemma taylor_all_zero coefs n den :
  0 ≤ n → Forall (λ kc : Z * Z, kc.2 = 0) coefs →
  BL.taylor_from_jones coefs n den
  = Ok (map (λ m, (qmoment coefs den m / Z2Qc (factorial m))%Qc)
            (seq 0 (S (Z.to_nat n)))).
Proof.
  intros Hn Hall. unfold BL.taylor_from_jones.
  rewrite decide_False by lia.
  assert (BL.normalize_terms coefs den = Ok []) as ->.
  { induction Hall as [|[k c] rest Hc _ IH]; cbn [BL.normalize_terms];
      [done |]. cbn [snd] in Hc. by rewrite decide_True. }
  cbn [rbind]. f_equal. apply map_ext_in. intros m Hm%in_seq.
  rewrite qmoment_all_zero by done.
  unfold BL.power_sums. cbn [fold_left].
  rewrite list_lookup_total_alt, lookup_replicate_2 by lia.
  cbn [default from_option id]. by rewrite Z2Qc_0.
Qed.

(** The three cases of [taylor_from_jones]. *)
Lemma taylor_from_jones_cases (coefs : coef_map) (n den : Z) :
  BL.taylor_from_jones coefs n den
  = if decide (n < 0) then Raise ValueError
    else if decide (den = 0 ∧ ¬ Forall (λ kc : Z * Z, kc.2 = 0) coefs)
    then Raise ZeroDivisionError
    else Ok (map (λ m, (qmoment coefs den m / Z2Qc (factorial m))%Qc)
                 (seq 0 (S (Z.to_nat n)))).
Proof.
  destruct (decide (n < 0)) as [Hn|Hn].
  { unfold BL.taylor_from_jones. by rewrite decide_True. }
  destruct (decide (den = 0)) as [->|Hden].
  - destruct (decide (Forall (λ kc : Z * Z, kc.2 = 0) coefs)) as [Hall|Hall].
    + rewrite decide_False by tauto. apply taylor_all_zero; [lia | done].
    + rewrite decide_True by tauto. unfold BL.taylor_from_jones.
      rewrite decide_False by done.
      by rewrite normalize_terms_den0, decide_False.
  - rewrite decide_False by tauto. apply taylor_from_jones_closed; [lia | done].
Qed.

Lemma exponent_of_Ok den key r :
  exponent_of den key r → BL._as_fraction_exponent key den = Ok r.
Proof.
  destruct 1 as [r|k Hden|s k Hden Hs]; cbn [BL._as_fraction_exponent];
    [done | |]; rewrite ?Hs; cbn [rbind]; unfold BL.Fraction;
    by rewrite decide_False.
Qed.

Lemma key_error_Raise den key e :
  key_error den key e → BL._as_fraction_exponent key den = Raise e.
Proof.
  destruct 1 as [k Hden|s k Hden Hs|s e Hs]; cbn [BL._as_fraction_exponent];
    rewrite ?Hs; cbn [rbind]; [| | done]; unfold BL.Fraction;
    by rewrite decide_True.
Qed.

Lemma normalize_terms_exponents (coefs : list (BL.CoefKey * Z)) den :
  ∀ terms,
    Forall2 (λ kc rc, exponent_of den kc.1 rc.1 ∧ rc.2 = kc.2)
            (filter (λ kc, kc.2 ≠ 0) coefs) terms →
    BL.normalize_terms coefs den = Ok terms.
Proof.
  induction coefs as [|[k c] rest IH]; intros terms;
    cbn [BL.normalize_terms].
  - by intros ->%Forall2_nil_inv_l.
  - destruct (decide (c = 0)) as [->|Hc].
    + rewrite filter_cons_False by (cbn [snd]; tauto). apply IH.
    + rewrite filter_cons_True by done.
      intros ([r c'] & ts & [Hr Hc'] & Hts & ->)%Forall2_cons_inv_l.
      cbn [fst snd] in *. subst c'.
      change (BL.coef_key k) with k.
      rewrite (exponent_of_Ok _ _ _ Hr). cbn [rbind].
      by rewrite (IH _ Hts).
Qed.

Lemma normalize_terms_key_error (l1 : list (BL.CoefKey * Z)) key c l2 den e :
  Forall (λ kc, kc.2 = 0 ∨ ∃ r, exponent_of den kc.1 r) l1 →
  c ≠ 0 → key_error den key e →
  BL.normalize_terms (l1 ++ (key, c) :: l2) den = Raise e.
Proof.
  intros Hl1 Hc He.
  induction Hl1 as [|[k0 c0] l1 H0 _ IH]; cbn [app BL.normalize_terms].
  - rewrite decide_False by done. change (BL.coef_key key) with key.
    by rewrite (key_error_Raise _ _ _ He).
  - destruct (decide (c0 = 0)) as [->|Hc0]; [done |].
    cbn [fst snd] in H0. destruct H0 as [?|[r Hr]]; [done |].
    change (BL.coef_key k0) with k0.
    rewrite (exponent_of_Ok _ _ _ Hr). cbn [rbind]. by rewrite IH.
Qed.

(** X3: what [taylor_from_jones] returns.  A negative order is a
    [ValueError], whatever the map.  Otherwise the terms with a nonzero
    coefficient are read in the order of the map.  When the key of each
    has an exponent r, the list has the n + 1 entries [sum c r^m / m!],
    m = 0, ..., n: a [Fraction] key is its own exponent, whatever the
    denominator, zero too; an [int] key k, or a [str] key that [int]
    reads as k, has the exponent k / den when den is not zero.  The
    first key without exponent gives the exception: a
    [ZeroDivisionError], or the [ValueError] of [int] on a [str] key.
    On the maps with [int] keys that the driver builds, this is a
    [ZeroDivisionError] when the denominator is zero and some
    coefficient is not, and the list of the [sum_k c_k (k/den)^m / m!]
    otherwise. *)
Theorem X3_taylor_from_jones_result (n den : Z) :
  (∀ coefs : list (BL.CoefKey * Z),
     n < 0 → BL.taylor_from_jones coefs n den = Raise ValueError)
  ∧ (∀ (coefs : list (BL.CoefKey * Z)) (terms : list (Qc * Z)),
       0 ≤ n →
       Forall2 (λ kc rc, exponent_of den kc.1 rc.1 ∧ rc.2 = kc.2)
               (filter (λ kc, kc.2 ≠ 0) coefs) terms →
       BL.taylor_from_jones coefs n den
       = Ok (map (λ m, (qsum terms m / Z2Qc (factorial m))%Qc)
                 (seq 0 (S (Z.to_nat n)))))
  ∧ (∀ (l1 l2 : list (BL.CoefKey * Z)) key c e,
       0 ≤ n →
       Forall (λ kc, kc.2 = 0 ∨ ∃ r, exponent_of den kc.1 r) l1 →
       c ≠ 0 → key_error den key e →
       BL.taylor_from_jones (l1 ++ (key, c) :: l2) n den = Raise e)
  ∧ (∀ coefs : coef_map,
       0 ≤ n →
       BL.taylor_from_jones coefs n den
       = if decide (den = 0 ∧ ¬ Forall (λ kc : Z * Z, kc.2 = 0) coefs)
         then Raise ZeroDivisionError
         else Ok (map (λ m, (qmoment coefs den m / Z2Qc (factorial m))%Qc)
                      (seq 0 (S (Z.to_nat n))))).
Proof.
  split; [| split; [| split]].
  - intros coefs Hn. unfold BL.taylor_from_jones. by rewrite decide_True.
  - intros coefs terms Hn Hterms. unfold BL.taylor_from_jones.
    rewrite decide_False by lia.
    rewrite (normalize_terms_exponents _ _ _ Hterms). cbn [rbind].
    f_equal. apply map_ext_in. intros m Hm%in_seq.
    assert (Hl : BL.power_sums terms (Z.to_nat n) !! m
                 = Some (qsum terms m))
      by (apply power_sums_lookup; lia).
    apply list_lookup_total_correct in Hl. by rewrite Hl.
  - intros l1 l2 key c e Hn Hl1 Hc He. unfold BL.taylor_from_jones.
    rewrite decide_False by lia.
    by rewrite (normalize_terms_key_error _ _ _ _ _ _ Hl1 Hc He).
  - intros coefs Hn. rewrite taylor_from_jones_cases.
    by rewrite decide_False by lia.
Qed.

Lemma X3_taylor_from_jones_result_witness :
  BL.taylor_from_jones [(Z2Qc 4, -1); (Z2Qc 3, 1); (Z2Qc 1, 1)] 2 0
  = Ok [Z2Qc 1; Z2Qc 0; Q2Qc (-6 # 2)]
  ∧ BL.taylor_from_jones [("4", -1); ("3", 1); ("1", 1)]%string 2 1
    = Ok [Z2Qc 1; Z2Qc 0; Q2Qc (-6 # 2)]
  ∧ BL.taylor_from_jones [("4", 0); ("x", 1); ("1", 1)]%string 2 1
    = Raise ValueError
  ∧ BL.taylor_from_jones [(4, 0); (3, 1)] 2 0 = Raise ZeroDivisionError.
Proof.
  destruct (X3_taylor_from_jones_result 2 1) as (_ & _ & H3 & _).
  split; [by vm_compute |]. split; [by vm_compute |].
  split; [| by vm_compute].
  apply (H3 [(BL.KStr "4", 0)] [(BL.KStr "1", 1)] (BL.KStr "x") 1 ValueError).
  - lia.
  - constructor; [by left | constructor].
  - done.
  - by constructor.
Defined.
End engines.

Section index.
Import JVP Ring Moments.

(** A call of [Jm_jvp] that raises found no coefficient at any degree
    from 1 on. *)
Lemma Jm_jvp_Raise_zero (AB : poly * poly) e :
  Jm_jvp AB = Raise e → ∀ j, (1 ≤ j)%nat → merged AB j = 0.
Proof.
  destruct AB as [A B]. unfold Jm_jvp, merged. cbn [fst snd].
  destruct (max_key (B ∪ A)) as [mx|e'] eqn:E; cbn [rbind].
  - intros H j Hj.
    apply (scan_Raise 0 (merged (A, B))) in H as [_ Hz].
    destruct (decide (j ≤ mx)%nat) as [Hle|Hgt]; [by apply Hz |].
    assert (∀ C : poly, (∀ v, C !! j = Some v → is_Some ((B ∪ A) !! j)) →
                        coef C j = 0) as Hzero.
    { intros C HC. unfold coef. destruct (C !! j) as [v|] eqn:EC; [| done].
      destruct (max_key_ge _ _ (HC v eq_refl)) as (mx' & Hmx' & Hle).
      rewrite E in Hmx'. injection Hmx' as <-. lia. }
    assert (coef A j = 0) as ->.
    { apply Hzero. intros v Hv. rewrite lookup_union, Hv.
      by destruct (B !! j). }
    assert (coef B j = 0) as ->; [| done].
    apply Hzero. intros v Hv. rewrite lookup_union, Hv.
    by destruct (A !! j).
  - intros _ j Hj. apply max_key_Raise in E as [_ E].
    apply map_positive_l in E as HB. rewrite HB, (left_id_L ∅ (∪)) in E.
    by rewrite E, HB, !coef_empty.
Qed.

(** X4: what [Jm_jvp] returns.  It returns D exactly when D is the least
    degree from 1 on at which the merged coefficient [A.get(D, 0) +
    B.get(D, 0)] is not zero; it raises [ValueError] exactly when both
    dictionaries are empty, and [IndexError] exactly when they are not
    and every merged coefficient from degree 1 on is zero; it raises
    nothing else. *)
Theorem X4_Jm_jvp_result (AB : poly * poly) :
  (∀ D, Jm_jvp AB = Ok D
        ↔ (1 ≤ D)%nat ∧ merged AB D ≠ 0
          ∧ ∀ j, (1 ≤ j < D)%nat → merged AB j = 0)
  ∧ (Jm_jvp AB = Raise ValueError ↔ AB.1 = ∅ ∧ AB.2 = ∅)
  ∧ (Jm_jvp AB = Raise IndexError
     ↔ (AB.1 ≠ ∅ ∨ AB.2 ≠ ∅) ∧ ∀ j, (1 ≤ j)%nat → merged AB j = 0)
  ∧ (∀ e, Jm_jvp AB = Raise e → e = ValueError ∨ e = IndexError).
Proof.
  split; [intros D; apply Jm_jvp_Ok |].
  assert (∀ e, Jm_jvp AB = Raise e → e = ValueError ∨ e = IndexError) as He.
  { intros e [[-> _]|[-> _]]%Jm_jvp_Raise; auto. }
  split; [| split; [| done]].
  - split.
    + by intros [[_ H]|[[=] _]]%Jm_jvp_Raise.
    + destruct AB as [A B]. cbn [fst snd]. by intros [-> ->].
  - split.
    + intros H. split; [| by eapply Jm_jvp_Raise_zero].
      by apply Jm_jvp_Raise in H as [[[=] _]|[_ H]].
    + intros [Hne Hz]. destruct (Jm_jvp AB) as [D|e] eqn:E.
      * apply Jm_jvp_Ok in E as (HD & Hnz & _). destruct Hnz. by apply Hz.
      * apply Jm_jvp_Raise in E as [[_ [H1 H2]]|[-> _]]; [| done].
        destruct Hne as [Hne|Hne]; by destruct Hne.
Qed.

(** Strong induction: a pair with separated parities whose power sums
    vanish at the orders 1, ..., a - 1 has no merged coefficient there. *)
Lemma merged_zero_of_ev (AB : poly * poly) (a : nat) :
  pair_par true AB → (a ≤ N)%nat →
  (∀ m, (1 ≤ m < a)%nat → ev AB m = 0) →
  ∀ j, (1 ≤ j < a)%nat → merged AB j = 0.
Proof.
  intros Hpar Ha Hev j. induction (lt_wf j) as [j _ IH]. intros Hj.
  assert (∀ i, (1 ≤ i < j)%nat → merged AB i = 0) as Hz.
  { intros i Hi. apply IH; lia. }
  pose proof (ev_at AB j Hpar Hz ltac:(lia)) as E.
  rewrite Hev in E by lia. symmetry in E.
  apply Z.mul_eq_0 in E as [E|E]; [done |].
  apply pi_diag_nz in E; [done | lia].
Qed.

(** X5: the BL engine of the driver is the JVP engine cut at order 11: it
    returns an index exactly when the JVP engine returns that index and
    the index is at most 11. *)
Theorem X5_BL_is_JVP_up_to_order_11 (coefs : coef_map) (a : nat) :
  Jtransform "BL" coefs = Ok a
  ↔ Jtransform "JVP" coefs = Ok a ∧ (a ≤ 11)%nat.
Proof.
  change (Jtransform "BL" coefs)
    with (rbind (BL.taylor_from_jones coefs 11 1) Jm_bl).
  change (Jtransform "JVP" coefs)
    with (rbind (jones_to_Vxp coefs false) Jm_jvp).
  rewrite Jm_bl_moment by lia. change (Z.to_nat 11) with 11%nat. split.
  - intros (Ha & Hnz & Hz). split; [| lia].
    rewrite jones_to_Vxp_spec. cbn [rbind]. apply Jm_jvp_Ok.
    pose proof (pair_par_jones coefs) as Hpar.
    assert (∀ j, (1 ≤ j < a)%nat →
                 merged (accumulate_spec false (∅, ∅) coefs) j = 0) as Hm.
    { apply merged_zero_of_ev; [done | unfold N; lia |].
      intros m Hm. rewrite ev_jones by (unfold N; lia).
      rewrite Hz by done. ring. }
    split; [lia |]. split; [| done]. intros E.
    pose proof (ev_at _ a Hpar Hm ltac:(unfold N; lia)) as E'.
    rewrite E, ev_jones in E' by (unfold N; lia).
    apply Z.mul_eq_0 in E' as [E'|E']; [| done].
    apply Z.pow_eq_0_iff in E'. lia.
  - intros [(Ha & Hz & Hnz)%Jm_jvp_moment Hle].
    split; [lia |]. split.
    + apply Hnz. unfold N. lia.
    + intros j Hj. apply Hz; [done | unfold N; lia].
Qed.
End index.

(** ** The order of the terms *)

Section term_order.
Import JVP Ring.

Lemma poly_eq_coef (A B : poly) :
  no_zeros A → no_zeros B → (∀ d, coef A d = coef B d) → A = B.
Proof.
  intros HA HB H. apply map_eq. intros d. specialize (H d).
  specialize (HA d). specialize (HB d). unfold coef in H.
  destruct (A !! d) as [a|], (B !! d) as [b|]; cbn in H; congruence.
Qed.

Lemma csum_perm (f : Z * Z → Z) coefs coefs' :
  coefs ≡ₚ coefs' → csum f coefs = csum f coefs'.
Proof. induction 1; cbn [csum]; lia. Qed.

Lemma qmoment_perm coefs coefs' den m :
  coefs ≡ₚ coefs' → qmoment coefs den m = qmoment coefs' den m.
Proof.
  induction 1 as [|kc l l' _ IH|kc1 kc2 l|l1 l2 l3 _ IH1 _ IH2];
    cbn [qmoment]; [done | by rewrite IH | ring | congruence].
Qed.

Lemma jones_to_Vxp_perm coefs coefs' half :
  coefs ≡ₚ coefs' → jones_to_Vxp coefs half = jones_to_Vxp coefs' half.
Proof.
  intros Hp. rewrite !jones_to_Vxp_spec. f_equal.
  destruct (no_zeros_accumulate_spec half coefs (∅, ∅)) as [HA HB];
    [apply no_zeros_empty.. |].
  destruct (no_zeros_accumulate_spec half coefs' (∅, ∅)) as [HA' HB'];
    [apply no_zeros_empty.. |].
  pose proof (coef_accumulate_spec half coefs (∅, ∅)) as H.
  pose proof (coef_accumulate_spec half coefs' (∅, ∅)) as H'.
  destruct (accumulate_spec half (∅, ∅) coefs) as [A B].
  destruct (accumulate_spec half (∅, ∅) coefs') as [A' B'].
  cbn [fst snd] in *. f_equal; apply poly_eq_coef; try done; intros d;
    destruct (H d) as [E1 E2]; destruct (H' d) as [E1' E2'];
    rewrite ?E1, ?E2, ?E1', ?E2'; f_equal; by apply csum_perm.
Qed.

Lemma taylor_from_jones_perm (coefs coefs' : coef_map) n den :
  coefs ≡ₚ coefs' →
  BL.taylor_from_jones coefs n den = BL.taylor_from_jones coefs' n den.
Proof.
  intros Hp. rewrite !taylor_from_jones_cases.
  destruct (decide (n < 0)); [done |].
  assert (Forall (λ kc : Z * Z, kc.2 = 0) coefs
          ↔ Forall (λ kc : Z * Z, kc.2 = 0) coefs') as Hall.
  { by rewrite Hp. }
  destruct (decide (den = 0 ∧ ¬ Forall _ coefs)) as [H|H].
  - rewrite decide_True; [done |]. by rewrite <- Hall.
  - rewrite decide_False by (by rewrite <- Hall).
    f_equal. apply map_ext. intros m. by rewrite (qmoment_perm _ _ _ _ Hp).
Qed.

(** X6: the order in which the coefficient map lists its terms changes
    neither the pair of [jones_to_Vxp] nor the list of
    [taylor_from_jones], nor the index of either engine. *)
Theorem X6_term_order_is_irrelevant (coefs coefs' : coef_map)
    (half : bool) (n den : Z) (rep : string) :
  coefs ≡ₚ coefs' →
  jones_to_Vxp coefs half = jones_to_Vxp coefs' half
  ∧ BL.taylor_from_jones coefs n den = BL.taylor_from_jones coefs' n den
  ∧ Jtransform rep coefs = Jtransform rep coefs'.
Proof.
  intros Hp. split; [by apply jones_to_Vxp_perm |].
  split; [by apply taylor_from_jones_perm |].
  unfold Jtransform.
  by rewrite (jones_to_Vxp_perm _ _ _ Hp), (taylor_from_jones_perm _ _ _ _ Hp).
Qed.

Lemma X6_term_order_is_irrelevant_witness :
  trefoil ≡ₚ reverse trefoil
  ∧ jones_to_Vxp trefoil false = jones_to_Vxp (reverse trefoil) false
  ∧ BL.taylor_from_jones trefoil 11 1
    = BL.taylor_from_jones (reverse trefoil) 11 1
  ∧ Jtransform "JVP" trefoil = Jtransform "JVP" (reverse trefoil).
Proof.
  assert (trefoil ≡ₚ reverse trefoil) as Hp.
  { symmetry. apply reverse_Permutation. }
  split; [done |].
  by apply (X6_term_order_is_irrelevant trefoil (reverse trefoil) false 11 1
              "JVP").
Defined.
End term_order.

(** ** The command line *)

Section driver.
Import Classifier Driver.

Lemma option_value_cases {A} (argv : list string) (option : string)
    (dflt : A) (convert : string → result A) (accepts : string → bool) :
  option_value argv option dflt convert accepts = dflt
  ∨ ∃ v, v ∈ argv ∧ accepts v = true
         ∧ convert v = Ok (option_value argv option dflt convert accepts).
Proof.
  unfold option_value. case_decide; [| by left].
  destruct (list_find _ argv) as [[i a]|]; [| by left].
  destruct (argv !! S i) as [v|] eqn:Ev; [| by left].
  destruct (accepts v) eqn:Ea; [| by left].
  destruct (convert v) as [x|e] eqn:Ec; [| by left].
  right. exists v. split; [by eapply list_elem_of_lookup_2 | done].
Qed.



(** On ASCII digits alone the literal is the value of the digits. *)
Lemma int_digits_all_digits s : ∀ acc,
  all_digits s = true → int_digits acc s = decimal_value acc s.
Proof.
  induction s as [|a s IH]; intros acc;
    cbn [all_digits int_digits decimal_value]; [done |].
  intros [Ha Hs]%andb_prop. rewrite Ha. by apply IH.
Qed.

(** The literal of a text that starts with a digit. *)
Lemma int_literal_digit_first a s :
  is_digit a = true →
  int_literal (String a s)
  = match int_digits 0 (String a s) with
    | Some z => Ok z
    | None => Raise ValueError
    end.
Proof.
  intros Ha.
  destruct a as [[] [] [] [] [] [] [] []];
    first [by vm_compute in Ha | reflexivity].
Qed.

(** A character below 127 is kept by the translation to ASCII. *)
Lemma int_ascii_cons a s :
  (N_of_ascii a < 127)%N → int_ascii (String a s) = String a (int_ascii s).
Proof.
  intros Ha. unfold int_ascii, utf8_decode. cbn [utf8_chars]. cbv zeta.
  rewrite (proj2 (N.ltb_lt _ 128)) by lia.
  cbn [fmap list_fmap fst string_of_list_ascii]. f_equal.
  unfold int_char. rewrite (proj2 (N.ltb_lt _ 127)) by done.
  apply ascii_N_embedding.
Qed.

Lemma is_digit_below a : is_digit a = true → (N_of_ascii a < 127)%N.
Proof.
  unfold is_digit, nat_of_ascii.
  intros [_ H%Nat.leb_le]%andb_prop. lia.
Qed.

Lemma int_ascii_all_digits s : all_digits s = true → int_ascii s = s.
Proof.
  induction s as [|a s IH]; [done |]. cbn [all_digits].
  intros [Ha Hs]%andb_prop.
  rewrite int_ascii_cons by (by apply is_digit_below). by rewrite IH.
Qed.

(** [int] on a string of ASCII digits. *)
Lemma py_int_all_digits a s :
  all_digits (String a s) = true →
  py_int (String a s)
  = match decimal_value 0 (String a s) with
    | Some z => Ok z
    | None => Raise ValueError
    end.
Proof.
  intros Hs. unfold py_int. rewrite int_ascii_all_digits by done.
  pose proof Hs as [Ha _]%andb_prop.
  by rewrite int_literal_digit_first, int_digits_all_digits.
Qed.







(** X7: whatever the command line, the engine name given to the workers
    is JVP or Birman-Lin, never BL, the key under which [Jtransform] has
    the Birman-Lin engine: the option check accepts the name Birman-Lin,
    on which every call of [Jtransform] is a [KeyError]. *)
Theorem X7_engine_option_never_selects_BL (argv : list string)
    (coefs : coef_map) :
  (rep_of argv = "JVP"%string
   ∧ Jtransform (rep_of argv) coefs = Jtransform "JVP" coefs)
  ∨ (rep_of argv = "Birman-Lin"%string
     ∧ Jtransform (rep_of argv) coefs = Raise KeyError).
Proof.
  destruct (option_value_cases argv "--R" "JVP"%string Ok
              (λ s, bool_decide (s ∈ ["Birman-Lin"; "JVP"]%string)))
    as [E|(v & _ & Hv & [= E])]; fold (rep_of argv) in E.
  - left. by rewrite E.
  - apply bool_decide_eq_true in Hv. rewrite <- E.
    apply elem_of_cons in Hv as [->|Hv]; [by right |].
    apply list_elem_of_singleton in Hv as ->. by left.
Qed.



(** With an engine name that [Jtransform] does not have, no record
    changes the tables. *)
Lemma process_record_unknown_rep cfg st rec :
  (∀ coefs, ∃ e, Jtransform (rep cfg) coefs = Raise e) →
  match process_record cfg st rec with
  | inl s | inr s =>
      local_Jm_table s = local_Jm_table st
      ∧ local_knot_ids s = local_knot_ids st
  end.
Proof.
  intros Hrep. destruct rec as [knot_label data]. unfold process_record.
  case_decide; [done |].
  destruct (parse_coefs _ _) as [[|kc coefs]|e]; [done | | done].
  destruct (knot_id_of knot_label) as [knot_id|e]; [| done].
  unfold classify. destruct (Hrep (kc :: coefs)) as [e ->]. done.
Qed.

Lemma process_records_unknown_rep cfg recs :
  (∀ coefs, ∃ e, Jtransform (rep cfg) coefs = Raise e) →
  ∀ st,
    local_Jm_table (process_records cfg st recs) = local_Jm_table st
    ∧ local_knot_ids (process_records cfg st recs) = local_knot_ids st.
Proof.
  intros Hrep. induction recs as [|rec recs IH]; intros st; [done |].
  cbn [process_records].
  pose proof (process_record_unknown_rep cfg st rec Hrep) as H.
  destruct (process_record cfg st rec) as [s|s]; [| done].
  destruct H as [<- <-]. apply IH.
Qed.

(** X9: with the engine name Birman-Lin, which the option check accepts,
    the classifier returns the tables it started with, whatever the
    records: every call of the engine is a [KeyError], caught as a bad
    record. *)
Theorem X9_Birman_Lin_classifies_nothing (sample_interval : Z) (min_m : nat)
    (recs : list (string * knot_data)) :
  process_split_file (Config "Birman-Lin" sample_interval min_m) recs
  = (local_Jm_table initial, local_knot_ids initial).
Proof.
  unfold process_split_file.
  destruct (process_records_unknown_rep
              (Config "Birman-Lin" sample_interval min_m) recs) with initial
    as [-> ->]; [| done].
  intros coefs. by exists KeyError.
Qed.
End driver.

(** ** Invariants of the shard classifier *)

Section classifier_invariants.
Import Classifier.

(** A property of the two tables that every record keeps. *)
Lemma process_records_ind (P : state → Prop) cfg :
  (∀ st n, P st → P (State (local_Jm_table st) (local_knot_ids st) n)) →
  (∀ knot_label crossings knot_id coefs st,
     P st → P (classify cfg knot_label crossings knot_id coefs st)) →
  ∀ recs st, P st → P (process_records cfg st recs).
Proof.
  intros Hcount Hclassify.
  induction recs as [|[knot_label data] recs IH]; intros st Hst; [done |].
  cbn [process_records process_record].
  case_decide; [by apply IH, Hcount |].
  destruct (parse_coefs _ _) as [[|kc coefs]|e];
    [by apply IH, Hcount | | by apply Hcount].
  destruct (knot_id_of knot_label) as [knot_id|e]; [| by apply Hcount].
  by apply IH, Hclassify, Hcount.
Qed.

(** What [classify] does to the tables: nothing, or it assigns to keys
    that are there. *)
Lemma classify_cases cfg knot_label crossings knot_id coefs st :
  let st' := classify cfg knot_label crossings knot_id coefs st in
  st' = st
  ∨ ∃ m r t' ids',
      Jtransform (rep cfg) coefs = Ok m
      ∧ dict_get crossings (local_Jm_table st) = Some r
      ∧ st' = State t' ids' (count st)
      ∧ (t' = dict_set crossings
                (Row (row_holder r) (row_max r)
                   (dict_set m (default 0 (dict_get m (row_hist r)) + 1)
                             (row_hist r)))
                (local_Jm_table st)
         ∨ t' = dict_set crossings
                  (Row knot_label m
                     (dict_set m (default 0 (dict_get m (row_hist r)) + 1)
                               (row_hist r)))
                  (dict_set crossings
                     (Row (row_holder r) (row_max r)
                        (dict_set m (default 0 (dict_get m (row_hist r)) + 1)
                                  (row_hist r)))
                     (local_Jm_table st)))
      ∧ (ids' = local_knot_ids st
         ∨ ∃ runs, dict_get m (local_knot_ids st) = Some runs
                   ∧ (min_m cfg < m)%nat
                   ∧ ids' = dict_set m
                              (update_runs (sample_interval cfg) crossings
                                           knot_id knot_label runs)
                              (local_knot_ids st)).
Proof.
  intros st'. subst st'. unfold classify.
  destruct (Jtransform (rep cfg) coefs) as [m|e]; [| by left].
  destruct (dict_get crossings (local_Jm_table st)) as [r|] eqn:Er;
    [| by left].
  right. exists m, r.
  cbn [local_knot_ids local_Jm_table count row_max row_hist row_holder].
  destruct (decide (min_m cfg < m)%nat) as [Hm|Hm].
  - destruct (dict_get m (local_knot_ids st)) as [runs|] eqn:Eruns.
    + destruct (decide (row_max r < m)%nat);
        cbn [local_knot_ids local_Jm_table count];
        eexists _, _; split_and!; try done; eauto 10.
    + eexists _, _; split_and!; try done; eauto.
  - destruct (decide (row_max r < m)%nat);
      cbn [local_knot_ids local_Jm_table count];
      eexists _, _; split_and!; try done; eauto.
Qed.

Lemma classify_keys cfg knot_label crossings knot_id coefs st :
  (local_Jm_table
     (classify cfg knot_label crossings knot_id coefs st)).*1
  = (local_Jm_table st).*1
  ∧ (local_knot_ids
       (classify cfg knot_label crossings knot_id coefs st)).*1
    = (local_knot_ids st).*1.
Proof.
  destruct (classify_cases cfg knot_label crossings knot_id coefs st)
    as [->|(m & r & t' & ids' & _ & Hr & -> & Ht & Hids)]; [done |].
  cbn [local_Jm_table local_knot_ids]. split.
  - destruct Ht as [->| ->].
    + apply dict_set_keys. by rewrite Hr.
    + rewrite dict_set_keys by (by rewrite dict_get_set_eq).
      apply dict_set_keys. by rewrite Hr.
  - destruct Hids as [->|(runs & Hruns & _ & ->)]; [done |].
    apply dict_set_keys. by rewrite Hruns.
Qed.

(** The counts of a worker are never negative. *)
Lemma classify_counts_nonneg cfg knot_label crossings knot_id coefs st :
  counts_nonneg (local_Jm_table st) →
  counts_nonneg
    (local_Jm_table (classify cfg knot_label crossings knot_id coefs st)).
Proof.
  intros Hst.
  destruct (classify_cases cfg knot_label crossings knot_id coefs st)
    as [->|(m & r & t' & ids' & _ & Hr & -> & Ht & _)]; [done |].
  cbn [local_Jm_table].
  assert (hist_nonneg
            (dict_set m (default 0 (dict_get m (row_hist r)) + 1)
                      (row_hist r))) as Hh.
  { apply dict_get_Some_elem in Hr. pose proof Hst as Hall.
    unfold counts_nonneg in Hall. rewrite Forall_forall in Hall.
    specialize (Hall _ Hr). cbn [snd] in Hall.
    apply dict_set_Forall; [| done]. cbn [snd].
    destruct (dict_get m (row_hist r)) as [v|] eqn:E;
      cbn [default from_option id]; [| lia].
    apply dict_get_Some_elem in E. unfold hist_nonneg in Hall.
    rewrite Forall_forall in Hall. specialize (Hall _ E).
    cbn [snd] in Hall. lia. }
  destruct Ht as [->| ->]; unfold counts_nonneg;
    repeat (apply dict_set_Forall; [exact Hh |]); done.
Qed.

Lemma process_split_file_counts_nonneg cfg recs :
  counts_nonneg (process_split_file cfg recs).1.
Proof.
  unfold process_split_file. cbn [fst].
  apply (process_records_ind (λ st, counts_nonneg (local_Jm_table st))).
  - done.
  - intros. by apply classify_counts_nonneg.
  - unfold initial. cbn [local_Jm_table].
    apply Forall_fmap, Forall_forall. intros c _. constructor.
Qed.

(** X10: whatever the records and the configuration, the tables that a
    worker returns have the nineteen buckets 1, ..., 19 and the ten run
    lists 0, ..., 9, in this order: no record adds or removes a key. *)
Theorem X10_worker_tables_keep_their_keys (cfg : config)
    (recs : list (string * knot_data)) :
  (process_split_file cfg recs).1.*1 = bucket_labels
  ∧ (process_split_file cfg recs).2.*1 = seq 0 10.
Proof.
  unfold process_split_file. cbn [fst snd].
  apply (process_records_ind
           (λ st, (local_Jm_table st).*1 = bucket_labels
                  ∧ (local_knot_ids st).*1 = seq 0 10) cfg).
  - done.
  - intros knot_label crossings knot_id coefs st [H1 H2].
    destruct (classify_keys cfg knot_label crossings knot_id coefs st)
      as [-> ->]. done.
  - done.
Qed.
End classifier_invariants.

Section classifier_edges.
Import Classifier.

(** X11: a record whose index is not a key of the run table, which has
    the keys 0, ..., 9, is counted in the histogram of its bucket and
    nothing else happens: the [KeyError] of the run table comes after the
    count and before the comparison with the maximum, so the record never
    becomes the holder of its bucket. *)
Theorem X11_index_beyond_run_table_is_only_counted (cfg : config)
    (knot_label crossings : string) (knot_id : Z) (coefs : coef_map)
    (st : state) (m : nat) (r : row) :
  Jtransform (rep cfg) coefs = Ok m →
  dict_get crossings (local_Jm_table st) = Some r →
  (min_m cfg < m)%nat →
  dict_get m (local_knot_ids st) = None →
  classify cfg knot_label crossings knot_id coefs st
  = State (dict_set crossings
             (Row (row_holder r) (row_max r)
                  (dict_set m (default 0 (dict_get m (row_hist r)) + 1)
                            (row_hist r)))
             (local_Jm_table st))
          (local_knot_ids st) (count st).
Proof.
  intros HJ Hr Hm Hids. unfold classify. rewrite HJ, Hr.
  cbn [local_knot_ids local_Jm_table count].
  rewrite (decide_True (P := (min_m cfg < m)%nat)) by done.
  by rewrite Hids.
Qed.

Lemma X11_index_beyond_run_table_is_only_counted_witness :
  Jtransform "JVP" [(0, 1); (1, -10); (2, 45); (3, -120); (4, 210);
                    (5, -252); (6, 210); (7, -120); (8, 45); (9, -10);
                    (10, 1)] = Ok 10%nat
  ∧ dict_get "8"%string
      (process_split_file (jvp_config 1)
         [("8_5"%string, KnotData (Some raw_jm10))]).1
    = Some (Row "" 2 [(10%nat, 1)]).
Proof.
  split; [by vm_compute |].
  unfold process_split_file. cbn [fst].
  change (process_records (jvp_config 1) initial
            [("8_5"%string, KnotData (Some raw_jm10))])
    with (classify (jvp_config 1) "8_5" "8" 5
            [(0, 1); (1, -10); (2, 45); (3, -120); (4, 210);
             (5, -252); (6, 210); (7, -120); (8, 45); (9, -10); (10, 1)]
            (State (local_Jm_table initial) (local_knot_ids initial) 1)).
  rewrite (X11_index_beyond_run_table_is_only_counted (jvp_config 1)
             "8_5" "8" 5 _ _ 10 (Row "" 2 []));
    [by vm_compute | by vm_compute | by vm_compute | cbn; lia
    | by vm_compute].
Defined.

Lemma update_runs_ordered S crossings knot_id knot_label runs :
  Forall (λ r, run_first r ≤ run_last r) runs →
  Forall (λ r, run_first r ≤ run_last r)
         (update_runs S crossings knot_id knot_label runs).
Proof.
  intros H. unfold update_runs.
  destruct (last runs) as [l|] eqn:El.
  - assert (run_first l ≤ run_last l) as Hl.
    { apply last_Some in El as [runs' ->].
      by apply Forall_app in H as [_ [? _]%Forall_cons_1]. }
    destruct (_ || _).
    + apply Forall_app. split; [done |]. by repeat constructor.
    + case_decide; [| done]. apply Forall_app. split.
      * apply last_Some in El as [runs' ->].
        rewrite removelast_last. by apply Forall_app in H as [? _].
      * repeat constructor. cbn [run_first run_last]. lia.
  - apply Forall_app. split; [done |]. by repeat constructor.
Qed.

(** X12: in the run table that a worker returns every run has its first
    identifier at most its last. *)
Theorem X12_runs_have_ordered_bounds (cfg : config)
    (recs : list (string * knot_data)) :
  runs_ordered (process_split_file cfg recs).2.
Proof.
  unfold process_split_file. cbn [snd].
  apply (process_records_ind (λ st, runs_ordered (local_knot_ids st)) cfg).
  - done.
  - intros knot_label crossings knot_id coefs st Hst.
    destruct (classify_cases cfg knot_label crossings knot_id coefs st)
      as [->|(m & r & t' & ids' & _ & _ & -> & _ & Hids)]; [done |].
    cbn [local_knot_ids].
    destruct Hids as [->|(runs & Hruns & _ & ->)]; [done |].
    apply dict_set_Forall; [| done]. cbn [snd].
    apply update_runs_ordered.
    apply dict_get_Some_elem in Hruns.
    unfold runs_ordered in Hst. rewrite Forall_forall in Hst.
    apply (Hst _ Hruns).
  - unfold runs_ordered, initial. cbn [local_knot_ids].
    apply Forall_fmap, Forall_forall. intros m _. by constructor.
Qed.

(** X13: a record, not the unknot 0_1, whose coefficient map has a key
    that is not an integer, or whose map is not empty and whose label has
    no integer at the place of the knot identifier, ends the shard: the
    exception is raised outside the inner [try] and the records after it
    are not read. *)
Theorem X13_unparsable_record_ends_the_shard (cfg : config) (st : state)
    (knot_label : string) (raw : list (string * Z))
    (rest : list (string * knot_data)) :
  knot_label ≠ "0_1"%string →
  ((∃ e, parse_coefs raw [] = Raise e)
   ∨ ∃ kc coefs e, parse_coefs raw [] = Ok (kc :: coefs)
                   ∧ knot_id_of knot_label = Raise e) →
  process_records cfg st ((knot_label, KnotData (Some raw)) :: rest)
  = State (local_Jm_table st) (local_knot_ids st) (S (count st)).
Proof.
  intros Hl H. cbn [process_records process_record].
  rewrite decide_False by done. cbn [coeffs default from_option id].
  destruct H as [[e ->]|(kc & coefs & e & -> & ->)]; done.
Qed.

Lemma X13_unparsable_record_ends_the_shard_witness :
  process_split_file (jvp_config 1)
    [trefoil_record "8_x"; trefoil_record "8_5"]
  = (local_Jm_table initial, local_knot_ids initial).
Proof.
  unfold process_split_file, trefoil_record.
  rewrite (X13_unparsable_record_ends_the_shard (jvp_config 1) initial
             "8_x" raw_trefoil [("8_5"%string, KnotData (Some raw_trefoil))]).
  - done.
  - done.
  - right. exists (4, -1), [(3, 1); (1, 1)], ValueError. by vm_compute.
Defined.
End classifier_edges.

Section classifier_maximum.
Import Classifier Driver.

Lemma dict_get_Some_keys {K V} `{EqDecision K} (k : K) (v : V) d :
  dict_get k d = Some v → k ∈ d.*1.
Proof.
  intros H. destruct (decide (k ∈ d.*1)) as [|Hn]; [done |].
  apply dict_get_None_keys in Hn. congruence.
Qed.

Lemma classify_row_max cfg knot_label crossings knot_id coefs st :
  (min_m cfg ≤ 2)%nat →
  Forall (λ cr : string * row, (2 ≤ row_max cr.2 ≤ 9)%nat)
         (local_Jm_table st) →
  (local_knot_ids st).*1 = seq 0 10 →
  Forall (λ cr : string * row, (2 ≤ row_max cr.2 ≤ 9)%nat)
         (local_Jm_table
            (classify cfg knot_label crossings knot_id coefs st)).
Proof.
  intros Hmin Hall Hkeys. unfold classify.
  destruct (Jtransform (rep cfg) coefs) as [m|e]; [| done].
  destruct (dict_get crossings (local_Jm_table st)) as [r|] eqn:Er;
    [| done].
  assert (2 ≤ row_max r ≤ 9)%nat as Hr.
  { apply dict_get_Some_elem in Er. rewrite Forall_forall in Hall.
    apply (Hall _ Er). }
  cbn [local_knot_ids local_Jm_table count row_max row_hist row_holder].
  destruct (decide (min_m cfg < m)%nat) as [Hm|Hm].
  - destruct (dict_get m (local_knot_ids st)) as [runs|] eqn:Eruns.
    + apply dict_get_Some_keys in Eruns. rewrite Hkeys in Eruns.
      apply elem_of_seq in Eruns.
      destruct (decide (row_max r < m)%nat);
        cbn [local_knot_ids local_Jm_table count];
        repeat apply dict_set_Forall; try done; cbn [snd row_max]; lia.
    + cbn [local_Jm_table]. by apply dict_set_Forall.
  - rewrite decide_False by lia. cbn [local_Jm_table].
    by apply dict_set_Forall.
Qed.

(** X14: in the table that a worker of the driver returns the maximum of
    every bucket is between 2 and 9: an index from 10 on, which both
    engines can return, is counted but never reported as the maximum of
    its bucket. *)
Theorem X14_reported_maximum_is_at_most_9 (argv : list string)
    (recs : list (string * knot_data)) :
  Forall (λ cr : string * row, (2 ≤ row_max cr.2 ≤ 9)%nat)
         (process_split_file (config_of argv) recs).1.
Proof.
  unfold process_split_file. cbn [fst].
  apply (process_records_ind
           (λ st, Forall (λ cr : string * row, (2 ≤ row_max cr.2 ≤ 9)%nat)
                         (local_Jm_table st)
                  ∧ (local_knot_ids st).*1 = seq 0 10) (config_of argv)).
  - done.
  - intros knot_label crossings knot_id coefs st [H1 H2]. split.
    + apply classify_row_max; [cbn; lia | done | done].
    + by destruct (classify_keys (config_of argv) knot_label crossings
                     knot_id coefs st) as [_ ->].
  - split; [| done]. unfold initial. cbn [local_Jm_table].
    apply Forall_fmap, Forall_forall. intros c _. cbn. lia.
Qed.
End classifier_maximum.

(** ** Labels *)

Section labels.
Import Classifier Driver.

Lemma process_records_foreign_buckets cfg recs : ∀ st,
  Forall (λ rec : string * knot_data,
            dict_get (crossings_of rec.1) (local_Jm_table st) = None) recs →
  local_Jm_table (process_records cfg st recs) = local_Jm_table st
  ∧ local_knot_ids (process_records cfg st recs) = local_knot_ids st.
Proof.
  induction recs as [|[knot_label data] recs IH]; intros st Hall; [done |].
  apply Forall_cons_1 in Hall as [Hrec Hall]. cbn [fst] in Hrec.
  cbn [process_records process_record].
  set (st1 := State (local_Jm_table st) (local_knot_ids st) (S (count st))).
  case_decide; [apply (IH st1 Hall) |].
  destruct (parse_coefs _ _) as [[|kc coefs]|e];
    [apply (IH st1 Hall) | | done].
  destruct (knot_id_of knot_label) as [knot_id|e]; [| done].
  assert (classify cfg knot_label (crossings_of knot_label) knot_id
            (kc :: coefs) st1 = st1) as ->.
  { unfold classify. destruct (Jtransform _ _); [| done].
    subst st1. cbn [local_Jm_table]. by rewrite Hrec. }
  apply (IH st1 Hall).
Qed.

(** X15: records whose bucket string is not one of 1, ..., 19 leave the
    tables of a worker as they were at the start.  The bucket of a label
    with an underscore and without the word jones is all that is before
    the first underscore, so that 12a_5 has the bucket 12a and is not
    counted. *)
Theorem X15_foreign_buckets_are_not_counted (cfg : config)
    (recs : list (string * knot_data)) :
  Forall (λ rec : string * knot_data,
            crossings_of rec.1 ∉ bucket_labels) recs →
  process_split_file cfg recs
  = (local_Jm_table initial, local_knot_ids initial).
Proof.
  intros Hall. unfold process_split_file.
  destruct (process_records_foreign_buckets cfg recs initial) as [-> ->];
    [| done].
  eapply Forall_impl; [exact Hall |]. intros rec Hrec. cbn beta in *.
  apply dict_get_None_keys. by vm_compute (_.*1).
Qed.

Lemma X15_foreign_buckets_are_not_counted_witness :
  crossings_of "12a_5" = "12a"%string
  ∧ process_split_file (jvp_config 1)
      [trefoil_record "12a_5"; trefoil_record "12n_7"]
    = (local_Jm_table initial, local_knot_ids initial).
Proof.
  split; [by vm_compute |].
  apply (X15_foreign_buckets_are_not_counted (jvp_config 1)).
  repeat (apply Forall_cons_2; [apply (bool_decide_unpack _); by vm_compute |]).
  apply Forall_nil_2.
Defined.
End labels.

Section label_forms.
Import Classifier Driver.

Lemma contains_char_app c s t :
  contains_char c (s +:+ t) = contains_char c s || contains_char c t.
Proof.
  induction s as [|a s IH]; simpl; [done |].
  case_decide; [done | apply IH].
Qed.

Lemma split_first_app c s t :
  contains_char c s = false → split_first c (s +:+ String c t) = s.
Proof.
  induction s as [|a s IH]; simpl.
  - by rewrite decide_True.
  - case_decide; [done |]. intros Hs. by rewrite IH.
Qed.

Lemma split_last_id c s : contains_char c s = false → split_last c s = s.
Proof.
  destruct s as [|a s]; cbn [contains_char split_last]; [done |].
  case_decide; [done |]. by intros ->.
Qed.

Lemma split_last_app c s t :
  contains_char c t = false → split_last c (s +:+ String c t) = t.
Proof.
  intros Ht. induction s as [|a s IH]; simpl.
  - by rewrite Ht, decide_True.
  - rewrite contains_char_app. simpl.
    rewrite decide_True by done. by rewrite orb_true_r.
Qed.

Lemma all_digits_contains_char c ds :
  is_digit c = false → all_digits ds = true → contains_char c ds = false.
Proof.
  intros Hc. induction ds as [|a ds IH]; cbn [all_digits contains_char];
    [done |].
  intros [Ha Hds]%andb_prop. rewrite decide_False; [by apply IH |].
  intros ->. congruence.
Qed.

(** X16: a label made of a part without underscore, an underscore and
    decimal digits, without the word jones, has that part as its bucket,
    letters included, and the digits as its knot identifier. *)
Theorem X16_label_with_underscore (c ds : string) :
  contains_char "_" c = false →
  contains "jones" (c +:+ String "_" ds) = false →
  all_digits ds = true →
  crossings_of (c +:+ String "_" ds) = c
  ∧ knot_id_of (c +:+ String "_" ds) = py_int ds.
Proof.
  intros Hc Hj Hds. split.
  - unfold crossings_of. rewrite contains_char_app, Hj. cbn [contains_char].
    rewrite decide_True by done. rewrite orb_true_r. cbn [andb negb].
    by apply split_first_app.
  - unfold knot_id_of.
    rewrite split_last_app
      by (apply all_digits_contains_char; [reflexivity | done]).
    by rewrite (split_last_id ":" ds), (split_last_id "a" ds),
      (split_last_id "n" ds)
      by (apply all_digits_contains_char; [reflexivity | done]).
Qed.

Lemma X16_label_with_underscore_witness :
  crossings_of "12a_152" = "12a"%string ∧ knot_id_of "12a_152" = Ok 152.
Proof.
  destruct (X16_label_with_underscore "12a" "152") as [H1 H2];
    [by vm_compute.. |].
  split; [exact H1 | exact H2].
Defined.

(** *** Integers written by [str] and read by [int] *)

Lemma pretty_N_go_digit (x : N) s :
  (0 < x)%N → ∃ a s', pretty_N_go x s = String a s' ∧ is_digit a = true.
Proof.
  revert s. induction (N.lt_wf_0 x) as [x _ IH]. intros s Hx.
  rewrite pretty_N_go_step by done.
  destruct (decide (x `div` 10 = 0)%N) as [->|Hd].
  - rewrite pretty_N_go_0. eexists _, _. split; [done |].
    unfold pretty_N_char. by repeat case_match.
  - apply IH; [apply N.div_lt; lia | by apply N.neq_0_lt_0].
Qed.

Lemma int_digits_pretty_N_go (x : N) :
  ∃ L : Z, ∀ acc s,
    int_digits acc (pretty_N_go x s) = int_digits (acc * L + Z.of_N x) s.
Proof.
  induction (N.lt_wf_0 x) as [x _ IH].
  destruct (decide (x = 0)%N) as [->|Hx].
  { exists 1. intros acc s. rewrite pretty_N_go_0. f_equal. lia. }
  destruct (IH (x `div` 10)%N) as [L HL].
  { apply N.div_lt; lia. }
  exists (10 * L). intros acc s.
  rewrite pretty_N_go_step by lia. rewrite HL.
  pose proof (N.mod_lt x 10 ltac:(lia)) as Hlt.
  pose proof (N.div_mod x 10 ltac:(lia)) as Hdm.
  set (d := (x `mod` 10)%N) in *. set (q := (x `div` 10)%N) in *.
  clearbody d q.
  assert (int_digits (acc * L + Z.of_N q) (String (pretty_N_char d) s)
          = int_digits (10 * (acc * L + Z.of_N q) + Z.of_N d) s) as ->.
  { assert (d = 0 ∨ d = 1 ∨ d = 2 ∨ d = 3 ∨ d = 4 ∨ d = 5 ∨ d = 6 ∨ d = 7
            ∨ d = 8 ∨ d = 9)%N as Hd by lia.
    clear Hlt Hdm.
    repeat destruct Hd as [->|Hd]; try rewrite Hd; reflexivity. }
  f_equal. rewrite Hdm. rewrite N2Z.inj_add, N2Z.inj_mul. cbn. ring.
Qed.

Lemma pretty_N_go_all_digits (x : N) : ∀ s,
  all_digits s = true → all_digits (pretty_N_go x s) = true.
Proof.
  induction (N.lt_wf_0 x) as [x _ IH]. intros s Hs.
  destruct (decide (x = 0)%N) as [->|Hx]; [by rewrite pretty_N_go_0 |].
  rewrite pretty_N_go_step by lia. apply IH; [apply N.div_lt; lia |].
  cbn [all_digits]. rewrite Hs, andb_true_r.
  pose proof (N.mod_lt x 10 ltac:(lia)) as Hlt.
  set (d := (x `mod` 10)%N) in *. clearbody d.
  assert (d = 0 ∨ d = 1 ∨ d = 2 ∨ d = 3 ∨ d = 4 ∨ d = 5 ∨ d = 6 ∨ d = 7
          ∨ d = 8 ∨ d = 9)%N as Hd by lia.
  clear Hlt. repeat destruct Hd as [->|Hd]; try rewrite Hd; reflexivity.
Qed.

Lemma int_literal_pretty_pos (p : positive) :
  all_digits (pretty p) = true ∧ int_literal (pretty p) = Ok (Z.pos p)
  ∧ int_body (pretty p) = Some (Z.pos p).
Proof.
  unfold pretty, pretty_positive, pretty, pretty_N.
  rewrite decide_False by done.
  pose proof (pretty_N_go_all_digits (N.pos p) "" eq_refl) as Hall.
  destruct (pretty_N_go_digit (N.pos p) "" ltac:(lia)) as (a & s & E & Ha).
  destruct (int_digits_pretty_N_go (N.pos p)) as [L HL].
  assert (int_digits 0 (pretty_N_go (N.pos p) "") = Some (Z.pos p)) as Hd.
  { rewrite HL. cbn [int_digits]. by rewrite Z.mul_0_l. }
  split; [done |]. rewrite E in *.
  split; [by rewrite int_literal_digit_first, Hd |].
  unfold int_body. by rewrite Ha.
Qed.

Lemma py_int_pretty_pos (p : positive) : py_int (pretty p) = Ok (Z.pos p).
Proof.
  destruct (int_literal_pretty_pos p) as (Hall & E & _).
  unfold py_int. by rewrite int_ascii_all_digits.
Qed.

(** [int(str(z)) == z] *)
Lemma py_int_pretty (z : Z) : py_int (pretty z) = Ok z.
Proof.
  destruct z as [|p|p].
  - reflexivity.
  - apply py_int_pretty_pos.
  - change (pretty (Z.neg p)) with (String "-" (pretty p)).
    destruct (int_literal_pretty_pos p) as (Hall & _ & E).
    unfold py_int. rewrite int_ascii_cons by (by vm_compute).
    rewrite int_ascii_all_digits by done.
    unfold int_literal. cbn [skip_whitespace].
    change (is_whitespace "-") with false. cbv iota. by rewrite E.
Qed.
End label_forms.

Section coefficient_keys.
Import Classifier.

Lemma dict_set_new {K V} `{EqDecision K} (k : K) (v : V) d :
  k ∉ d.*1 → dict_set k v d = d ++ [(k, v)].
Proof.
  induction d as [|[k0 v0] d IH]; cbn [dict_set fmap list_fmap fst app];
    [done |].
  intros [Hne Hd]%not_elem_of_cons. rewrite decide_False by done.
  by rewrite IH.
Qed.

Lemma parse_coefs_pretty (entries : list (Z * Z)) : ∀ acc,
  NoDup (acc.*1 ++ entries.*1) →
  parse_coefs (map (λ ec, (pretty ec.1, ec.2)) entries) acc
  = Ok (acc ++ entries).
Proof.
  induction entries as [|[e c] entries IH]; intros acc Hnd;
    cbn [map parse_coefs fst snd].
  - by rewrite app_nil_r.
  - rewrite py_int_pretty. cbn [rbind].
    cbn [fmap list_fmap fst] in Hnd.
    apply NoDup_app in Hnd as (Hacc & Hdisj & [He Hent]%NoDup_cons).
    rewrite dict_set_new.
    + rewrite IH; [by rewrite <- app_assoc |].
      rewrite fmap_app. cbn [fmap list_fmap fst].
      apply NoDup_app. split_and!; [| | done].
      * apply NoDup_app. split_and!; [done | | apply NoDup_singleton].
        intros x Hx [->|[]%elem_of_nil]%elem_of_cons.
        apply (Hdisj _ Hx). left.
      * intros x [Hx|[->|[]%elem_of_nil]%elem_of_cons]%elem_of_app Hin.
        -- apply (Hdisj _ Hx). by right.
        -- done.
    + intros Hin. apply (Hdisj _ Hin). left.
Qed.

(** X17: the classifier reads back the coefficient map that the scraper
    writes: with the exponents written by [str] as the keys, pairwise
    different, [int] on the keys gives the map with the same entries in
    the same order, for negative exponents too. *)
Theorem X17_coefficient_map_round_trip (entries : list (Z * Z)) :
  NoDup entries.*1 →
  parse_coefs (map (λ ec, (pretty ec.1, ec.2)) entries) [] = Ok entries.
Proof. intros Hnd. by rewrite parse_coefs_pretty. Qed.

Lemma X17_coefficient_map_round_trip_witness :
  parse_coefs [("-4", -1); ("-3", 1); ("-1", 1)]%string []
  = Ok [(-4, -1); (-3, 1); (-1, 1)].
Proof.
  apply (X17_coefficient_map_round_trip [(-4, -1); (-3, 1); (-1, 1)]).
  apply (bool_decide_unpack _). by vm_compute.
Defined.
End coefficient_keys.

(** ** The merge *)

Section merge.
Import Classifier Aggregator.

Lemma dict_add_ok m v h : is_ok (dict_add m v h) ↔ m ∈ h.*1.
Proof.
  unfold dict_add. destruct (dict_get m h) as [v0|] eqn:E.
  - split; [intros _; by eapply dict_get_Some_keys | by eexists].
  - apply dict_get_None_keys in E. split; [by intros [? [=]] | done].
Qed.

Lemma add_hist_ok src : ∀ h,
  h.*1 = seq 2 9 →
  (is_ok (add_hist src h)
   ↔ Forall (λ mv : nat * Z, (2 ≤ mv.1 ≤ 10)%nat) src)
  ∧ ∀ e, add_hist src h = Raise e → e = KeyError.
Proof.
  induction src as [|[m v] src IH]; intros h Hk; cbn [add_hist].
  - split; [| done]. split; [by constructor | by eexists].
  - pose proof (dict_add_ok m v h) as Hadd. rewrite Hk in Hadd.
    rewrite elem_of_seq in Hadd.
    destruct (dict_add m v h) as [h'|e'] eqn:E; cbn [rbind].
    + destruct (IH h') as [IH1 IH2].
      { apply dict_add_keys in E. congruence. }
      split; [| done]. rewrite IH1, Forall_cons. cbn [fst].
      assert (2 ≤ m ≤ 10)%nat.
      { destruct Hadd as [Hadd _].
        assert (2 ≤ m < 2 + 9)%nat by (apply Hadd; by eexists). lia. }
      tauto.
    + split.
      * split; [by intros [? [=]] |].
        intros [Hm _]%Forall_cons_1. cbn [fst] in Hm.
        destruct Hadd as [_ Hadd]. destruct Hadd as [? [=]]. lia.
      * intros e [= <-]. unfold dict_add in E.
        by destruct (dict_get m h); simplify_eq.
Qed.

Lemma merge_row_ok merged cd :
  merged.*1 = bucket_labels → Forall hist_keys_ok merged →
  (is_ok (merge_row merged cd)
   ↔ cd.1 ∈ bucket_labels
     ∧ Forall (λ mv : nat * Z, (2 ≤ mv.1 ≤ 10)%nat) (row_hist cd.2))
  ∧ ∀ e, merge_row merged cd = Raise e → e = KeyError.
Proof.
  intros Hk Hall. destruct cd as [c data]. unfold merge_row. cbn [fst snd].
  destruct (dict_get c merged) as [r|] eqn:E.
  - assert (c ∈ bucket_labels) as Hc.
    { rewrite <- Hk. by eapply dict_get_Some_keys. }
    destruct (add_hist_ok (row_hist data) (row_hist r)) as [H1 H2].
    { apply dict_get_Some_elem in E. rewrite Forall_forall in Hall.
      apply (Hall _ E). }
    destruct (add_hist (row_hist data) (row_hist r)) as [h|e'] eqn:Eh;
      cbn [rbind].
    + split; [| done]. split; [| by eexists].
      intros _. split; [done |]. apply H1. by eexists.
    + split; [| intros e [= <-]; apply (H2 _ eq_refl)].
      split; [by intros [? [=]] |]. intros [_ H].
      apply H1 in H. by destruct H as [? [=]].
  - split; [| by intros e [= <-]].
    apply dict_get_None_keys in E. rewrite Hk in E.
    split; [by intros [? [=]] | by intros [? _]].
Qed.

Lemma merge_table_ok Jm_table : ∀ merged,
  merged.*1 = bucket_labels → Forall hist_keys_ok merged →
  (is_ok (merge_table merged Jm_table)
   ↔ Forall (λ cr : string * row,
               cr.1 ∈ bucket_labels
               ∧ Forall (λ mv : nat * Z, (2 ≤ mv.1 ≤ 10)%nat)
                        (row_hist cr.2)) Jm_table)
  ∧ ∀ e, merge_table merged Jm_table = Raise e → e = KeyError.
Proof.
  induction Jm_table as [|cd rest IH]; intros merged Hk Hall;
    cbn [merge_table].
  - split; [| done]. split; [by constructor | by eexists].
  - destruct (merge_row_ok merged cd Hk Hall) as [H1 H2].
    destruct (merge_row merged cd) as [m1|e'] eqn:E; cbn [rbind].
    + destruct (merge_row_inv _ _ _ E Hall) as [Hk1 Hall1].
      destruct (IH m1) as [IH1 IH2]; [congruence | done |].
      split; [| done]. rewrite IH1, Forall_cons.
      assert (is_ok (Ok m1 : result (list (string * row)))) as Hok
        by (by eexists).
      apply H1 in Hok. tauto.
    + split; [| intros e [= <-]; apply (H2 _ eq_refl)].
      split; [by intros [? [=]] |].
      intros [H _]%Forall_cons_1. apply H1 in H. by destruct H as [? [=]].
Qed.

Lemma merge_loop_ok results : ∀ acc,
  acc.1.*1 = bucket_labels → Forall hist_keys_ok acc.1 →
  (is_ok (merge_loop acc results) ↔ Forall mergeable results)
  ∧ ∀ e, merge_loop acc results = Raise e → e = KeyError.
Proof.
  induction results as [|[Jm_table knot_ids] rest IH]; intros acc Hk Hall;
    cbn [merge_loop].
  - split; [| done]. split; [by constructor | by eexists].
  - destruct (merge_table_ok Jm_table acc.1 Hk Hall) as [H1 H2].
    destruct (merge_table acc.1 Jm_table) as [t|e'] eqn:E; cbn [rbind].
    + destruct (merge_table_inv _ _ _ E Hall) as [Hk1 Hall1].
      destruct (IH (t, merge_ids acc.2 knot_ids)) as [IH1 IH2];
        [cbn [fst]; congruence | done |].
      split; [| done]. rewrite IH1, Forall_cons.
      assert (is_ok (Ok t : result (list (string * row)))) as Hok
        by (by eexists).
      apply H1 in Hok. unfold mergeable at 2. cbn [fst]. tauto.
    + split; [| intros e [= <-]; apply (H2 _ eq_refl)].
      split; [by intros [? [=]] |].
      intros [H _]%Forall_cons_1. apply H1 in H. by destruct H as [? [=]].
Qed.

(** X18: [merge_results] succeeds exactly when every bucket of every
    worker is a row of the merged table and every histogram key of every
    worker is among 2, ..., 10, the keys of the merged histograms; any
    other key, the index 1 of a link or an index from 11 on, is a
    [KeyError] of the whole merge, and no other exception is raised. *)
Theorem X18_merge_succeeds_iff_keys_are_known
    (results : list (list (string * row) * list (nat * list run))) :
  (is_ok (merge_results results) ↔ Forall mergeable results)
  ∧ ∀ e, merge_results results = Raise e → e = KeyError.
Proof.
  apply merge_loop_ok; cbn [fst].
  - by vm_compute.
  - unfold merged_initial. apply Forall_fmap, Forall_forall.
    intros c _. by vm_compute.
Qed.
End merge.

Section merge_sums.
Import Classifier Aggregator.

Lemma dict_add_count m' v h h' m :
  dict_add m' v h = Ok h' →
  default 0 (dict_get m h')
  = default 0 (dict_get m h) + (if decide (m' = m) then v else 0).
Proof.
  unfold dict_add. destruct (dict_get m' h) as [v0|] eqn:E; [| done].
  intros [= <-]. destruct (decide (m' = m)) as [->|Hne].
  - by rewrite dict_get_set_eq, E.
  - rewrite dict_get_set_ne by done. lia.
Qed.

Lemma add_hist_count src m : ∀ h h',
  add_hist src h = Ok h' →
  default 0 (dict_get m h') = default 0 (dict_get m h) + hist_sum m src.
Proof.
  induction src as [|[m' v] src IH]; intros h h'; cbn [add_hist hist_sum foldr].
  - intros [= <-]. lia.
  - intros (h1 & H1 & H2)%rbind_Ok. fold (hist_sum m src).
    rewrite (IH _ _ H2), (dict_add_count _ _ _ _ m H1). cbn [fst snd]. lia.
Qed.

Lemma merge_row_count merged cd merged' c m :
  merge_row merged cd = Ok merged' →
  table_count c m merged'
  = table_count c m merged
    + (if decide (cd.1 = c) then hist_sum m (row_hist cd.2) else 0).
Proof.
  destruct cd as [c' data]. unfold merge_row, table_count. cbn [fst snd].
  destruct (dict_get c' merged) as [r|] eqn:E; [| done].
  intros (h & Hh & [= <-])%rbind_Ok.
  destruct (decide (c' = c)) as [->|Hne].
  - rewrite dict_get_set_eq, E. cbn [mbind option_bind].
    rewrite <- (add_hist_count _ m _ _ Hh). by case_decide.
  - rewrite dict_get_set_ne by done. lia.
Qed.

Lemma merge_table_count Jm_table c m : ∀ merged merged',
  merge_table merged Jm_table = Ok merged' →
  table_count c m merged' = table_count c m merged + table_sum c m Jm_table.
Proof.
  induction Jm_table as [|cd rest IH]; intros merged merged';
    cbn [merge_table table_sum foldr].
  - intros [= <-]. lia.
  - intros (m1 & H1 & H2)%rbind_Ok. fold (table_sum c m rest).
    rewrite (IH _ _ H2), (merge_row_count _ _ _ c m H1). lia.
Qed.

Lemma merge_ids_runs knot_ids m : ∀ merged,
  default [] (dict_get m (merge_ids merged knot_ids))
  = default [] (dict_get m merged) ++ runs_of m knot_ids.
Proof.
  induction knot_ids as [|[m' knots] rest IH]; intros merged;
    cbn [merge_ids runs_of map concat].
  - by rewrite app_nil_r.
  - fold (runs_of m rest). rewrite IH. cbn [fst snd].
    destruct (decide (m' = m)) as [->|Hne].
    + rewrite dict_get_set_eq. cbn [default from_option id].
      by rewrite <- app_assoc.
    + by rewrite dict_get_set_ne.
Qed.

Lemma merge_loop_sums results c m : ∀ acc table ids,
  merge_loop acc results = Ok (table, ids) →
  table_count c m table
  = table_count c m acc.1
    + foldr (λ res s, table_sum c m res.1 + s) 0 results
  ∧ default [] (dict_get m ids)
    = default [] (dict_get m acc.2)
      ++ concat (map (λ res, runs_of m res.2) results).
Proof.
  induction results as [|[Jm_table knot_ids] rest IH]; intros acc table ids;
    cbn [merge_loop foldr map concat].
  - intros [= ->]. cbn [fst snd]. split; [lia | by rewrite app_nil_r].
  - intros (t & H1 & H2)%rbind_Ok.
    destruct (IH _ _ _ H2) as [-> ->]. cbn [fst snd].
    rewrite (merge_table_count _ c m _ _ H1), merge_ids_runs. split; [lia |].
    by rewrite <- app_assoc.
Qed.

(** X19: a merge that succeeds is additive.  The count of every bucket
    and index in the merged table is the sum of the counts of the
    workers, and the run list of every index is the concatenation of the
    run lists of the workers, in the order of the workers. *)
Theorem X19_merge_adds_counts_and_concatenates_runs
    (results : list (list (string * row) * list (nat * list run)))
    (table : list (string * row)) (ids : list (nat * list run))
    (c : string) (m : nat) :
  merge_results results = Ok (table, ids) →
  table_count c m table
  = foldr (λ res s, table_sum c m res.1 + s) 0 results
  ∧ default [] (dict_get m ids)
    = concat (map (λ res, runs_of m res.2) results).
Proof.
  intros H. apply (merge_loop_sums _ c m) in H as [-> ->]. cbn [fst snd].
  split; [| done].
  assert (table_count c m merged_initial = 0) as ->; [| lia].
  unfold table_count, merged_initial.
  destruct (dict_get c _) as [r|] eqn:E; [| done].
  apply dict_get_Some_elem, list_elem_of_fmap in E as (c' & [= -> ->] & _).
  cbn [mbind option_bind row_hist].
  destruct (dict_get m _) as [v|] eqn:Ev; [| done].
  apply dict_get_Some_elem in Ev.
  repeat (apply elem_of_cons in Ev as [[= _ ->]|Ev]; [done |]).
  by apply elem_of_nil in Ev.
Qed.

Lemma X19_merge_adds_counts_and_concatenates_runs_witness :
  ∃ table ids,
    merge_results
      [process_split_file (jvp_config 1) [trefoil_record "3_1"];
       process_split_file (jvp_config 1)
         [trefoil_record "3_1"; trefoil_record "3_2"]]
    = Ok (table, ids)
    ∧ table_count "3" 2 table = 3
    ∧ default [] (dict_get 2%nat ids)
      = [Run "3" 1 1 "3_1"; Run "3" 1 2 "3_1"].
Proof.
  eexists _, _. split; [by vm_compute |].
  match goal with
  | |- table_count _ _ ?t = _ ∧ default [] (dict_get _ ?i) = _ =>
      destruct (X19_merge_adds_counts_and_concatenates_runs
                  [process_split_file (jvp_config 1) [trefoil_record "3_1"];
                   process_split_file (jvp_config 1)
                     [trefoil_record "3_1"; trefoil_record "3_2"]]
                  t i "3" 2) as [-> ->]
  end; by vm_compute.
Defined.
End merge_sums.

(** ** The boundary finder and the splitter *)

Section splitter.
Import Splitter.

(** X20: a corpus file shorter than 10000 bytes cannot be split: the
    seek to 10000 bytes before the end of the file is an [OSError],
    whatever the number of shards. *)
Theorem X20_short_file_is_an_OSError (file : bytes) (n_splits : Z) :
  Z.of_nat (length file) < 10000 →
  ultra_fast_split file n_splits = Raises OSError.
Proof.
  intros Hlen. unfold ultra_fast_split, data_bounds. cbv zeta.
  by rewrite decide_True.
Qed.

Lemma X20_short_file_is_an_OSError_witness :
  length (corpus (sample_records 3 [(1, 1)])) = 132%nat
  ∧ ultra_fast_split (corpus (sample_records 3 [(1, 1)])) 1 = Raises OSError.
Proof.
  split; [by vm_compute |].
  apply X20_short_file_is_an_OSError. by vm_compute.
Defined.

Lemma scan_forward_hang (file : bytes) : ∀ budget pos,
  (pos ≤ length file)%nat →
  Forall (λ b, stops b = false) (drop pos file) →
  (length file - pos < budget)%nat →
  scan_forward file pos budget = Hang.
Proof.
  induction budget as [|budget IH]; intros pos Hpos Hall Hb; [lia |].
  cbn [scan_forward].
  destruct (file !! pos) as [b|] eqn:E; [| done].
  assert (stops b = false) as Hs.
  { rewrite Forall_lookup in Hall. apply (Hall 0%nat).
    by rewrite lookup_drop, Nat.add_0_r. }
  unfold stops in Hs. rewrite Hs.
  apply lookup_lt_Some in E. apply IH; [lia | | lia].
  rewrite Forall_lookup in Hall |- *. intros i x Hi.
  apply (Hall (S i)). rewrite lookup_drop in Hi |- *.
  by replace (pos + S i)%nat with (S pos + i)%nat by lia.
Qed.

(** X21: a target offset after which the file has no letter and no
    underscore, fewer than 100000 bytes before the end of the file, makes
    the boundary finder read at the end of the file for ever: [read(1)]
    returns no byte there, the position stays and the loop condition
    stays true.  The splitter does not return. *)
Theorem X21_scan_to_the_end_of_file_never_returns (file : bytes)
    (target_pos : Z) :
  0 ≤ target_pos ≤ Z.of_nat (length file) →
  Forall (λ b, stops b = false) (drop (Z.to_nat target_pos) file) →
  Z.of_nat (length file) - target_pos < 100000 →
  find_record_boundary_forward file target_pos (Z.to_nat 100000) = Hang
  ∧ split_point file target_pos = Diverges.
Proof.
  intros Hpos Hall Hlen.
  assert (find_record_boundary_forward file target_pos (Z.to_nat 100000)
          = Hang) as E.
  { unfold find_record_boundary_forward. rewrite decide_False by lia.
    apply scan_forward_hang; [lia | done | lia]. }
  split; [done |]. unfold split_point. by rewrite E.
Qed.

Lemma X21_scan_to_the_end_of_file_never_returns_witness :
  split_point (B "{}}" ++ [nl] ++ B "  }" ++ [nl] ++ B "}" ++ [nl]) 1
  = Diverges.
Proof.
  apply (X21_scan_to_the_end_of_file_never_returns
           (B "{}}" ++ [nl] ++ B "  }" ++ [nl] ++ B "}" ++ [nl]) 1).
  - vm_compute. split; discriminate.
  - repeat (apply Forall_cons_2; [reflexivity |]). apply Forall_nil_2.
  - by vm_compute.
Defined.

Lemma back_to_quote_Found (file : bytes) : ∀ j b,
  back_to_quote file j = Found b →
  (1 ≤ b ≤ j)%nat ∧ file !! (b - 1)%nat = Some dq
  ∧ ∀ i, (b ≤ i < j)%nat → file !! i ≠ Some dq.
Proof.
  induction j as [|j IH]; intros b; cbn [back_to_quote]; [done |].
  destruct (file !! j) as [x|] eqn:E.
  - destruct (decide (x = dq)) as [->|Hne].
    + intros [= <-]. replace (S j - 1)%nat with j by lia.
      split_and!; [lia.. | done | intros i Hi; lia].
    + intros (Hb & Hq & Hno)%IH. split_and!; [lia.. | done |].
      intros i Hi. destruct (decide (i = j)) as [->|Hij].
      * rewrite E. by intros [= ->].
      * apply Hno. lia.
  - intros (Hb & Hq & Hno)%IH. split_and!; [lia.. | done |].
    intros i Hi. destruct (decide (i = j)) as [->|Hij].
    + by rewrite E.
    + apply Hno. lia.
Qed.

Lemma scan_forward_Found (file : bytes) : ∀ budget pos b,
  scan_forward file pos budget = Found b →
  ∃ p x,
    (pos ≤ p < pos + budget)%nat ∧ file !! p = Some x ∧ stops x = true
    ∧ (∀ i y, (pos ≤ i < p)%nat → file !! i = Some y → stops y = false)
    ∧ (1 ≤ b ≤ p)%nat ∧ file !! (b - 1)%nat = Some dq
    ∧ ∀ i, (b ≤ i < p)%nat → file !! i ≠ Some dq.
Proof.
  induction budget as [|budget IH]; intros pos b; cbn [scan_forward];
    [done |].
  destruct (file !! pos) as [x|] eqn:E; [| done].
  destruct (is_alpha x || bool_decide (x = "_"%char)) eqn:Es.
  - intros (Hb & Hq & Hno)%back_to_quote_Found.
    exists pos, x. split_and!; try done; lia.
  - intros (p & x' & Hp & Hx & Hs & Hbefore & Hb & Hq & Hno)%IH.
    exists p, x'. split_and!; try done; try lia.
    intros i y Hi Hy. destruct (decide (i = pos)) as [->|Hne].
    + rewrite E in Hy. injection Hy as <-. done.
    + apply (Hbefore i); [lia | done].
Qed.

(** X22: the position that the boundary finder returns.  It is just
    after the last quote before the first letter or underscore at or
    after the start position: the start of the token that holds this
    letter, whatever the token is, a label or a key inside a record. *)
Theorem X22_boundary_is_the_token_of_the_next_letter (file : bytes)
    (pos : Z) (max_search b : nat) :
  find_record_boundary_forward file pos max_search = Found b →
  ∃ p x,
    (Z.to_nat pos ≤ p < Z.to_nat pos + max_search)%nat
    ∧ file !! p = Some x ∧ stops x = true
    ∧ (∀ i y, (Z.to_nat pos ≤ i < p)%nat → file !! i = Some y →
              stops y = false)
    ∧ (1 ≤ b ≤ p)%nat ∧ file !! (b - 1)%nat = Some dq
    ∧ ∀ i, (b ≤ i < p)%nat → file !! i ≠ Some dq.
Proof.
  unfold find_record_boundary_forward. case_decide; [done |].
  apply scan_forward_Found.
Qed.

Lemma X22_boundary_is_the_token_of_the_next_letter_witness :
  find_record_boundary_forward
    (B "1}}," ++ [nl] ++ B "  " ++ quoted "3_1" ++ B ": {" ++ quoted "coeffs")
    0 100 = Found 8
  ∧ find_record_boundary_forward
      (B "1}}," ++ [nl] ++ B "  " ++ quoted "3_1" ++ B ": {"
         ++ quoted "coeffs")
      10 100 = Found 16
  ∧ (B "1}}," ++ [nl] ++ B "  " ++ quoted "3_1" ++ B ": {"
       ++ quoted "coeffs") !! 15%nat = Some dq.
Proof.
  split; [by vm_compute |]. split; [by vm_compute |].
  destruct (X22_boundary_is_the_token_of_the_next_letter
              (B "1}}," ++ [nl] ++ B "  " ++ quoted "3_1" ++ B ": {"
                 ++ quoted "coeffs") 10 100 16)
    as (p & x & _ & _ & _ & _ & _ & H & _); [by vm_compute | exact H].
Defined.

Lemma split_points_loop_length file data_start chunk_size ixs : ∀ bs,
  split_points_loop file data_start chunk_size ixs = Returns bs →
  length bs = length ixs.
Proof.
  induction ixs as [|i ixs IH]; intros bs; cbn [split_points_loop].
  - by intros [= <-].
  - destruct (split_point _ _) as [b| |]; [| done..].
    destruct (split_points_loop _ _ _ ixs) as [bs'| |]; [| done..].
    intros [= <-]. cbn [length]. by rewrite (IH bs').
Qed.

Lemma split_files_each file split_points ixs : ∀ ss,
  split_files file split_points ixs = Ok ss →
  Forall2 (λ i s, split_file file split_points i = Ok s) ixs ss.
Proof.
  induction ixs as [|i ixs IH]; intros ss; cbn [split_files].
  - intros [= <-]. constructor.
  - intros (s & Hs & (ss' & Hss & [= <-])%rbind_Ok)%rbind_Ok.
    constructor; [done | by apply IH].
Qed.

Lemma rev_reverse {A} (l : list A) : rev l = reverse l.
Proof. apply rev_alt. Qed.

Lemma lstrip_spec l :
  ∃ ws, l = ws ++ lstrip l ∧ Forall (λ b, is_space b = true) ws
        ∧ ∀ b, head (lstrip l) = Some b → is_space b = false.
Proof.
  induction l as [|a l IH]; cbn [lstrip].
  - by exists [].
  - destruct (is_space a) eqn:Ea.
    + destruct IH as (ws & E & Hws & Hh). exists (a :: ws).
      split; [cbn [app]; by f_equal |]. split; [by constructor | done].
    + exists []. split; [done |]. split; [constructor |].
      cbn [head]. by intros b [= <-].
Qed.

Lemma rstrip_spec l :
  ∃ ws, l = rstrip l ++ ws ∧ Forall (λ b, is_space b = true) ws
        ∧ ∀ b, last (rstrip l) = Some b → is_space b = false.
Proof.
  unfold rstrip. destruct (lstrip_spec (rev l)) as (ws & E & Hws & Hh).
  exists (rev ws). split; [| split].
  - rewrite <- rev_app_distr, <- E. by rewrite rev_involutive.
  - rewrite rev_reverse. by apply Forall_reverse.
  - intros b Hb. apply Hh. by rewrite rev_reverse, last_reverse in Hb.
Qed.

Lemma starts_with_comma c :
  starts_with (B ",") c = true ↔ ∃ c', c = ","%char :: c'.
Proof.
  destruct c as [|a c]; cbn.
  - split; [done | by intros [? ?]].
  - rewrite andb_true_r, bool_decide_eq_true. split.
    + intros <-. by eexists.
    + by intros [c' [= -> _]].
Qed.

Lemma ends_with_comma c :
  ends_with (B ",") c = true ↔ ∃ c', c = c' ++ [","%char].
Proof.
  unfold ends_with. change (rev (B ",")) with (B ",").
  rewrite starts_with_comma. split.
  - intros [c' E]. exists (rev c').
    apply (f_equal (@rev ascii)) in E. rewrite rev_involutive in E.
    by rewrite E.
  - intros [c' ->]. exists (rev c'). by rewrite rev_app_distr.
Qed.

Lemma padding_spaces ws :
  Forall (λ b, is_space b = true) ws →
  Forall (λ b, is_space b = true ∨ b = ","%char) ws
  ∧ length (filter (λ b, b = ","%char) ws) = 0%nat.
Proof.
  induction 1 as [|a ws Ha _ [IH1 IH2]]; [done |]. split.
  - constructor; [by left | done].
  - rewrite filter_cons_False; [done |]. intros ->. by vm_compute in Ha.
Qed.

(** The clean-up of a chunk takes off its padding, and all of it. *)
Lemma clean_cleaned chunk : cleaned chunk (clean chunk).
Proof.
  unfold clean. cbv zeta.
  destruct (lstrip_spec chunk) as (ws1 & E1 & Hws1 & Hh1).
  set (c1 := lstrip chunk) in *. clearbody c1.
  (* the left end *)
  assert (∃ pre c2,
    (if starts_with (B ",") c1 then lstrip (drop 1 c1) else c1) = c2
    ∧ chunk = pre ++ c2 ∧ padding pre
    ∧ ∀ b, head c2 = Some b →
           is_space b = false ∧ (b = ","%char → ","%char ∈ pre))
    as (pre & c2 & -> & E2 & Hpre & Hh2).
  { destruct (starts_with (B ",") c1) eqn:Es.
    - apply starts_with_comma in Es as [c' ->]. cbn [drop].
      destruct (lstrip_spec c') as (ws2 & E2 & Hws2 & Hh2).
      exists (ws1 ++ ","%char :: ws2), (lstrip c'). split; [done |].
      split; [by rewrite <- app_assoc, <- app_comm_cons, <- E2 |].
      destruct (padding_spaces _ Hws1) as [P1 N1].
      destruct (padding_spaces _ Hws2) as [P2 N2].
      split; [split |].
      + apply Forall_app. split; [done |]. constructor; [by right | done].
      + rewrite filter_app, length_app, N1, filter_cons_True by done.
        cbn [length]. rewrite N2. lia.
      + intros b Hb. split; [by apply Hh2 |]. intros _.
        apply elem_of_app. right. left.
    - exists ws1, c1. split; [done |]. split; [done |].
      destruct (padding_spaces _ Hws1) as [P1 N1].
      split; [split; [done | lia] |].
      intros b Hb. split; [by apply Hh1 |]. intros ->.
      destruct c1 as [|a c1]; [done |]. injection Hb as ->.
      by cbn in Es. }
  clear E1 Hh1 Hws1 ws1 c1.
  (* the right end *)
  destruct (rstrip_spec c2) as (ws3 & E3 & Hws3 & Hl3).
  set (c3 := rstrip c2) in *. clearbody c3.
  assert (∃ post c4,
    (if ends_with (B ",") c3 then rstrip (take (length c3 - 1) c3) else c3)
    = c4
    ∧ c2 = c4 ++ post ∧ padding post
    ∧ ∀ b, last c4 = Some b →
           is_space b = false ∧ (b = ","%char → ","%char ∈ post))
    as (post & c4 & -> & E4 & Hpost & Hl4).
  { destruct (ends_with (B ",") c3) eqn:Es.
    - apply ends_with_comma in Es as [c' ->].
      rewrite length_app. cbn [length].
      replace (length c' + 1 - 1)%nat with (length c') by lia.
      rewrite take_app_length.
      destruct (rstrip_spec c') as (ws4 & E4 & Hws4 & Hl4).
      exists (ws4 ++ ","%char :: ws3), (rstrip c'). split; [done |].
      split.
      { rewrite E3. rewrite E4 at 1. by rewrite <- !app_assoc. }
      destruct (padding_spaces _ Hws3) as [P3 N3].
      destruct (padding_spaces _ Hws4) as [P4 N4].
      split; [split |].
      + apply Forall_app. split; [done |]. constructor; [by right | done].
      + rewrite filter_app, length_app, N4, filter_cons_True by done.
        cbn [length]. rewrite N3. lia.
      + intros b Hb. split; [by apply Hl4 |]. intros _.
        apply elem_of_app. right. left.
    - exists ws3, c3. split; [done |]. split; [done |].
      destruct (padding_spaces _ Hws3) as [P3 N3].
      split; [split; [done | lia] |].
      intros b Hb. split; [by apply Hl3 |]. intros ->.
      apply last_Some in Hb as [c' ->].
      assert (ends_with (B ",") (c' ++ [","%char]) = true) as Ht
        by (apply ends_with_comma; by eexists).
      congruence. }
  exists pre, post. split; [by rewrite E2, E4 |].
  split; [done |]. split; [done |]. split; [| done].
  intros b Hb. apply Hh2. rewrite E4, head_app, Hb. done.
Qed.

(** X23: when the splitter returns, the number of files asked for was
    not zero, it returns as many files as asked for, one when the number
    is negative, and the files are cut at split points that start at the
    start of the data and end at its end: the file [i] is the chunk read
    from the split point [i], one byte before it when [i] is not 0, up to
    one byte before the split point after it, without its padding of
    whitespace and commas, put between the opening [{"data":{] and a
    closing brace, two closing braces when it is not the last file. *)
Theorem X23_splitter_returns_the_number_of_files_asked_for (file : bytes)
    (n_splits : Z) (ss : list bytes) :
  ultra_fast_split file n_splits = Returns ss →
  n_splits ≠ 0
  ∧ length ss = Z.to_nat (Z.max 1 n_splits)
  ∧ ∃ data_start data_end split_points,
      data_bounds file = Ok (data_start, data_end)
      ∧ length split_points = S (length ss)
      ∧ head split_points = Some data_start
      ∧ last split_points = Some data_end
      ∧ ∀ i s, ss !! i = Some s →
          ∃ a b chunk body,
            split_points !! i = Some a ∧ split_points !! S i = Some b
            ∧ read_at file (a - (if decide (0 < i)%nat then 1 else 0))
                (b - 1 - (a - (if decide (0 < i)%nat then 1 else 0)))
              = Ok chunk
            ∧ cleaned chunk body
            ∧ s = B "{" ++ quoted "data" ++ B ":{" ++ body
                    ++ (if decide (S i < length ss)%nat then B "}" else [])
                    ++ B "}".
Proof.
  unfold ultra_fast_split.
  destruct (data_bounds file) as [[data_start data_end]|e]; [| done].
  destruct (decide (n_splits = 0)) as [|Hn]; [done |]. cbv zeta.
  destruct (split_points_loop _ _ _ _) as [bs| |] eqn:E; [| done..].
  apply split_points_loop_length in E.
  rewrite length_fmap, length_seq in E.
  set (sps := data_start :: bs ++ [data_end]).
  destruct (split_files _ _ _) as [ss'|e] eqn:Es; [| done].
  intros [= <-]. apply split_files_each in Es.
  pose proof (Forall2_length _ _ _ Es) as Hlen. rewrite length_seq in Hlen.
  assert (length sps = S (S (length bs))) as Hsps.
  { unfold sps. cbn [length]. rewrite length_app. cbn [length]. lia. }
  split; [done |]. split; [lia |].
  exists data_start, data_end, sps. split; [done |].
  split; [lia |]. split; [done |].
  split; [unfold sps; by rewrite last_cons, last_snoc |].
  intros i s Hs.
  assert (seq 0 (length sps - 1) !! i = Some i) as Hi.
  { apply lookup_lt_Some in Hs. rewrite lookup_seq. split; [done | lia]. }
  pose proof (Forall2_lookup_lr _ _ _ _ _ _ Es Hi Hs) as Hf.
  apply lookup_lt_Some in Hs.
  unfold split_file in Hf. cbv zeta in Hf.
  apply rbind_Ok in Hf as (chunk & Hr & [= <-]).
  destruct (lookup_lt_is_Some_2 sps i ltac:(lia)) as [a Ha].
  destruct (lookup_lt_is_Some_2 sps (S i) ltac:(lia)) as [b Hb].
  rewrite (list_lookup_total_correct _ _ _ Ha),
    (list_lookup_total_correct _ _ _ Hb) in Hr.
  exists a, b, chunk, (clean chunk).
  split; [done |]. split; [done |]. split; [done |].
  split; [apply clean_cleaned |].
  pose proof (length_app bs [data_end]) as Happ. cbn [length] in Happ.
  do 4 f_equal. repeat case_decide; try done; lia.
Qed.

Lemma X23_splitter_returns_the_number_of_files_asked_for_witness :
  ∃ ss,
    ultra_fast_split (corpus (sample_records 300 [(1, 1)])) 3 = Returns ss
    ∧ length ss = 3%nat
    ∧ take 18 <$> ss !! 1%nat
      = Some (B "{" ++ quoted "data" ++ B ":{" ++ quoted "12a_103").
Proof.
  eexists. split; [vm_compute; reflexivity |].
  match goal with
  | |- length ?l = _ ∧ _ =>
      assert (ultra_fast_split (corpus (sample_records 300 [(1, 1)])) 3
              = Returns l) as E by (vm_compute; reflexivity)
  end.
  apply X23_splitter_returns_the_number_of_files_asked_for in E
    as (_ & E & _).
  split; [exact E |]. vm_compute. reflexivity.
Defined.
End splitter.

(** ** The values of the pair of [jones_to_Vxp] *)

Section values.
Import JVP Ring.

Lemma qbsum_ext (f g : nat → Qc) n :
  (∀ i, (i < n)%nat → f i = g i) → qbsum f n = qbsum g n.
Proof.
  induction n as [|n IH]; intros H; cbn [qbsum]; [done |].
  rewrite IH, H by (try intros; try apply H; lia). done.
Qed.

Lemma qbsum_add (f g : nat → Qc) n :
  qbsum (λ i, f i + g i)%Qc n = (qbsum f n + qbsum g n)%Qc.
Proof. induction n as [|n IH]; cbn [qbsum]; [ring | rewrite IH; ring]. Qed.

Lemma qbsum_scal (c : Qc) (f : nat → Qc) n :
  qbsum (λ i, c * f i)%Qc n = (c * qbsum f n)%Qc.
Proof. induction n as [|n IH]; cbn [qbsum]; [ring | rewrite IH; ring]. Qed.

Lemma qbsum_shift (f : nat → Qc) n :
  f 0%nat = 0%Qc → qbsum f (S n) = qbsum (λ i, f (S i)) n.
Proof.
  intros H0. induction n as [|n IH].
  - cbn [qbsum]. rewrite H0. ring.
  - cbn [qbsum] in *. rewrite IH. ring.
Qed.

Lemma qbsum_single (c : Qc) (i n : nat) (g : nat → Qc) :
  (i < n)%nat →
  qbsum (λ d, (if decide (d = i) then c else 0) * g d)%Qc n = (c * g i)%Qc.
Proof.
  induction n as [|n IH]; intros Hi; [lia |]. cbn [qbsum].
  destruct (decide (n = i)) as [->|Hne].
  - rewrite (qbsum_ext _ (λ _, 0%Qc)).
    + assert (∀ k, qbsum (λ _, 0%Qc) k = 0%Qc) as ->.
      { induction k as [|k IHk]; cbn [qbsum]; [done | rewrite IHk; ring]. }
      ring.
    + intros d Hd. rewrite decide_False by lia. ring.
  - rewrite IH by lia. ring.
Qed.

(** A polynomial is its coefficients below any bound of its degrees. *)
Lemma peval_qbsum (p : Qc) : ∀ (A : poly) n,
  (∀ d, (n ≤ d)%nat → coef A d = 0) →
  peval A p = qbsum (λ d, Z2Qc (coef A d) * p ^ d)%Qc n.
Proof.
  intros A. induction A as [|i c A Hi IH] using map_ind; intros n Hn.
  - unfold peval. rewrite map_fold_empty.
    rewrite (qbsum_ext _ (λ d, 0 * p ^ d)%Qc).
    + rewrite qbsum_scal. ring.
    + intros d _. by rewrite coef_empty, Z2Qc_0.
  - unfold peval. rewrite map_fold_insert_L; [| intros; ring | done].
    fold (peval A p).
    assert (∀ d, coef (<[i:=c]> A) d
                 = (if decide (d = i) then c else 0) + coef A d) as Hc.
    { intros d. unfold coef. destruct (decide (d = i)) as [->|Hne].
      - rewrite lookup_insert_eq, Hi. cbn. lia.
      - by rewrite lookup_insert_ne. }
    rewrite (IH n).
    2:{ intros d Hd. specialize (Hn d Hd). rewrite Hc in Hn.
        destruct (decide (d = i)) as [->|Hne]; [| lia].
        unfold coef. by rewrite Hi. }
    rewrite (qbsum_ext (λ d, Z2Qc (coef (<[i:=c]> A) d) * p ^ d)%Qc
               (λ d, (if decide (d = i) then Z2Qc c else 0) * p ^ d
                     + Z2Qc (coef A d) * p ^ d)%Qc).
    2:{ intros d _. rewrite Hc, Z2Qc_add.
        destruct (decide (d = i)); rewrite ?Z2Qc_0; ring. }
    rewrite qbsum_add. f_equal.
    destruct (decide (i < n)%nat) as [Hlt|Hge].
    + by rewrite qbsum_single.
    + assert (c = 0) as ->.
      { specialize (Hn i ltac:(lia)). rewrite Hc, decide_True in Hn by done.
        unfold coef in Hn. rewrite Hi in Hn. cbn in Hn. lia. }
      rewrite Z2Qc_0. rewrite (qbsum_ext _ (λ d, 0 * p ^ d)%Qc).
      * rewrite qbsum_scal. ring.
      * intros d _. by case_decide.
Qed.

Lemma coef_bound (A : poly) : ∃ n, ∀ d, (n ≤ d)%nat → coef A d = 0.
Proof.
  induction A as [|i c A Hi [n Hn]] using map_ind.
  - exists 0%nat. intros d _. apply coef_empty.
  - exists (Nat.max n (S i)). intros d Hd. unfold coef.
    rewrite lookup_insert_ne by lia. apply Hn. lia.
Qed.

Lemma peval_ext (A B : poly) p :
  (∀ d, coef A d = coef B d) → peval A p = peval B p.
Proof.
  intros H. destruct (coef_bound A) as [n Hn], (coef_bound B) as [n' Hn'].
  rewrite (peval_qbsum p A (Nat.max n n')), (peval_qbsum p B (Nat.max n n')).
  - apply qbsum_ext. intros d _. by rewrite H.
  - intros d Hd. apply Hn'. lia.
  - intros d Hd. apply Hn. lia.
Qed.

Lemma peval_poly_add (A B : poly) p :
  peval (_poly_add A B) p = (peval A p + peval B p)%Qc.
Proof.
  destruct (coef_bound A) as [n Hn], (coef_bound B) as [n' Hn'].
  rewrite (peval_qbsum p A (Nat.max n n')), (peval_qbsum p B (Nat.max n n')),
    (peval_qbsum p (_poly_add A B) (Nat.max n n')).
  - rewrite <- qbsum_add. apply qbsum_ext. intros d _.
    rewrite coef_poly_add, Z2Qc_add. ring.
  - intros d Hd. rewrite coef_poly_add, Hn, Hn' by lia. done.
  - intros d Hd. apply Hn'. lia.
  - intros d Hd. apply Hn. lia.
Qed.

Lemma peval_poly_scalar_mul (A : poly) k p :
  peval (_poly_scalar_mul A k) p = (Z2Qc k * peval A p)%Qc.
Proof.
  destruct (coef_bound A) as [n Hn].
  rewrite (peval_qbsum p A n), (peval_qbsum p (_poly_scalar_mul A k) n).
  - rewrite <- qbsum_scal. apply qbsum_ext. intros d _.
    rewrite coef_poly_scalar_mul, Z2Qc_mul. ring.
  - intros d Hd. rewrite coef_poly_scalar_mul, Hn by lia. lia.
  - done.
Qed.

Lemma peval_poly_mul_p (A : poly) p :
  peval (_poly_mul_p A) p = (p * peval A p)%Qc.
Proof.
  destruct (coef_bound A) as [n Hn].
  rewrite (peval_qbsum p A n), (peval_qbsum p (_poly_mul_p A) (S n)).
  - rewrite qbsum_shift by (by rewrite coef_poly_mul_p_O, Z2Qc_0; ring).
    rewrite <- qbsum_scal. apply qbsum_ext. intros d _.
    rewrite coef_poly_mul_p_S. cbn [Qcpower]. ring.
  - intros d Hd. destruct d as [|d]; [lia |].
    rewrite coef_poly_mul_p_S. apply Hn. lia.
  - done.
Qed.

Lemma peval_empty p : peval ∅ p = 0%Qc.
Proof. unfold peval. by rewrite map_fold_empty. Qed.

Lemma peval_singleton (i : nat) (c : Z) p :
  peval {[ i := c ]} p = (Z2Qc c * p ^ i)%Qc.
Proof. unfold peval. rewrite map_fold_singleton. ring. Qed.
End values.

Section soundness.
Import JVP Ring.
Context (x y : Qc) (Hxy : (x * y)%Qc = 1%Qc).

Local Abbreviation value := (pair_value x y).

Lemma value_mul_by_x AB : value (_mul_by_x AB) = (x * value AB)%Qc.
Proof.
  destruct AB as [A B]. unfold pair_value. cbn [_mul_by_x fst snd].
  rewrite peval_poly_add, peval_poly_mul_p.
  set (a := peval A (x - y)). set (b := peval B (x - y)).
  assert (x * x = (x - y) * x + 1)%Qc as Hx2.
  { rewrite <- Hxy. ring. }
  transitivity (a * x + b * ((x - y) * x + 1))%Qc; [ring |].
  rewrite <- Hx2. ring.
Qed.

Lemma value_mul_by_y AB : value (_mul_by_y AB) = (y * value AB)%Qc.
Proof.
  destruct AB as [A B]. unfold pair_value. cbn [_mul_by_y fst snd].
  rewrite peval_poly_add, peval_poly_scalar_mul, peval_poly_mul_p.
  set (a := peval A (x - y)). set (b := peval B (x - y)).
  assert (Z2Qc (-1) = (- (1))%Qc) as -> by (by apply Qc_is_canon).
  transitivity (a * y + b * (x * y))%Qc; [| ring].
  rewrite Hxy. ring.
Qed.

Lemma value_xpow j : value (xpow j) = (x ^ j)%Qc.
Proof.
  destruct j as [|j].
  { unfold pair_value. cbn [xpow fst snd].
    rewrite peval_singleton, peval_empty, Z2Qc_1. cbn [Qcpower]. ring. }
  induction j as [|j IH].
  - unfold pair_value. cbn [xpow fst snd].
    rewrite !peval_singleton, Z2Qc_0, Z2Qc_1. cbn [Qcpower]. ring.
  - change (xpow (S (S j))) with (_mul_by_x (xpow (S j))).
    rewrite value_mul_by_x, IH. done.
Qed.

Lemma value_ypow j : value (ypow j) = (y ^ j)%Qc.
Proof.
  destruct j as [|j].
  { unfold pair_value. cbn [ypow fst snd].
    rewrite peval_singleton, peval_empty, Z2Qc_1. cbn [Qcpower]. ring. }
  induction j as [|j IH].
  - unfold pair_value. cbn [ypow fst snd].
    rewrite !peval_singleton, Z2Qc_1.
    assert (Z2Qc (-1) = (- (1))%Qc) as -> by (by apply Qc_is_canon).
    cbn [Qcpower]. ring.
  - change (ypow (S (S j))) with (_mul_by_y (ypow (S j))).
    rewrite value_mul_by_y, IH. done.
Qed.

Lemma value_term_pair half k :
  value (term_pair half k) = laurent_term half x y k.
Proof.
  unfold term_pair, laurent_term.
  destruct (decide (0 ≤ k)); [apply value_xpow | apply value_ypow].
Qed.

Lemma value_accumulate_step half acc kc :
  value (accumulate_spec_step half acc kc)
  = (value acc + Z2Qc kc.2 * laurent_term half x y kc.1)%Qc.
Proof.
  unfold accumulate_spec_step.
  destruct (decide (kc.2 = 0)) as [->|Hc]; [rewrite Z2Qc_0; ring |].
  rewrite <- value_term_pair. cbv zeta.
  destruct (decide (kc.2 ≠ 1)) as [Hc1|Hc1]; unfold pair_value; cbn [fst snd].
  - rewrite !peval_poly_add, !peval_poly_scalar_mul. ring.
  - assert (kc.2 = 1) as -> by (destruct (decide (kc.2 = 1)); tauto).
    rewrite !peval_poly_add, Z2Qc_1. ring.
Qed.

Lemma value_accumulate_spec half coefs : ∀ acc,
  value (accumulate_spec half acc coefs)
  = (value acc + laurent coefs half x y)%Qc.
Proof.
  unfold accumulate_spec.
  induction coefs as [|kc rest IH]; intros acc; cbn [fold_left laurent foldr].
  - ring.
  - fold (laurent rest half x y). rewrite IH, value_accumulate_step. ring.
Qed.

Lemma value_jones coefs half :
  value (accumulate_spec half (∅, ∅) coefs) = laurent coefs half x y.
Proof.
  rewrite value_accumulate_spec. unfold pair_value. cbn [fst snd].
  rewrite peval_empty. ring.
Qed.
End soundness.

(** X24: the pair of [jones_to_Vxp] is V in the variables x and p.  For
    every x with inverse y, which stand for q^(1/2) and q^(-1/2), the
    value of [A(p) + B(p) x] at p = x - y is the value of
    [sum_k c_k q^k], for integer powers of q and, with the flag, for
    powers of q^(1/2). *)
Theorem X24_jones_to_Vxp_is_V_in_x_and_p (coefs : coef_map) (half : bool)
    (x y : Qc) :
  (x * y)%Qc = 1%Qc →
  ∃ A B : JVP.poly,
    JVP.jones_to_Vxp coefs half = Ok (A, B)
    ∧ (peval A (x - y) + peval B (x - y) * x)%Qc = laurent coefs half x y.
Proof.
  intros Hxy. rewrite jones_to_Vxp_spec.
  pose proof (value_jones x y Hxy coefs half) as H.
  destruct (Ring.accumulate_spec half (∅, ∅) coefs) as [A B].
  by exists A, B.
Qed.

Lemma X24_jones_to_Vxp_is_V_in_x_and_p_witness :
  ∃ A B : JVP.poly,
    JVP.jones_to_Vxp trefoil false = Ok (A, B)
    ∧ (peval A (Z2Qc 2 - Q2Qc (1 # 2))
       + peval B (Z2Qc 2 - Q2Qc (1 # 2)) * Z2Qc 2)%Qc
      = laurent trefoil false (Z2Qc 2) (Q2Qc (1 # 2)).
Proof.
  apply (X24_jones_to_Vxp_is_V_in_x_and_p trefoil false (Z2Qc 2)
           (Q2Qc (1 # 2))).
  by apply Qc_is_canon.
Defined.

(** ** The dense lists of [_to_lists] *)

Section dense.
Import JVP.

Lemma fill_spec (n : nat) (P : poly) :
  (∀ k, is_Some (P !! k) → (k ≤ n)%nat) →
  length (map_fold (λ d c a, <[d := c]> a) (replicate (S n) 0) P) = S n
  ∧ ∀ d, default 0 (map_fold (λ d c a, <[d := c]> a)
                             (replicate (S n) 0) P !! d)
         = coef P d.
Proof.
  apply (map_fold_weak_ind
           (λ r m, (∀ k, is_Some (m !! k) → (k ≤ n)%nat) →
                   length r = S n ∧ ∀ d, default 0 (r !! d) = coef m d)).
  - intros _. split; [by rewrite length_replicate |].
    intros d. rewrite coef_empty.
    destruct (replicate (S n) 0 !! d) as [v|] eqn:E; [| done].
    by apply lookup_replicate in E as [-> _].
  - intros i c m r Hi IH Hkeys.
    destruct IH as [Hlen Hr].
    { intros k Hk. apply Hkeys. rewrite lookup_insert_ne; [done |].
      intros ->. rewrite Hi in Hk. by destruct Hk. }
    assert (i ≤ n)%nat as Hin.
    { apply Hkeys. rewrite lookup_insert_eq. by eexists. }
    split; [by rewrite length_insert |].
    intros d. unfold coef. destruct (decide (d = i)) as [->|Hne].
    + rewrite list_lookup_insert_eq by lia. by rewrite lookup_insert_eq.
    + rewrite list_lookup_insert_ne, lookup_insert_ne by done. apply Hr.
Qed.

Lemma max_key_bound (P : poly) k :
  is_Some (P !! k) →
  (k ≤ match max_key P with Ok d => d | Raise _ => 0 end)%nat.
Proof.
  intros Hk. destruct (max_key_ge P k Hk) as (mx & -> & Hle). done.
Qed.

(** X25: the two lists of [_to_lists] have the same length, one more than
    the largest degree of the two dictionaries, no assignment falls
    outside them, and entry d of each is the coefficient of degree d of
    its dictionary, 0 where the dictionary has none. *)
Theorem X25_to_lists_are_the_coefficients (A B : poly) :
  length (_to_lists A B).1 = length (_to_lists A B).2
  ∧ (∀ k, is_Some (A !! k) ∨ is_Some (B !! k) →
          (k < length (_to_lists A B).1)%nat)
  ∧ ∀ d, default 0 ((_to_lists A B).1 !! d) = coef A d
         ∧ default 0 ((_to_lists A B).2 !! d) = coef B d.
Proof.
  unfold _to_lists. cbv zeta. cbn [fst snd].
  set (n := Nat.max _ _).
  destruct (fill_spec n A) as [HlenA HA].
  { intros k Hk. apply max_key_bound in Hk. lia. }
  destruct (fill_spec n B) as [HlenB HB].
  { intros k Hk. apply max_key_bound in Hk. lia. }
  split; [congruence |]. split; [| by intros d].
  intros k [Hk|Hk]; apply max_key_bound in Hk; lia.
Qed.
End dense.

(** ** The backward boundary finder *)

Section backward.
Import Splitter.

Lemma back_scan_Some (chunk : bytes) : ∀ n off,
  back_scan chunk n = Some off →
  ∃ e nx,
    (e < n)%nat ∧ chunk !! e = Some "}"%char ∧ chunk !! S e = Some nx
    ∧ ((nx = ","%char ∧ off = (e + 2)%nat)
       ∨ ((nx = dq ∨ nx = "}"%char) ∧ off = (e + 1)%nat))
    ∧ ∀ i nx', (e < i < n)%nat → chunk !! i = Some "}"%char →
               chunk !! S i = Some nx' →
               nx' ≠ ","%char ∧ nx' ≠ dq ∧ nx' ≠ "}"%char.
Proof.
  induction n as [|n IH]; intros off; cbn [back_scan]; [done |].
  assert (back_scan chunk n = Some off →
          (chunk !! n = Some "}"%char →
           ∀ nx', chunk !! S n = Some nx' →
                  nx' ≠ ","%char ∧ nx' ≠ dq ∧ nx' ≠ "}"%char) →
          ∃ e nx,
            (e < S n)%nat ∧ chunk !! e = Some "}"%char
            ∧ chunk !! S e = Some nx
            ∧ ((nx = ","%char ∧ off = (e + 2)%nat)
               ∨ ((nx = dq ∨ nx = "}"%char) ∧ off = (e + 1)%nat))
            ∧ ∀ i nx', (e < i < S n)%nat → chunk !! i = Some "}"%char →
                       chunk !! S i = Some nx' →
                       nx' ≠ ","%char ∧ nx' ≠ dq ∧ nx' ≠ "}"%char) as Hrec.
  { intros (e & nx & He & Hb & Hnx & Hoff & Hmax)%IH Hn.
    exists e, nx. split_and!; try done; [lia |].
    intros i nx' Hi Hbi Hnxi. destruct (decide (i = n)) as [->|Hne].
    - by apply Hn.
    - apply (Hmax i); [lia | done..]. }
  destruct (chunk !! n) as [c|] eqn:Ec; [| intros H; by apply Hrec].
  destruct (chunk !! S n) as [nx|] eqn:En; [| intros H; by apply Hrec].
  destruct (decide (c = "}"%char)) as [->|Hc];
    [| intros H; apply Hrec; [done |]; by intros [= ->]].
  destruct (decide (nx = ","%char)) as [->|Hcomma].
  { intros [= <-]. exists n, ","%char.
    split_and!; try done; [lia | by left | intros i nx' Hi; lia]. }
  destruct (decide (nx = dq ∨ nx = "}"%char)) as [Hq|Hq].
  { intros [= <-]. exists n, nx.
    split_and!; try done; [lia | by right | intros i nx' Hi; lia]. }
  intros H. apply Hrec; [done |]. intros _ nx' [= <-].
  split_and!; [done | |]; intros ->; apply Hq; auto.
Qed.

(** X26: the position that [find_record_boundary_backward] returns is
    just after a closing brace of the search window that is followed,
    before the start position, by a comma, a quote or a closing brace,
    after the comma when it is a comma; and it is the last such brace of
    the window. *)
Theorem X26_backward_boundary_follows_a_closing_brace (file : bytes)
    (start_pos max_search b : nat) :
  find_record_boundary_backward file start_pos max_search = Some b →
  ∃ e nx,
    (start_pos - max_search ≤ e)%nat ∧ (S e < start_pos)%nat
    ∧ file !! e = Some "}"%char ∧ file !! S e = Some nx
    ∧ ((nx = ","%char ∧ b = (e + 2)%nat)
       ∨ ((nx = dq ∨ nx = "}"%char) ∧ b = (e + 1)%nat))
    ∧ ∀ i nx', (e < i)%nat → (S i < start_pos)%nat →
               file !! i = Some "}"%char → file !! S i = Some nx' →
               nx' ≠ ","%char ∧ nx' ≠ dq ∧ nx' ≠ "}"%char.
Proof.
  unfold find_record_boundary_backward. cbv zeta.
  set (ss := (start_pos - max_search)%nat).
  assert (ss = (start_pos - max_search)%nat) as Hss by done.
  set (chunk := take (start_pos - ss) (drop ss file)).
  assert (∀ k v, chunk !! k = Some v →
                 file !! (ss + k)%nat = Some v ∧ (ss + k < start_pos)%nat)
    as Hin.
  { intros k v Hk. unfold chunk in Hk.
    apply lookup_take_Some in Hk as [Hk Hlt].
    rewrite lookup_drop in Hk. split; [done | lia]. }
  assert (∀ k v, (ss + k < start_pos)%nat →
                 file !! (ss + k)%nat = Some v → chunk !! k = Some v)
    as Hout.
  { intros k v Hlt Hk. unfold chunk.
    rewrite lookup_take_lt by lia. by rewrite lookup_drop. }
  destruct (back_scan chunk (length chunk)) as [off|] eqn:E; [| done].
  case_decide; [| done]. intros [= <-].
  apply back_scan_Some in E
    as (e & nx & He & Hb & Hnx & Hoff & Hmax).
  destruct (Hin _ _ Hb) as [Hb' _]. destruct (Hin _ _ Hnx) as [Hnx' Hlt].
  exists (ss + e)%nat, nx.
  replace (S (ss + e)) with (ss + S e)%nat by lia.
  split; [lia |]. split; [lia |]. split; [done |]. split; [done |].
  split.
  - destruct Hoff as [[-> ->]|[Hq ->]]; [left | right]; split; try done; lia.
  - intros i nx' Hi Hlti Hbi Hnxi.
    apply (Hmax (i - ss)%nat nx').
    + split; [lia |]. apply lookup_lt_Some with (x := "}"%char).
      apply Hout; [lia |]. by replace (ss + (i - ss))%nat with i by lia.
    + apply Hout; [lia |]. by replace (ss + (i - ss))%nat with i by lia.
    + apply Hout; [lia |].
      by replace (ss + S (i - ss))%nat with (S i) by lia.
Qed.

Lemma X26_backward_boundary_follows_a_closing_brace_witness :
  find_record_boundary_backward
    (quoted "3_1" ++ B ": {" ++ quoted "coeffs" ++ B ": {}}," ++ [nl]
       ++ B "  " ++ quoted "4_1") 30 100 = Some 22%nat
  ∧ (quoted "3_1" ++ B ": {" ++ quoted "coeffs" ++ B ": {}}," ++ [nl]
       ++ B "  " ++ quoted "4_1") !! 20%nat = Some "}"%char.
Proof.
  split; [by vm_compute |].
  destruct (X26_backward_boundary_follows_a_closing_brace
              (quoted "3_1" ++ B ": {" ++ quoted "coeffs" ++ B ": {}},"
                 ++ [nl] ++ B "  " ++ quoted "4_1") 30 100 22)
    as (e & nx & _ & _ & He & _ & [[_ Hb]|[_ Hb]] & _); [by vm_compute | |].
  - by replace e with 20%nat in He by lia.
  - replace e with 21%nat in He by lia. by vm_compute in He.
Defined.
End backward.
